(** * Lingo.dev Deno SDK: a shallow embedding of [src/mod.ts]

    The engine of [src/mod.ts] is embedded function by function.  JavaScript
    values are an inductive type, plain objects are association lists kept in
    the order [Object.entries] enumerates them, strings are [string] (one
    [ascii] per code unit, code units below 256), and the network is an
    oracle threaded through a small state-and-exception monad that logs every
    request issued. *)

From Stdlib Require Import String Ascii List ZArith NArith Lia Bool Arith Sorted.
From Stdlib Require Import DecimalString DecimalNat DecimalZ Decimal.
Import ListNotations.

Local Open Scope string_scope.
Local Open Scope list_scope.

(* ================================================================== *)
(** ** JavaScript values and the primitives the engine relies on *)
(* ================================================================== *)

Module JS.

(** Values as they reach the engine: JSON documents and caller payloads.
    Numbers enter the modelled code only through [typeof], truthiness and
    string conversion; the integral ones are represented. *)
#[warnings="-register-all"]
Inductive value : Type :=
| VUndefined
| VNull
| VBool (b : bool)
| VNum (n : Z)
| VStr (s : string)
| VArr (items : list value)
| VObj (props : list (string * value)).

(** A plain object: its own enumerable string-keyed properties, in
    [Object.entries] order. *)
Definition obj : Type := list (string * value).

(** Things that can be thrown: [Error] instances (with their [name] and
    [message]) and arbitrary values (an abort reason, for instance). *)
Inductive thrown : Type :=
| ThrownError (name message : string)
| ThrownValue (v : value).

Definition Error (message : string) : thrown := ThrownError "Error" message.
Definition TypeError (message : string) : thrown := ThrownError "TypeError" message.

(** ToBoolean *)
Definition truthy (v : value) : bool :=
  match v with
  | VUndefined | VNull => false
  | VBool b => b
  | VNum n => negb (n =? 0)%Z
  | VStr s => negb (s =? "")
  | VArr _ | VObj _ => true
  end.

Definition is_string (v : value) : bool :=
  match v with VStr _ => true | _ => false end.

(** *** Strings *)

(** WhiteSpace and LineTerminator code units below 256: the set shared by
    [String.prototype.trim] and the regular expression class [\s]. *)
Definition is_ws (c : ascii) : bool :=
  let n := nat_of_ascii c in
  (((9 <=? n) && (n <=? 13)) || (n =? 32) || (n =? 160))%nat.

Definition is_digit (c : ascii) : bool :=
  let n := nat_of_ascii c in ((48 <=? n) && (n <=? 57))%nat.

Fixpoint trimStart (s : string) : string :=
  match s with
  | EmptyString => EmptyString
  | String c r => if is_ws c then trimStart r else s
  end.

Fixpoint trimEnd (s : string) : string :=
  match s with
  | EmptyString => EmptyString
  | String c r =>
      let r' := trimEnd r in
      if is_ws c && (r' =? "") then EmptyString else String c r'
  end.

Definition trim (s : string) : string := trimEnd (trimStart s).

(** [s.split(/\s+/)]: the pieces between the maximal whitespace runs, the
    empty pieces at either end included.  [in_sep] records that the previous
    code unit belonged to the separator being consumed; the head of the
    result is the piece under construction. *)
Fixpoint split_ws_from (in_sep : bool) (s : string) : list string :=
  match s with
  | EmptyString => [EmptyString]
  | String c r =>
      if is_ws c then
        if in_sep then split_ws_from true r
        else EmptyString :: split_ws_from true r
      else
        match split_ws_from false r with
        | h :: t => String c h :: t
        | [] => [String c EmptyString]
        end
  end.

Definition split_ws (s : string) : list string := split_ws_from false s.

(** [filter(Boolean)] on an array of strings *)
Definition filter_Boolean (l : list string) : list string :=
  filter (fun s => negb (s =? "")) l.

(** [s.split(sep)] for a one-code-unit separator *)
Fixpoint split_char (sep : ascii) (s : string) : list string :=
  match s with
  | EmptyString => [EmptyString]
  | String c r =>
      if (c =? sep)%char then EmptyString :: split_char sep r
      else
        match split_char sep r with
        | h :: t => String c h :: t
        | [] => [String c EmptyString]
        end
  end.

Fixpoint starts_with (p s : string) : bool :=
  match p, s with
  | EmptyString, _ => true
  | String a p', String b s' => (a =? b)%char && starts_with p' s'
  | String _ _, EmptyString => false
  end.

(** [s.includes(p)] *)
Fixpoint includes (s p : string) : bool :=
  starts_with p s ||
  match s with
  | EmptyString => false
  | String _ r => includes r p
  end.

(** The string made of one double quote *)
Definition dquote : string := String (ascii_of_nat 34) EmptyString.

(** Decimal rendering of an index or a status code inside a template
    literal. *)
Definition nat_to_string (n : nat) : string :=
  NilEmpty.string_of_uint (Nat.to_uint n).

Definition Z_to_string (z : Z) : string :=
  NilZero.string_of_int (Z.to_int z).

(** *** parseInt *)

Definition digit_value (c : ascii) : option Z :=
  let n := nat_of_ascii c in
  if ((48 <=? n) && (n <=? 57))%nat then Some (Z.of_nat (n - 48)) else None.

Definition hex_digit_value (c : ascii) : option Z :=
  let n := nat_of_ascii c in
  if ((48 <=? n) && (n <=? 57))%nat then Some (Z.of_nat (n - 48))
  else if ((65 <=? n) && (n <=? 70))%nat then Some (Z.of_nat (n - 55))
  else if ((97 <=? n) && (n <=? 102))%nat then Some (Z.of_nat (n - 87))
  else None.

(** The longest prefix of radix digits, read as an integer; [None] when the
    prefix is empty.  [seen] tells whether a digit has been read. *)
Fixpoint parse_digits (dv : ascii -> option Z) (radix : Z)
         (seen : bool) (acc : Z) (s : string) : option Z :=
  match s with
  | EmptyString => if seen then Some acc else None
  | String c r =>
      match dv c with
      | Some d => parse_digits dv radix true (radix * acc + d) r
      | None => if seen then Some acc else None
      end
  end.

Definition parse_unsigned (s : string) : option Z :=
  match s with
  | String "0" (String "x" r) | String "0" (String "X" r) =>
      parse_digits hex_digit_value 16 false 0 r
  | _ => parse_digits digit_value 10 false 0 s
  end.

(** [parseInt(s)] without a radix; [None] is [NaN].  The result is the exact
    integer: it is used only as an array index, and an integer too large to
    be exact is out of range of every array either way. *)
Definition parseInt (s : string) : option Z :=
  match trimStart s with
  | String "-" r => option_map Z.opp (parse_unsigned r)
  | String "+" r => parse_unsigned r
  | t => parse_unsigned t
  end.

(** [parseInt(x)] where [x] may be [undefined] (a missing array element):
    the argument is first converted to the string ["undefined"]. *)
Definition parseInt_opt (x : option string) : option Z :=
  match x with
  | Some s => parseInt s
  | None => parseInt "undefined"
  end.

(** [arr[i]] for a number [i] (or [NaN]): [None] is [undefined]. *)
Definition index {A : Type} (arr : list A) (i : option Z) : option A :=
  match i with
  | Some z => if (z <? 0)%Z then None else nth_error arr (Z.to_nat z)
  | None => None
  end.

(** *** Objects *)

(** An array index in the sense of property ordering: a canonical decimal
    numeral below [2^32 - 1]. *)
Fixpoint digits_value (acc : N) (s : string) : option N :=
  match s with
  | EmptyString => Some acc
  | String c r =>
      if is_digit c then
        digits_value (acc * 10 + (N_of_ascii c - 48))%N r
      else None
  end.

Definition array_index (k : string) : option N :=
  match k with
  | EmptyString => None
  | String c r =>
      if (c =? "0")%char && negb (r =? "") then None
      else
        match digits_value 0 k with
        | Some n => if (n <? 4294967295)%N then Some n else None
        | None => None
        end
  end.

Fixpoint has_key (k : string) (o : obj) : bool :=
  match o with
  | [] => false
  | (k', _) :: r => (k' =? k) || has_key k r
  end.

(** own-property lookup *)
Fixpoint get_own (k : string) (o : obj) : option value :=
  match o with
  | [] => None
  | (k', v) :: r => if k' =? k then Some v else get_own k r
  end.

Fixpoint replace_key (k : string) (v : value) (o : obj) : obj :=
  match o with
  | [] => []
  | (k', v') :: r =>
      if k' =? k then (k', v) :: r else (k', v') :: replace_key k v r
  end.

(** A new array-index key goes before the first larger index, or before the
    first key that is not an index. *)
Fixpoint insert_index (n : N) (k : string) (v : value) (o : obj) : obj :=
  match o with
  | [] => [(k, v)]
  | (k', v') :: r =>
      match array_index k' with
      | Some m =>
          if (n <? m)%N then (k, v) :: o
          else (k', v') :: insert_index n k v r
      | None => (k, v) :: o
      end
  end.

(** [o[k] = v] on a plain object whose prototype is [Object.prototype].
    An existing property keeps its place; a new one is enumerated after the
    array indices (in ascending order) in creation order.  The key
    [__proto__] reaches the accessor of [Object.prototype] and creates no own
    property. *)
Definition obj_set (k : string) (v : value) (o : obj) : obj :=
  if k =? "__proto__" then o
  else if has_key k o then replace_key k v o
  else
    match array_index k with
    | Some n => insert_index n k v o
    | None => o ++ [(k, v)]
    end.

Definition Object_entries (o : obj) : list (string * value) := o.
Definition Object_values (o : obj) : list value := map snd o.
Definition Object_keys (o : obj) : list string := map fst o.

Fixpoint indexed_from {A : Type} (f : A -> value) (i : nat) (l : list A) : obj :=
  match l with
  | [] => []
  | x :: r => (nat_to_string i, f x) :: indexed_from f (S i) r
  end.

(** The own enumerable properties [Object.assign] copies from a source. *)
Definition own_entries (v : value) : obj :=
  match v with
  | VObj props => props
  | VArr items => indexed_from (fun x => x) 0 items
  | VStr s => indexed_from (fun c => VStr (String c EmptyString)) 0 (list_ascii_of_string s)
  | _ => []
  end.

Definition assign_one (target : obj) (source : value) : obj :=
  fold_left (fun t kv => obj_set (fst kv) (snd kv) t) (own_entries source) target.

(** [Object.assign(target, ...sources)] *)
Definition Object_assign (target : obj) (sources : list value) : obj :=
  fold_left assign_one sources target.

(** [v.name] for a value that is neither [null] nor [undefined]; nothing on
    the prototypes of the values met here answers to the names the engine
    reads ([data], [error], [email], [id]). *)
Definition get_prop (name : string) (v : value) : value :=
  match v with
  | VObj props =>
      match get_own name props with Some x => x | None => VUndefined end
  | _ => VUndefined
  end.

Definition is_nullish (v : value) : bool :=
  match v with VUndefined | VNull => true | _ => false end.

End JS.

Import JS.

(* ================================================================== *)
(** ** Word-Counter *)
(* ================================================================== *)

Definition reduce {A B : Type} (f : B -> A -> B) (init : B) (l : list A) : B :=
  fold_left f l init.

(** [countWordsInRecord], lines 229-247.  The values of a mapping are read
    off its entries, one by one ([countWordsInRecord_values] states the
    case with [Object_values]). *)
Fixpoint countWordsInRecord (payload : value) : Z :=
  match payload with
  | VArr items =>
      reduce (fun acc item => acc + countWordsInRecord item)%Z 0%Z items
  | VObj props =>
      reduce (fun acc kv => acc + countWordsInRecord (snd kv))%Z 0%Z props
  | VStr s =>
      Z.of_nat (length (filter_Boolean (split_ws (trim s))))
  | _ => 0%Z
  end.

(** [String(v)] and the conversion inside [new Error(v)] and template
    literals; [None] when the conversion itself throws a [TypeError] (an
    object whose own [toString] property is not callable). *)
Fixpoint to_js_string (v : value) : option string :=
  match v with
  | VUndefined => Some "undefined"
  | VNull => Some "null"
  | VBool true => Some "true"
  | VBool false => Some "false"
  | VNum n => Some (Z_to_string n)
  | VStr s => Some s
  | VArr items =>
      (fix join (l : list value) : option string :=
         match l with
         | [] => Some EmptyString
         | x :: r =>
             match (if is_nullish x then Some EmptyString else to_js_string x),
                   join r with
             | Some a, Some b =>
                 Some (match r with [] => a | _ => a ++ "," ++ b end)%string
             | _, _ => None
             end
         end) items
  | VObj props =>
      if has_key "toString" props then None else Some "[object Object]"
  end.

(* ================================================================== *)
(** ** Configuration *)
(* ================================================================== *)

(** [Partial<EngineParams>]: an absent field is [None]. *)
Record PartialEngineParams : Type := {
  p_apiKey : option string;
  p_apiUrl : option string;
  p_batchSize : option Z;
  p_idealBatchItemSize : option Z
}.

Record EngineParams : Type := {
  apiKey : string;
  apiUrl : string;
  batchSize : Z;
  idealBatchItemSize : Z
}.

(** Modelled from the spec: [LocaleCode], declared in the [types.ts] that
    [mod.ts] imports, is "an opaque string type"; a locale is a [string]
    here.  The engine only tests [targetLocale] for emptiness; the codes the
    README lists ([en], [es], [fr], ...) are all non-empty. *)
Record LocalizationParams : Type := {
  sourceLocale : option string;
  targetLocale : string;
  fast : option bool;
  reference : option value;
  hints : option value
}.

Inductive result (A : Type) : Type :=
| Ok (a : A)
| Throw (e : thrown).
Arguments Ok {A} a.
Arguments Throw {A} e.

(** [x ?? d] *)
Definition nullish_or {A : Type} (x : option A) (d : A) : A :=
  match x with Some a => a | None => d end.

(** [validateEngineParams], lines 30-41. *)
Definition validateEngineParams (config : PartialEngineParams)
  : result EngineParams :=
  match p_apiKey config with
  | None | Some EmptyString => Throw (Error "apiKey is required")
  | Some key =>
      Ok {| apiKey := key;
            apiUrl := nullish_or (p_apiUrl config) "https://engine.lingo.dev";
            batchSize := nullish_or (p_batchSize config) 25%Z;
            idealBatchItemSize := nullish_or (p_idealBatchItemSize config) 250%Z |}
  end.

(** The constructor of [LingoDotDevEngine], lines 67-69: the instance is its
    [config]. *)
Definition LingoDotDevEngine (config : PartialEngineParams)
  : result EngineParams :=
  validateEngineParams config.

(** [validateLocalizationParams], lines 43-51. *)
Definition validateLocalizationParams (params : LocalizationParams)
  : result LocalizationParams :=
  if targetLocale params =? "" then Throw (Error "targetLocale is required")
  else Ok params.

(* ================================================================== *)
(** ** The network *)
(* ================================================================== *)

Record Request : Type := {
  req_url : string;
  req_method : string;
  req_authorization : string;
  req_body : option value
}.

(** What [res.json()] settles to: the parsed document, or the thrown
    [SyntaxError] with the message the host gives it. *)
Inductive JsonResult : Type :=
| JsonOk (v : value)
| JsonFail (message : string).

Record Response : Type := {
  status : Z;
  statusText : string;
  res_text : string;
  res_json : JsonResult
}.

(** [res.ok] *)
Definition ok (res : Response) : bool :=
  ((200 <=? status res) && (status res <=? 299))%Z.

Inductive FetchOutcome : Type :=
| Resolved (res : Response)
| Rejected (e : thrown).

(** The environment of one engine: the remote end (what the [n]-th request
    of a run is answered with) and the identifier [createId] draws. *)
Record Env : Type := {
  remote : nat -> Request -> FetchOutcome;
  createId : string
}.

(** Computations that may throw and that log the requests they issue. *)
Definition M (A : Type) : Type := list Request -> result A * list Request.

Definition ret {A : Type} (a : A) : M A := fun log => (Ok a, log).
Definition throw {A : Type} (e : thrown) : M A := fun log => (Throw e, log).
Definition bind {A B : Type} (m : M A) (k : A -> M B) : M B :=
  fun log =>
    match m log with
    | (Ok a, log') => k a log'
    | (Throw e, log') => (Throw e, log')
    end.
Definition lift {A : Type} (r : result A) : M A := fun log => (r, log).

(** [try { m } catch (error) { h error }] *)
Definition try_catch {A : Type} (m : M A) (h : thrown -> M A) : M A :=
  fun log =>
    match m log with
    | (Ok a, log') => (Ok a, log')
    | (Throw e, log') => h e log'
    end.

Declare Scope engine_scope.
Delimit Scope engine_scope with engine.
Notation "x <- m ;; k" := (bind m (fun x => k))
  (at level 61, m at next level, right associativity) : engine_scope.
Local Open Scope engine_scope.

(** [await fetch(...)] *)
Definition fetch (env : Env) (req : Request) : M Response :=
  fun log =>
    match remote env (length log) req with
    | Resolved res => (Ok res, log ++ [req])
    | Rejected e => (Throw e, log ++ [req])
    end.

(** [await res.json()] *)
Definition json (res : Response) : M value :=
  match res_json res with
  | JsonOk v => ret v
  | JsonFail message => throw (ThrownError "SyntaxError" message)
  end.

(** [new Error(v)] for a value that is not [undefined] *)
Definition new_Error (v : value) : thrown :=
  match to_js_string v with
  | Some message => Error message
  | None => TypeError "Cannot convert object to primitive value"
  end.

(** Reading a property off a value: [null] and [undefined] throw. *)
Definition read_prop (name : string) (v : value) : M value :=
  if is_nullish v then
    throw (TypeError ("Cannot read properties of null (reading '" ++ name ++ "')"))
  else ret (get_prop name v).

(* ================================================================== *)
(** ** Chunk Translator Client *)
(* ================================================================== *)

Definition optional_field (name : string) (x : option value) : obj :=
  match x with Some v => [(name, v)] | None => [] end.

Definition i18n_body (sourceLocale : option string) (targetLocale : string)
           (data : obj) (reference hints : option value)
           (workflowId : string) (fast : bool) : value :=
  VObj ([("params", VObj [("workflowId", VStr workflowId); ("fast", VBool fast)]);
         ("locale", VObj [("source", match sourceLocale with
                                     | Some s => VStr s | None => VNull end);
                          ("target", VStr targetLocale)]);
         ("data", VObj data)]
        ++ optional_field "reference" reference
        ++ optional_field "hints" hints).

Definition i18n_request (config : EngineParams)
           (sourceLocale : option string) (targetLocale : string)
           (data : obj) (reference hints : option value)
           (workflowId : string) (fast : bool) : Request :=
  {| req_url := apiUrl config ++ "/i18n";
     req_method := "POST";
     req_authorization := "Bearer " ++ apiKey config;
     req_body := Some (i18n_body sourceLocale targetLocale data
                                 reference hints workflowId fast) |}.

(** [localizeChunk], lines 130-187. *)
Definition localizeChunk (env : Env) (config : EngineParams)
           (sourceLocale : option string) (targetLocale : string)
           (data : obj) (reference hints : option value)
           (workflowId : string) (fast : bool) : M value :=
  res <- fetch env (i18n_request config sourceLocale targetLocale data
                                 reference hints workflowId fast) ;;
  if negb (ok res) then
    if ((500 <=? status res) && (status res <? 600))%Z then
      let errorText := res_text res in
      throw (Error ("Server error (" ++ Z_to_string (status res) ++ "): "
                    ++ statusText res ++ ". " ++ errorText
                    ++ ". This may be due to temporary service issues."))
    else if (status res =? 400)%Z then
      throw (Error ("Invalid request: " ++ statusText res))
    else
      let errorText := res_text res in
      throw (Error errorText)
  else
    jsonResponse <- json res ;;
    data' <- read_prop "data" jsonResponse ;;
    if negb (truthy data') && truthy (get_prop "error" jsonResponse) then
      throw (new_Error (get_prop "error" jsonResponse))
    else
      ret (if truthy data' then data' else VObj []).

(* ================================================================== *)
(** ** Chunker *)
(* ================================================================== *)

(** [x || d] on numbers *)
Definition or_default (x d : Z) : Z := if (x =? 0)%Z then d else x.

(** The loop of [extractPayloadChunks], lines 202-219, at iteration [i] of
    [len], over the entries still to visit. *)
Fixpoint chunk_loop (config : EngineParams) (len : Z)
         (payloadEntries : list (string * value)) (i : Z)
         (currentChunk : obj) (currentChunkItemCount : Z)
         (result : list obj) : list obj :=
  match payloadEntries with
  | [] => result
  | (key, value) :: rest =>
      if is_string value then
        let currentChunk := obj_set key value currentChunk in
        let currentChunkItemCount := (currentChunkItemCount + 1)%Z in
        let currentChunkSize := countWordsInRecord (VObj currentChunk) in
        if (currentChunkSize >? or_default (idealBatchItemSize config) 250)%Z
           || (currentChunkItemCount >=? or_default (batchSize config) 25)%Z
           || (i =? len - 1)%Z
        then chunk_loop config len rest (i + 1)%Z [] 0%Z (result ++ [currentChunk])
        else chunk_loop config len rest (i + 1)%Z
                        currentChunk currentChunkItemCount result
      else chunk_loop config len rest (i + 1)%Z
                      currentChunk currentChunkItemCount result
  end.

(** [extractPayloadChunks], lines 194-222. *)
Definition extractPayloadChunks (config : EngineParams) (payload : obj)
  : list obj :=
  let payloadEntries := Object_entries payload in
  chunk_loop config (Z.of_nat (length payloadEntries)) payloadEntries 0%Z [] 0%Z [].

(* ================================================================== *)
(** ** Localization Orchestrator *)
(* ================================================================== *)

(** The loop of [_localizeRaw], lines 95-115, with no progress callback
    supplied. *)
Fixpoint localize_chunks (env : Env) (config : EngineParams)
         (finalParams : LocalizationParams) (workflowId : string)
         (chunkedPayload : list obj) (processedPayloadChunks : list value)
  : M (list value) :=
  match chunkedPayload with
  | [] => ret processedPayloadChunks
  | chunk :: rest =>
      processedPayloadChunk <-
        localizeChunk env config
          (sourceLocale finalParams) (targetLocale finalParams)
          chunk (reference finalParams) (hints finalParams) workflowId
          (match fast finalParams with Some true => true | _ => false end) ;;
      localize_chunks env config finalParams workflowId rest
                      (processedPayloadChunks ++ [processedPayloadChunk])
  end.

(** [_localizeRaw], lines 80-118. *)
Definition _localizeRaw (env : Env) (config : EngineParams)
           (payload : obj) (params : LocalizationParams) : M obj :=
  finalParams <- lift (validateLocalizationParams params) ;;
  let chunkedPayload := extractPayloadChunks config payload in
  let workflowId := createId env in
  processedPayloadChunks <-
    localize_chunks env config finalParams workflowId chunkedPayload [] ;;
  ret (Object_assign [] processedPayloadChunks).

(** [localizeObject], lines 260-271. *)
Definition localizeObject (env : Env) (config : EngineParams)
           (o : obj) (params : LocalizationParams) : M obj :=
  _localizeRaw env config o params.

(** [strings.reduce((acc, str, i) => { acc[`item_${i}`] = str; ... }, {})],
    lines 349-355, and the same fold over a chat with the prefix [chat_],
    lines 379-385. *)
Fixpoint keyed_record (prefix : string) (texts : list string) (i : nat)
         (acc : obj) : obj :=
  match texts with
  | [] => acc
  | str :: rest =>
      keyed_record prefix rest (S i)
                   (obj_set (prefix ++ nat_to_string i) (VStr str) acc)
  end.

(** [arr.map(f)] for an [f] that may throw *)
Fixpoint map_M {A B : Type} (f : A -> M B) (l : list A) : M (list B) :=
  match l with
  | [] => ret []
  | x :: r => y <- f x ;; ys <- map_M f r ;; ret (y :: ys)
  end.

Definition String_ (v : value) : M string :=
  match to_js_string v with
  | Some s => ret s
  | None => throw (TypeError "Cannot convert object to primitive value")
  end.

(** [localizeStringArray], lines 345-359. *)
Definition localizeStringArray (env : Env) (config : EngineParams)
           (strings : list string) (params : LocalizationParams)
  : M (list string) :=
  let mapped := keyed_record "item_" strings 0 [] in
  result <- localizeObject env config mapped params ;;
  map_M String_ (Object_values result).

Record ChatMessage : Type := { name : string; text : string }.

(** An element of the array [localizeChat] resolves to: [text] is whatever
    the merged response holds. *)
Record LocalizedMessage : Type := { l_name : string; l_text : value }.

(** [parseInt(key.split("_")[1])], line 395: the integer after the first
    underscore of a key. *)
Definition parsed_index (key : string) : option Z :=
  parseInt_opt (nth_error (split_char "_" key) 1).

(** The error of reading [.name] off [undefined]. *)
Definition undefined_name : thrown :=
  TypeError "Cannot read properties of undefined (reading 'name')".

(** The callback of the final [map] of [localizeChat], lines 394-397. *)
Definition chat_entry (chat : list ChatMessage) (kv : string * value)
  : M LocalizedMessage :=
  let '(key, value) := kv in
  match index chat (parsed_index key) with
  | Some message => ret {| l_name := name message; l_text := value |}
  | None => throw undefined_name
  end.

(** [localizeChat], lines 372-398. *)
Definition localizeChat (env : Env) (config : EngineParams)
           (chat : list ChatMessage) (params : LocalizationParams)
  : M (list LocalizedMessage) :=
  let chatRecord := keyed_record "chat_" (map text chat) 0 [] in
  localized <- _localizeRaw env config chatRecord params ;;
  map_M (chat_entry chat) (Object_entries localized).

(** What [whoami] resolves to: [null] is [None]. *)
Record UserInfo : Type := { email : value; id : value }.

Definition whoami_request (config : EngineParams) : Request :=
  {| req_url := apiUrl config ++ "/whoami";
     req_method := "POST";
     req_authorization := "Bearer " ++ apiKey config;
     req_body := None |}.

(** [whoami], lines 692-730. *)
Definition whoami (env : Env) (config : EngineParams) : M (option UserInfo) :=
  try_catch
    (res <- fetch env (whoami_request config) ;;
     if ok res then
       payload <- json res ;;
       if negb (truthy (if is_nullish payload then VUndefined
                        else get_prop "email" payload))
       then ret None
       else ret (Some {| email := get_prop "email" payload;
                         id := get_prop "id" payload |})
     else if ((500 <=? status res) && (status res <? 600))%Z then
       throw (Error ("Server error (" ++ Z_to_string (status res) ++ "): "
                     ++ statusText res
                     ++ ". This may be due to temporary service issues."))
     else ret None)
    (fun error =>
       match error with
       | ThrownError _ message =>
           if includes message "Server error" then throw error else ret None
       | ThrownValue _ => ret None
       end).

(* ================================================================== *)
(** ** HTML: the regular-expression fallback *)
(* ================================================================== *)

(** The regular expressions of [localizeHtmlSimple] are embedded one by one
    as matchers: each tells, for the text at a position, whether the
    expression matches there, what its group captures and how many code
    units the match spans.  None of them can match in two ways at a
    position (every starred class stops at the one code unit the next item
    needs), so no backtracking is involved. *)

Definition upper (c : ascii) : ascii :=
  let n := nat_of_ascii c in
  if ((97 <=? n) && (n <=? 122))%nat then ascii_of_nat (n - 32) else c.

(** A literal ASCII pattern under the [i] flag, at the start of [s] *)
Fixpoint starts_with_ci (p s : string) : bool :=
  match p, s with
  | EmptyString, _ => true
  | String a p', String b s' => (upper a =? upper b)%char && starts_with_ci p' s'
  | String _ _, EmptyString => false
  end.

(** [\w] *)
Definition is_word_char (c : ascii) : bool :=
  let n := nat_of_ascii c in
  (((48 <=? n) && (n <=? 57)) || ((65 <=? n) && (n <=? 90))
   || ((97 <=? n) && (n <=? 122)) || (n =? 95))%nat.

Fixpoint drop (n : nat) (s : string) : string :=
  match n, s with
  | O, _ => s
  | S k, String _ r => drop k r
  | S _, EmptyString => EmptyString
  end.

Fixpoint take (n : nat) (s : string) : string :=
  match n, s with
  | S k, String c r => String c (take k r)
  | _, _ => EmptyString
  end.

(** The code units before the first [stop], and whether a [stop] follows
    them: what a greedy negated class followed by [stop] consumes. *)
Fixpoint span_until (stop : ascii) (s : string) : string * bool :=
  match s with
  | EmptyString => (EmptyString, false)
  | String c r =>
      if (c =? stop)%char then (EmptyString, true)
      else let (t, found) := span_until stop r in (String c t, found)
  end.

(** From just after an opening tag: the number of code units up to the end
    of the first closing tag; every ["<"] on the way is tried. *)
Fixpoint find_close (close : string) (s : string) : option nat :=
  match s with
  | EmptyString => None
  | String c r =>
      if (c =? "<")%char && starts_with_ci close s then Some (String.length close)
      else option_map S (find_close close r)
  end.

(** The expression that strips a script block (line 584; the same for
    style, line 588) at the start of [s]: the opening tag name followed by a
    word boundary, then everything up to and including the first closing
    tag.  The result is the length of the match. *)
Definition block_match (open close : string) (s : string) : option nat :=
  if starts_with_ci open s then
    let r := drop (String.length open) s in
    match r with
    | String c _ => if is_word_char c then None
                    else option_map (Nat.add (String.length open)) (find_close close r)
    | EmptyString => None
    end
  else None.

(** [s.replace(re, "")] for a global expression with non-empty matches:
    [skip] counts the code units of the current match still to drop. *)
Fixpoint remove_matches (m : string -> option nat) (skip : nat) (s : string)
  : string :=
  match s with
  | EmptyString => EmptyString
  | String c r =>
      match skip with
      | S k => remove_matches m k r
      | O =>
          match m s with
          | Some (S k) => remove_matches m k r
          | _ => String c (remove_matches m 0 r)
          end
      end
  end.

(** The first group of every match of a global expression, left to right;
    the matcher gives the group and the length of the match. *)
Fixpoint all_matches (m : string -> option (string * nat)) (skip : nat)
         (s : string) : list string :=
  match s with
  | EmptyString => []
  | String c r =>
      match skip with
      | S k => all_matches m k r
      | O =>
          match m s with
          | Some (group, S k) => group :: all_matches m k r
          | _ => all_matches m 0 r
          end
      end
  end.

(** The expression of line 593: a [>], one or more code units other than
    [<] (the group), and a [<]. *)
Definition text_match (s : string) : option (string * nat) :=
  match s with
  | String ">" r =>
      match span_until "<" r with
      | (String c t, true) => Some (String c t, String.length (String c t) + 2)
      | _ => None
      end
  | _ => None
  end.

(** The expressions of lines 605-608: the attribute name, the equals sign
    and a double quote (the [prefix], under the [i] flag), one or more code
    units other than a double quote (the group), and a double quote. *)
Definition attribute_match (prefix : string) (s : string)
  : option (string * nat) :=
  if starts_with_ci prefix s then
    match span_until (ascii_of_nat 34) (drop (String.length prefix) s) with
    | (String c t, true) =>
        Some (String c t, String.length prefix + String.length (String c t) + 1)
    | _ => None
    end
  else None.

Definition attributePatterns : list string :=
  ["title=" ++ dquote; "alt=" ++ dquote;
   "placeholder=" ++ dquote; "content=" ++ dquote]%string.

(** The expression of line 633: the opening of the html tag under the [i]
    flag, any code units other than [>] (the group), and a [>]. *)
Definition html_tag_match (s : string) : option (string * nat) :=
  if starts_with_ci "<html" s then
    match span_until ">" (drop 5 s) with
    | (attrs, true) => Some (attrs, 5 + String.length attrs + 1)
    | _ => None
    end
  else None.

Definition capture (captures : list string) (n : nat) : option string :=
  match n with
  | O => None
  | S k => nth_error captures k
  end.

Definition digit_of (c : ascii) : option nat :=
  if is_digit c then Some (nat_of_ascii c - 48) else None.

(** GetSubstitution: the expansion of a replacement string for one match of
    an expression without named groups. *)
Fixpoint expand (template matched before after : string)
         (captures : list string) : string :=
  match template with
  | EmptyString => EmptyString
  | String c rest =>
      if negb (c =? "$")%char then
        String c (expand rest matched before after captures)
      else
        match rest with
        | EmptyString => "$"
        | String d1 r =>
            if (d1 =? "$")%char then
              String "$" (expand r matched before after captures)
            else if (d1 =? "&")%char then
              (matched ++ expand r matched before after captures)%string
            else if (d1 =? "`")%char then
              (before ++ expand r matched before after captures)%string
            else if (d1 =? "'")%char then
              (after ++ expand r matched before after captures)%string
            else
              match digit_of d1 with
              | Some n1 =>
                  let one :=
                    match capture captures n1 with
                    | Some group =>
                        (group ++ expand r matched before after captures)%string
                    | None =>
                        String "$" (String d1
                          (expand r matched before after captures))
                    end in
                  match r with
                  | String d2 r2 =>
                      match digit_of d2 with
                      | Some n2 =>
                          match capture captures (10 * n1 + n2) with
                          | Some group =>
                              (group ++ expand r2 matched before after captures)%string
                          | None => one
                          end
                      | None => one
                      end
                  | EmptyString => one
                  end
              | None => String "$" (expand rest matched before after captures)
              end
        end
  end.

(** [s.replace(re, template)] for an expression without the [g] flag:
    the first match, scanning from the left; [before] is what precedes the
    position. *)
Fixpoint replace_first (m : string -> option (string * nat)) (template : string)
         (before : string) (s : string) : string :=
  match m s with
  | Some (group, n) =>
      (before ++ expand template (take n s) before (drop n s) [group]
       ++ drop n s)%string
  | None =>
      match s with
      | EmptyString => before
      | String c r =>
          replace_first m template (before ++ String c EmptyString)%string r
      end
  end.

(** [s.replace(new RegExp(escaped, "g"), template)] where [escaped] is the
    non-empty literal [pat] with its special characters escaped: every
    occurrence of [pat], left to right without overlap. *)
Fixpoint replace_all (pat template : string) (skip : nat) (before : string)
         (s : string) : string :=
  match s with
  | EmptyString => EmptyString
  | String c r =>
      let before' := (before ++ String c EmptyString)%string in
      match skip with
      | S k => replace_all pat template k before' r
      | O =>
          if starts_with pat s then
            match String.length pat with
            | S k =>
                (expand template pat before (drop (String.length pat) s) []
                 ++ replace_all pat template k before' r)%string
            | O => String c (replace_all pat template 0 before' r)
            end
          else String c (replace_all pat template 0 before' r)
      end
  end.

(** The extraction phase of [localizeHtmlSimple], lines 576-618. *)
Definition add_texts (matches : list string) (start : obj * nat) : obj * nat :=
  fold_left
    (fun (st : obj * nat) (group : string) =>
       let '(extractedContent, counter) := st in
       let text := trim group in
       if negb (text =? "") then
         (obj_set ("text_" ++ nat_to_string counter)%string (VStr text)
                  extractedContent,
          S counter)
       else st)
    matches start.

Definition add_attributes (patternIndex : nat) (matches : list string)
           (start : obj * nat) : obj * nat :=
  fold_left
    (fun (st : obj * nat) (group : string) =>
       let '(extractedContent, counter) := st in
       if negb (trim group =? "") then
         (obj_set ("attr_" ++ nat_to_string patternIndex ++ "_"
                   ++ nat_to_string counter)%string (VStr group) extractedContent,
          S counter)
       else st)
    matches start.

Fixpoint add_patterns (html : string) (patterns : list string)
         (patternIndex : nat) (st : obj * nat) : obj * nat :=
  match patterns with
  | [] => st
  | pattern :: rest =>
      add_patterns html rest (S patternIndex)
        (add_attributes patternIndex
           (all_matches (attribute_match pattern) 0 html) st)
  end.

Definition extract_simple (html : string) : obj :=
  let tempHtml :=
    remove_matches (block_match "<style" "</style>") 0
      (remove_matches (block_match "<script" "</script>") 0 html) in
  let st := add_texts (all_matches text_match 0 tempHtml) ([], 0) in
  fst (add_patterns html attributePatterns 0 st).

(** The names [Object.prototype] answers to: reading one of them off an
    object that has no such own property yields a function or an object. *)
Definition Object_prototype_names : list string :=
  ["constructor"; "__defineGetter__"; "__defineSetter__"; "hasOwnProperty";
   "__lookupGetter__"; "__lookupSetter__"; "isPrototypeOf";
   "propertyIsEnumerable"; "toString"; "valueOf"; "__proto__";
   "toLocaleString"].

(** One round of the final loop of [localizeHtmlSimple], lines 638-649. *)
Definition substitute_entry (extractedContent : obj) (localizedHtml : string)
           (kv : string * value) : M string :=
  let '(key, value) := kv in
  match get_own key extractedContent with
  | Some (VStr originalValue) =>
      if negb (originalValue =? "") then
        template <- String_ value ;;
        ret (replace_all originalValue template 0 EmptyString localizedHtml)
      else ret localizedHtml
  | Some _ => ret localizedHtml
  | None =>
      if existsb (String.eqb key) Object_prototype_names then
        throw (TypeError "originalValue.replace is not a function")
      else ret localizedHtml
  end.

Fixpoint fold_M {A B : Type} (f : B -> A -> M B) (l : list A) (init : B) : M B :=
  match l with
  | [] => ret init
  | x :: r => y <- f init x ;; fold_M f r y
  end.

(** [localizeHtmlSimple], lines 569-652. *)
Definition localizeHtmlSimple (env : Env) (config : EngineParams)
           (html : string) (params : LocalizationParams) : M string :=
  let extractedContent := extract_simple html in
  localizedContent <- _localizeRaw env config extractedContent params ;;
  let localizedHtml :=
    replace_first html_tag_match
      ("<html$1 lang=" ++ dquote ++ targetLocale params ++ dquote ++ ">")%string
      EmptyString html in
  fold_M (substitute_entry extractedContent)
         (Object_entries localizedContent) localizedHtml.

(* ================================================================== *)
(** ** HTML: the structural codec *)
(* ================================================================== *)

(** The document tree the host's [DOMParser] hands over.  An element keeps
    its tag name in lower case (what [tagName.toLowerCase()] yields); nodes
    that are neither elements nor text (comments, the doctype) are
    [OtherNode]. *)
#[warnings="-register-all"]
Inductive node : Type :=
| TextNode (data : string)
| ElementNode (tagName : string) (attributes : list (string * string))
              (childNodes : list node)
| OtherNode.

Record document : Type := {
  documentElement_attributes : list (string * string);
  head : option node;
  body : option node
}.

(** The host side of the structural branch: the parser and the serializer
    behind [outerHTML]. *)
Record DomHost : Type := {
  parseFromString : string -> document;
  outerHTML : document -> string
}.

Definition children_of (n : node) : list node :=
  match n with
  | ElementNode _ _ children => children
  | _ => []
  end.

(** [n.nodeType === 1 || (n.nodeType === 3 && n.textContent?.trim())] *)
Definition significant (n : node) : bool :=
  match n with
  | ElementNode _ _ _ => true
  | TextNode data => negb (trim data =? "")
  | OtherNode => false
  end.

(** [LOCALIZABLE_ATTRIBUTES[tagName] || []]; [None] when the lookup lands on
    a member of [Object.prototype], which has no [forEach]. *)
Definition localizable_attributes (tagName : string) : option (list string) :=
  if tagName =? "meta" then Some ["content"]
  else if tagName =? "img" then Some ["alt"]
  else if tagName =? "input" then Some ["placeholder"]
  else if tagName =? "a" then Some ["title"]
  else if existsb (String.eqb tagName) Object_prototype_names then None
  else Some [].

Definition UNLOCALIZABLE_TAGS : list string := ["script"; "style"].

Definition getAttribute (name : string) (attrs : list (string * string))
  : option string :=
  option_map snd (find (fun kv => fst kv =? name) attrs).

Fixpoint setAttribute (name value : string) (attrs : list (string * string))
  : list (string * string) :=
  match attrs with
  | [] => [(name, value)]
  | (k, v) :: r =>
      if k =? name then (k, value) :: r else (k, v) :: setAttribute name value r
  end.

(** [processNode], lines 469-502, for a node whose path is [path];
    [blocked] tells that an ancestor is a script or style element.  The
    path of a child is the path of its parent followed by its position among
    the significant children, which is what [getPath] (lines 438-467)
    rebuilds from the parent links. *)
Fixpoint processNode (blocked : bool) (path : string) (n : node)
         (extractedContent : obj) : result obj :=
  if blocked then Ok extractedContent
  else
    match n with
    | TextNode data =>
        let text := trim data in
        if negb (text =? "") then Ok (obj_set path (VStr text) extractedContent)
        else Ok extractedContent
    | ElementNode tagName attrs children =>
        match localizable_attributes tagName with
        | None => Throw (TypeError "attributes.forEach is not a function")
        | Some names =>
            let extractedContent :=
              fold_left
                (fun acc attr =>
                   match getAttribute attr attrs with
                   | Some value =>
                       if negb (value =? "") then
                         obj_set (path ++ "#" ++ attr)%string (VStr value) acc
                       else acc
                   | None => acc
                   end)
                names extractedContent in
            (fix each (l : list node) (i : nat) (acc : obj) : result obj :=
               match l with
               | [] => Ok acc
               | child :: rest =>
                   if significant child then
                     match processNode
                             (existsb (String.eqb tagName) UNLOCALIZABLE_TAGS)
                             (path ++ "/" ++ nat_to_string i)%string child acc with
                     | Ok acc' => each rest (S i) acc'
                     | Throw e => Throw e
                     end
                   else each rest i acc
               end) children 0 extractedContent
        end
    | OtherNode => Ok extractedContent
    end.

(** The significant children of [head] or [body], each processed in turn
    (lines 504-520). *)
Fixpoint process_top (root : string) (l : list node) (i : nat) (acc : obj)
  : result obj :=
  match l with
  | [] => Ok acc
  | child :: rest =>
      if significant child then
        match processNode false (root ++ "/" ++ nat_to_string i)%string child acc with
        | Ok acc' => process_top root rest (S i) acc'
        | Throw e => Throw e
        end
      else process_top root rest i acc
  end.

Definition node_name (n : node) : string :=
  match n with
  | ElementNode tagName _ _ => tagName
  | TextNode _ => "#text"
  | OtherNode => "#comment"
  end.

Definition extract_document (doc : document) : result obj :=
  match (match head doc with
         | Some h => process_top (node_name h) (children_of h) 0 []
         | None => Ok []
         end) with
  | Ok acc =>
      match body doc with
      | Some b => process_top (node_name b) (children_of b) 0 acc
      | None => Ok acc
      end
  | Throw e => Throw e
  end.

(** The raw positions of the significant children, in order *)
Fixpoint significant_children (l : list node) (raw : nat) : list (nat * node) :=
  match l with
  | [] => []
  | child :: rest =>
      if significant child then (raw, child) :: significant_children rest (S raw)
      else significant_children rest (S raw)
  end.

(** The descent of lines 543-552: [parent] and [current] are addressed by
    their raw positions below the root. *)
Fixpoint descend (indices : list string) (parent : list nat * node)
         (current : option (list nat * node)) : option (list nat * node) :=
  match indices with
  | [] => current
  | idx :: rest =>
      let siblings := significant_children (children_of (snd parent)) 0 in
      let current :=
        option_map (fun rc : nat * node => (fst parent ++ [fst rc], snd rc))
                   (index siblings (parseInt idx)) in
      let parent :=
        match current with
        | Some (a, ElementNode t at_ ch) => (a, ElementNode t at_ ch)
        | _ => parent
        end in
      descend rest parent current
  end.

Fixpoint update_at (address : list nat) (f : node -> node) (n : node) : node :=
  match address with
  | [] => f n
  | i :: rest =>
      match n with
      | ElementNode t at_ children =>
          ElementNode t at_
            ((fix go (l : list node) (k : nat) : list node :=
                match l, k with
                | [], _ => []
                | c :: r, O => update_at rest f c :: r
                | c :: r, S k' => c :: go r k'
                end) children i)
      | _ => n
      end
  end.

(** [node.textContent = value] *)
Definition set_textContent (value : string) (n : node) : node :=
  match n with
  | TextNode _ => TextNode value
  | ElementNode t at_ _ =>
      ElementNode t at_ (if value =? "" then [] else [TextNode value])
  | OtherNode => OtherNode
  end.

Definition set_node_attribute (name value : string) (n : node) : node :=
  match n with
  | ElementNode t at_ ch => ElementNode t (setAttribute name value at_) ch
  | _ => n
  end.

(** One round of the loop of lines 534-561. *)
Definition inject_entry (doc : document) (kv : string * value)
  : result document :=
  let '(path, value) := kv in
  let pieces := split_char "#" path in
  let nodePath := nth 0 pieces EmptyString in
  let attribute := nth_error pieces 1 in
  let segments := split_char "/" nodePath in
  let rootTag := nth 0 segments EmptyString in
  let indices := tl segments in
  let in_head := match head doc with
                 | Some _ => rootTag =? "head"
                 | None => false
                 end in
  match (if in_head then head doc else body doc) with
  | None =>
      match indices with
      | [] => Ok doc
      | _ => Throw (TypeError "Cannot read properties of null (reading 'childNodes')")
      end
  | Some root =>
      match descend indices ([], root) (Some ([], root)) with
      | None => Ok doc
      | Some (address, target) =>
          let put (f : node -> node) : document :=
            if in_head then
              {| documentElement_attributes := documentElement_attributes doc;
                 head := Some (update_at address f root);
                 body := body doc |}
            else
              {| documentElement_attributes := documentElement_attributes doc;
                 head := head doc;
                 body := Some (update_at address f root) |} in
          match attribute with
          | Some (String c name') =>
              match target, to_js_string value with
              | ElementNode _ _ _, Some text =>
                  Ok (put (set_node_attribute (String c name') text))
              | ElementNode _ _ _, None =>
                  Throw (TypeError "Cannot convert object to primitive value")
              | _, _ => Throw (TypeError "current.setAttribute is not a function")
              end
          | _ =>
              match (if is_nullish value then Some EmptyString
                     else to_js_string value) with
              | Some text => Ok (put (set_textContent text))
              | None => Throw (TypeError "Cannot convert object to primitive value")
              end
          end
      end
  end.

Fixpoint inject_all (entries : list (string * value)) (doc : document)
  : result document :=
  match entries with
  | [] => Ok doc
  | kv :: rest =>
      match inject_entry doc kv with
      | Ok doc' => inject_all rest doc'
      | Throw e => Throw e
      end
  end.

(** [localizeHtml], lines 412-564; [DOMParser] is the global of that name,
    [None] where the host defines none. *)
Definition localizeHtml (env : Env) (config : EngineParams)
           (DOMParser : option DomHost)
           (html : string) (params : LocalizationParams) : M string :=
  match DOMParser with
  | None => localizeHtmlSimple env config html params
  | Some parser =>
      let doc := parseFromString parser html in
      extractedContent <- lift (extract_document doc) ;;
      localizedContent <- _localizeRaw env config extractedContent params ;;
      let doc :=
        {| documentElement_attributes :=
             setAttribute "lang" (targetLocale params)
                          (documentElement_attributes doc);
           head := head doc;
           body := body doc |} in
      doc <- lift (inject_all (Object_entries localizedContent) doc) ;;
      let serialized := outerHTML parser doc in
      ret (if serialized =? "" then html else serialized)
  end.

(* ================================================================== *)
(** ** The rest of the engine *)
(* ================================================================== *)

Definition id_chars : string :=
  "abcdefghijklmnopqrstuvwxyzABCDEFGHIJKLMNOPQRSTUVWXYZ0123456789".

(** [s.charAt(i)] *)
Definition charAt (s : string) (i : nat) : string :=
  match String.get i s with
  | Some c => String c EmptyString
  | None => EmptyString
  end.

(** The loop of [createId], lines 8-10, with [rounds] rounds to go;
    [draws i] is the value of [Math.floor(Math.random() * chars.length)] in
    round [i]. *)
Fixpoint createId_loop (rounds : nat) (draws : nat -> nat) (i : nat)
         (result : string) : string :=
  match rounds with
  | O => result
  | S k =>
      createId_loop k draws (S i) (result ++ charAt id_chars (draws i))%string
  end.

(** [createId], lines 4-12. *)
Definition createId_from (draws : nat -> nat) : string :=
  createId_loop 12 draws 0 EmptyString.

(** [_localizeRaw] up to its last line: the processed chunks, before
    [Object.assign] merges them. *)
Definition localizeRaw_chunks (env : Env) (config : EngineParams)
           (payload : obj) (params : LocalizationParams) : M (list value) :=
  finalParams <- lift (validateLocalizationParams params) ;;
  localize_chunks env config finalParams (createId env)
                  (extractPayloadChunks config payload) [].

(** The prototype of an object under construction by [Object.assign]. *)
Inductive prototype : Type :=
| ObjectPrototype
| ProtoObject (props : obj)
| ProtoNull.

(** What assigning the key [__proto__] does to the prototype of the target:
    as long as the accessor of [Object.prototype] is what the key reaches
    (the target has no own [__proto__] property, and neither its prototype
    is [null] nor has one), an object or [null] becomes the prototype and
    any other value is ignored; otherwise the assignment makes or updates an
    own property and the prototype stays.  The state is the prototype and
    whether the target has an own [__proto__] property. *)
Definition assign_proto (st : prototype * bool) (kv : string * value)
  : prototype * bool :=
  let '(proto, own) := st in
  if negb (fst kv =? "__proto__") then st
  else if own then st
  else
    match proto with
    | ProtoNull => (proto, true)
    | ProtoObject props =>
        if has_key "__proto__" props then (proto, true)
        else
          match snd kv with
          | VObj props' => (ProtoObject props', false)
          | VNull => (ProtoNull, false)
          | _ => st
          end
    | ObjectPrototype =>
        match snd kv with
        | VObj props' => (ProtoObject props', false)
        | VNull => (ProtoNull, false)
        | _ => st
        end
    end.

(** The prototype of [Object.assign({}, ...sources)] *)
Definition assigned_prototype (sources : list value) : prototype :=
  fst (fold_left
         (fun st source => fold_left assign_proto (own_entries source) st)
         sources (ObjectPrototype, false)).

(** [Object.assign({}, ...sources)[name]] for a name [Object.prototype] does
    not answer to: the own property, or else the one of the prototype the
    sources installed. *)
Definition merged_get (name : string) (sources : list value) : value :=
  match get_own name (Object_assign [] sources) with
  | Some v => v
  | None =>
      match assigned_prototype sources with
      | ProtoObject props =>
          match get_own name props with Some v => v | None => VUndefined end
      | _ => VUndefined
      end
  end.

(** [localizeText], lines 284-297.  The merged response is kept as its
    sources, because the read of [text] goes through the prototype as well;
    its own properties are those [_localizeRaw] returns
    ([localizeRaw_merged]). *)
Definition localizeText (env : Env) (config : EngineParams)
           (text : string) (params : LocalizationParams) : M value :=
  sources <- localizeRaw_chunks env config [("text", VStr text)] params ;;
  let translated := merged_get "text" sources in
  ret (if truthy translated then translated else VStr EmptyString).

(** Every computation of a list is started, in order, whether or not an
    earlier one fails: the promises [targetLocales.map(...)] makes, each
    with what it settles to. *)
Fixpoint settle_all {A : Type} (ms : list (M A)) (log : list Request)
  : list (result A) * list Request :=
  match ms with
  | [] => ([], log)
  | m :: rest =>
      let (x, log') := m log in
      let (xs, log'') := settle_all rest log' in
      (x :: xs, log'')
  end.

(** [Promise.all]: the values in order when every promise is fulfilled; the
    reason of a rejected one (the first to be rejected in time) otherwise. *)
Inductive Promise_all {A : Type} : list (result A) -> result (list A) -> Prop :=
| all_fulfilled (values : list A) :
    Promise_all (map Ok values) (Ok values)
| one_rejected (settled : list (result A)) (e : thrown) :
    In (Throw e) settled -> Promise_all settled (Throw e).

(** The engine at a call whose [createId] draws [id]. *)
Definition with_id (env : Env) (id : string) : Env :=
  {| remote := remote env; createId := id |}.

(** The calls of [batchLocalizeText], lines 318-331: one [localizeText] per
    target locale, the [k]-th drawing the workflow identifier [ids k].  Each
    call issues its request when it is made, so the requests go out in the
    order of the locales. *)
Fixpoint batchLocalizeText_calls (env : Env) (ids : nat -> string)
         (config : EngineParams) (text : string) (sourceLocale : string)
         (fast : option bool) (k : nat) (targetLocales : list string)
  : list (M value) :=
  match targetLocales with
  | [] => []
  | targetLocale :: rest =>
      localizeText (with_id env (ids k)) config text
        {| sourceLocale := Some sourceLocale;
           targetLocale := targetLocale;
           fast := fast;
           reference := None;
           hints := None |}
      :: batchLocalizeText_calls env ids config text sourceLocale fast (S k) rest
  end.

(** [batchLocalizeText], lines 309-334: the requests it issues, and what it
    may settle to. *)
Definition batchLocalizeText_settled (env : Env) (ids : nat -> string)
           (config : EngineParams) (text : string) (sourceLocale : string)
           (targetLocales : list string) (fast : option bool)
           (log : list Request) : list (result value) * list Request :=
  settle_all (batchLocalizeText_calls env ids config text sourceLocale fast
                                      0 targetLocales) log.

Definition batchLocalizeText (env : Env) (ids : nat -> string)
           (config : EngineParams) (text : string) (sourceLocale : string)
           (targetLocales : list string) (fast : option bool)
           (log : list Request) (outcome : result (list value)) : Prop :=
  Promise_all (fst (batchLocalizeText_settled env ids config text sourceLocale
                                              targetLocales fast log)) outcome.

Definition recognize_request (config : EngineParams) (text : string) : Request :=
  {| req_url := apiUrl config ++ "/recognize";
     req_method := "POST";
     req_authorization := "Bearer " ++ apiKey config;
     req_body := Some (VObj [("text", VStr text)]) |}.

(** [recognizeLocale], lines 660-685. *)
Definition recognizeLocale (env : Env) (config : EngineParams) (text : string)
  : M value :=
  response <- fetch env (recognize_request config text) ;;
  if negb (ok response) then
    if ((500 <=? status response) && (status response <? 600))%Z then
      throw (Error ("Server error (" ++ Z_to_string (status response) ++ "): "
                    ++ statusText response
                    ++ ". This may be due to temporary service issues."))
    else
      throw (Error ("Error recognizing locale: " ++ statusText response))
  else
    jsonResponse <- json response ;;
    read_prop "locale" jsonResponse.

(** The two deprecated classes, lines 736-769.  The state is the static flag
    [hasWarnedDeprecation] of each class and what [console.warn] has been
    given so far. *)
Record ClassState : Type := {
  replexica_warned : bool;
  lingo_warned : bool;
  console_warnings : list string
}.

Definition replexica_warning : string :=
  "ReplexicaEngine is deprecated and will be removed in a future release. "
  ++ "Please use LingoDotDevEngine instead. "
  ++ "See https://lingo.dev/cli for more information.".

Definition lingo_warning : string :=
  "LingoEngine is deprecated and will be removed in a future release. "
  ++ "Please use LingoDotDevEngine instead. "
  ++ "See https://lingo.dev/cli for more information.".

(** [new ReplexicaEngine(config)], lines 739-749 *)
Definition ReplexicaEngine (config : PartialEngineParams) (st : ClassState)
  : result EngineParams * ClassState :=
  match LingoDotDevEngine config with
  | Throw e => (Throw e, st)
  | Ok engine =>
      if negb (replexica_warned st) then
        (Ok engine,
         {| replexica_warned := true;
            lingo_warned := lingo_warned st;
            console_warnings := console_warnings st ++ [replexica_warning] |})
      else (Ok engine, st)
  end.

(** [new LingoEngine(config)], lines 758-768 *)
Definition LingoEngine (config : PartialEngineParams) (st : ClassState)
  : result EngineParams * ClassState :=
  match LingoDotDevEngine config with
  | Throw e => (Throw e, st)
  | Ok engine =>
      if negb (lingo_warned st) then
        (Ok engine,
         {| replexica_warned := replexica_warned st;
            lingo_warned := true;
            console_warnings := console_warnings st ++ [lingo_warning] |})
      else (Ok engine, st)
  end.

Inductive EngineClass : Type := Replexica | Lingo | LingoDotDev.

(** A program that constructs engines, one after the other; a failed
    construction is caught and the program goes on. *)
Definition construct (st : ClassState) (call : EngineClass * PartialEngineParams)
  : ClassState :=
  match fst call with
  | Replexica => snd (ReplexicaEngine (snd call) st)
  | Lingo => snd (LingoEngine (snd call) st)
  | LingoDotDev => st
  end.

Definition initial_classes : ClassState :=
  {| replexica_warned := false; lingo_warned := false; console_warnings := [] |}.

(* ================================================================== *)
(** ** A caller: the edge function of the Supabase example *)
(* ================================================================== *)

(** The [TranslationRequest] the handler reads its body as; an absent field
    is [None] (an absent [targetLocale] is the empty string, which the
    engine treats alike). *)
Record TranslationRequest : Type := {
  r_text : option string;
  r_object : option obj;
  r_chat : option (list ChatMessage);
  r_html : option string;
  r_sourceLocale : option string;
  r_targetLocale : string;
  r_type : string
}.

Inductive HandlerBody : Type :=
| NoBody
| TextBody (s : string)
| JsonBody (v : value).

Record HandlerResponse : Type := {
  h_status : Z;
  h_headers : list (string * string);
  h_body : HandlerBody
}.

Definition allow_origin : string * string := ("Access-Control-Allow-Origin", "*").
Definition json_content : string * string := ("Content-Type", "application/json").

(** The [catch] block of the handler: the status and message an error is
    answered with. *)
Definition error_response (error : thrown) : HandlerResponse :=
  let answer :=
    match error with
    | ThrownError name message =>
        if name =? "AbortError" then (408%Z, "Request timed out")
        else if includes message "Server error" then (502%Z, message)
        else if includes message "Invalid request" then (400%Z, message)
        else (500%Z, message)
    | ThrownValue _ => (500%Z, "Internal server error")
    end in
  {| h_status := fst answer;
     h_headers := [json_content; allow_origin];
     h_body := JsonBody (VObj [("success", VBool false);
                               ("error", VStr (snd answer))]) |}.

Definition message_value (m : LocalizedMessage) : value :=
  VObj [("name", VStr (l_name m)); ("text", l_text m)].

(** The [switch] of the handler: the engine call the request asks for. *)
Definition dispatch (env : Env) (config : EngineParams)
           (DOMParser : option DomHost) (requestData : TranslationRequest)
  : M value :=
  let params :=
    {| sourceLocale := r_sourceLocale requestData;
       targetLocale := r_targetLocale requestData;
       fast := None; reference := None; hints := None |} in
  let type := r_type requestData in
  if type =? "text" then
    match r_text requestData with
    | Some (String c t) => localizeText env config (String c t) params
    | _ => throw (Error "Text is required for text translation")
    end
  else if type =? "object" then
    match r_object requestData with
    | Some o => result <- localizeObject env config o params ;; ret (VObj result)
    | None => throw (Error "Object is required for object translation")
    end
  else if type =? "chat" then
    match r_chat requestData with
    | Some chat =>
        result <- localizeChat env config chat params ;;
        ret (VArr (map message_value result))
    | None => throw (Error "Chat is required for chat translation")
    end
  else if type =? "html" then
    match r_html requestData with
    | Some (String c t) =>
        result <- localizeHtml env config DOMParser (String c t) params ;;
        ret (VStr result)
    | _ => throw (Error "HTML is required for HTML translation")
    end
  else if type =? "detect" then
    match r_text requestData with
    | Some (String c t) => recognizeLocale env config (String c t)
    | _ => throw (Error "Text is required for language detection")
    end
  else throw (Error ("Unknown translation type: " ++ type)).

(** The handler given to [serve]: [method] is the method of the request and
    [body] what [req.json()] settles to, the message of the syntax error or
    the request read. *)
Definition handler (env : Env) (config : EngineParams)
           (DOMParser : option DomHost)
           (method : string) (body : string + TranslationRequest)
  : M HandlerResponse :=
  if method =? "OPTIONS" then
    ret {| h_status := 200;
           h_headers := [allow_origin;
                         ("Access-Control-Allow-Methods", "POST, OPTIONS");
                         ("Access-Control-Allow-Headers",
                          "Content-Type, Authorization")];
           h_body := NoBody |}
  else if negb (method =? "POST") then
    ret {| h_status := 405;
           h_headers := [allow_origin];
           h_body := TextBody "Method not allowed" |}
  else
    try_catch
      (requestData <- match body with
                      | inl message => throw (ThrownError "SyntaxError" message)
                      | inr requestData => ret requestData
                      end ;;
       result <- dispatch env config DOMParser requestData ;;
       ret {| h_status := 200;
              h_headers := [json_content; allow_origin];
              h_body := JsonBody (VObj [("success", VBool true);
                                        ("data", result)]) |})
      (fun error => ret (error_response error)).

(* ================================================================== *)
(** ** Specification-side definitions *)
(* ================================================================== *)

(** The number of maximal whitespace-delimited non-empty tokens of a string,
    counted where each token begins: at a code unit that is not whitespace
    and that follows whitespace or the start of the string. *)
Fixpoint token_starts (after_ws : bool) (s : string) : nat :=
  match s with
  | EmptyString => 0
  | String c r =>
      if is_ws c then token_starts true r
      else (if after_ws then 1 else 0) + token_starts false r
  end.

Definition word_tokens (s : string) : nat := token_starts true s.

Fixpoint all_ws (s : string) : bool :=
  match s with
  | EmptyString => true
  | String c r => is_ws c && all_ws r
  end.

Fixpoint ws_free (s : string) : bool :=
  match s with
  | EmptyString => true
  | String c r => negb (is_ws c) && ws_free r
  end.

(** What follows a token: nothing, or whitespace. *)
Definition token_end (rest : string) : Prop :=
  match rest with
  | EmptyString => True
  | String c _ => is_ws c = true
  end.

(** [tokenized s tokens]: [tokens] are the maximal whitespace-delimited
    non-empty tokens of [s], in order.  Each token is a non-empty run free of
    whitespace, preceded by whitespace (or the start) and followed by
    whitespace (or the end). *)
Inductive tokenized : string -> list string -> Prop :=
| tokenized_none (sep : string) :
    all_ws sep = true -> tokenized sep []
| tokenized_token (sep token rest : string) (tokens : list string) :
    all_ws sep = true ->
    token <> EmptyString -> ws_free token = true -> token_end rest ->
    tokenized rest tokens ->
    tokenized (sep ++ token ++ rest)%string (token :: tokens).

(** The leaf strings reachable through nested arrays and mappings, in
    traversal order. *)
Fixpoint leaf_strings (v : value) : list string :=
  match v with
  | VStr s => [s]
  | VArr items => flat_map leaf_strings items
  | VObj props => flat_map (fun kv => leaf_strings (snd kv)) props
  | _ => []
  end.

(** The order in which an object enumerates its own keys: array indices
    first, in ascending numeric order, then the other keys, each key once. *)
Definition key_lt (k1 k2 : string) : Prop :=
  match array_index k1, array_index k2 with
  | Some a, Some b => (a < b)%N
  | Some _, None => True
  | None, Some _ => False
  | None, None => k1 <> k2
  end.

Definition entry_lt (a b : string * value) : Prop := key_lt (fst a) (fst b).

(** An association list that is the enumeration of some object. *)
Definition canonical (o : obj) : Prop := StronglySorted entry_lt o.

(** The entries of a payload the Chunker is meant to keep. *)
Definition string_entries (o : obj) : obj :=
  filter (fun kv => is_string (snd kv)) o.

Fixpoint last_is_string (o : obj) : bool :=
  match o with
  | [] => true
  | [kv] => is_string (snd kv)
  | _ :: r => last_is_string r
  end.

(** No string-valued entry is keyed [__proto__]. *)
Definition no_proto_strings (o : obj) : Prop :=
  Forall (fun kv => is_string (snd kv) = true -> fst kv <> "__proto__") o.

(** The chunk a request carries. *)
Definition request_data (req : Request) : obj :=
  match req_body req with
  | Some body => own_entries (get_prop "data" body)
  | None => []
  end.

Definition translate_entry (tr : string -> value -> string)
           (kv : string * value) : string * value :=
  (fst kv, VStr (tr (fst kv) (snd kv))).

(** A remote end that answers every chunk with status 2xx and a [data]
    mapping listing the keys of the chunk in the order they were sent, each
    with the translation [tr] gives it. *)
Definition answers_in_order (env : Env) (tr : string -> value -> string) : Prop :=
  forall n req, exists res body,
    remote env n req = Resolved res /\ ok res = true /\
    res_json res = JsonOk body /\ is_nullish body = false /\
    get_prop "data" body = VObj (map (translate_entry tr) (request_data req)).


(** [arr.map((x, i) => f(i, x))] *)
Fixpoint mapi_from {A B : Type} (f : nat -> A -> B) (i : nat) (l : list A)
  : list B :=
  match l with
  | [] => []
  | x :: r => f i x :: mapi_from f (S i) r
  end.

Definition es_prefix (key : string) (v : value) : string :=
  match v with VStr s => "ES:" ++ s | _ => EmptyString end.

(** A remote end that translates with [tr]; the raw text of its answers is
    not read on the 2xx path and is left empty. *)
Definition translating_remote (tr : string -> value -> string) : Env :=
  {| remote := fun _ req =>
       Resolved {| status := 200; statusText := "OK"; res_text := EmptyString;
                   res_json := JsonOk (VObj [("data",
                     VObj (map (translate_entry tr) (request_data req)))]) |};
     createId := "k3v9x1m7q2zt" |}.

(** The key [localizeChat] synthesizes for the message at index [i]. *)
Definition chat_key (i : nat) : string := "chat_" ++ nat_to_string i.

Fixpoint all_digits (s : string) : bool :=
  match s with
  | EmptyString => true
  | String c r => is_digit c && all_digits r
  end.

(** What [localizeChat] is to return for the message at index [i] when
    [tr] is the translation. *)
Definition localized_message (tr : string -> value -> string)
           (i : nat) (message : ChatMessage) : LocalizedMessage :=
  {| l_name := name message;
     l_text := VStr (tr (chat_key i) (VStr (text message))) |}.

(* ================================================================== *)
(** ** Constants of the statements and sample inputs *)
(* ================================================================== *)

Definition default_apiUrl : string := "https://engine.lingo.dev".

Definition config_zero_batch : PartialEngineParams :=
  {| p_apiKey := Some "test-key";
     p_apiUrl := None;
     p_batchSize := Some 0%Z;
     p_idealBatchItemSize := Some (-3)%Z |}.

Definition config_only_key : PartialEngineParams :=
  {| p_apiKey := Some "test-key";
     p_apiUrl := None;
     p_batchSize := None;
     p_idealBatchItemSize := None |}.

Definition server_error_message (res : Response) (detail : string) : string :=
  "Server error (" ++ Z_to_string (status res) ++ "): " ++ statusText res
  ++ detail ++ ". This may be due to temporary service issues.".

(** A remote end that answers every request with [res]. *)
Definition constant_remote (res : Response) : Env :=
  {| remote := fun _ _ => Resolved res; createId := "k3v9x1m7q2zt" |}.

Definition test_config : EngineParams :=
  {| apiKey := "test-key"; apiUrl := default_apiUrl;
     batchSize := 25; idealBatchItemSize := 250 |}.

Definition en_es : LocalizationParams :=
  {| sourceLocale := Some "en"; targetLocale := "es";
     fast := None; reference := None; hints := None |}.

Definition res_500 : Response :=
  {| status := 500; statusText := "Internal Server Error";
     res_text := "Server Error";
     res_json := JsonFail "Unexpected token S in JSON at position 0" |}.

(** HTTP 200 with the body [{"error":""}]. *)
Definition res_empty_error : Response :=
  {| status := 200; statusText := "OK";
     res_text := "{" ++ dquote ++ "error" ++ dquote ++ ":" ++ dquote ++ dquote ++ "}";
     res_json := JsonOk (VObj [("error", VStr "")]) |}.

Definition res_user : Response :=
  {| status := 200; statusText := "OK";
     res_text := "{email:test@example.com,id:user123}";
     res_json := JsonOk (VObj [("email", VStr "test@example.com");
                               ("id", VStr "user123")]) |}.

Definition payload_trailing_number : obj :=
  [("title", VStr "Hello world"); ("count", VNum 3)].

(** The object of the README's "Object Translation" example. *)
Definition ui_strings : obj :=
  [("welcome", VStr "Welcome to our app");
   ("buttons", VObj [("save", VStr "Save"); ("cancel", VStr "Cancel");
                     ("delete", VStr "Delete")]);
   ("messages", VObj [("success", VStr "Operation completed successfully");
                      ("error", VStr "An error occurred")])].

Definition payload_leading_number : obj :=
  [("count", VNum 3); ("title", VStr "Hello world")].

Definition chat_of_three : list ChatMessage :=
  [{| name := "Alice"; text := "Hello everyone" |};
   {| name := "Bob"; text := "How are you doing?" |};
   {| name := "Charlie"; text := "Great to see you" |}].

Definition chat_of_two : list ChatMessage :=
  [{| name := "Alice"; text := "Hello" |};
   {| name := "Bob"; text := "Goodbye" |}].

(** HTTP 200 with the body [{"data":{"chat_1":"Adios","chat_0":"Hola"}}]. *)
Definition res_chat_reversed : Response :=
  {| status := 200; statusText := "OK";
     res_text := "{" ++ dquote ++ "data" ++ dquote ++ ":{"
                 ++ dquote ++ "chat_1" ++ dquote ++ ":" ++ dquote ++ "Adios" ++ dquote ++ ","
                 ++ dquote ++ "chat_0" ++ dquote ++ ":" ++ dquote ++ "Hola" ++ dquote ++ "}}";
     res_json := JsonOk (VObj [("data", VObj [("chat_1", VStr "Adios");
                                              ("chat_0", VStr "Hola")])]) |}.


Definition nl : string := String (ascii_of_nat 10) EmptyString.

Definition html_with_script : string :=
  "<html><body><p>data</p><script>let data = 1;</script></body></html>".

Definition html_with_lang : string :=
  ("<html lang=" ++ dquote ++ "en" ++ dquote ++ "><body><p>Hello</p></body></html>")%string.

(** The document of the test "localizeHtml" of [tests/mod.test.ts]. *)
Definition test_html : string :=
  ("<!DOCTYPE html>" ++ nl ++
   "<html>" ++ nl ++
   "  <head>" ++ nl ++
   "    <title>Test Page</title>" ++ nl ++
   "    <meta name=" ++ dquote ++ "description" ++ dquote ++ " content=" ++ dquote ++ "Page description" ++ dquote ++ ">" ++ nl ++
   "  </head>" ++ nl ++
   "  <body>" ++ nl ++
   "    standalone text" ++ nl ++
   "    <div>" ++ nl ++
   "      <h1>Hello World</h1>" ++ nl ++
   "      <p>" ++ nl ++
   "        This is a paragraph with" ++ nl ++
   "        <a href=" ++ dquote ++ "/test" ++ dquote ++ " title=" ++ dquote ++ "Link title" ++ dquote ++ ">a link</a>" ++ nl ++
   "        and an" ++ nl ++
   "        <img src=" ++ dquote ++ "/test.jpg" ++ dquote ++ " alt=" ++ dquote ++ "Test image" ++ dquote ++ ">" ++ nl ++
   "        and some <b>bold <i>and italic</i></b> text." ++ nl ++
   "      </p>" ++ nl ++
   "      <script>" ++ nl ++
   "        const doNotTranslate = " ++ dquote ++ "this text should be ignored" ++ dquote ++ ";" ++ nl ++
   "      </script>" ++ nl ++
   "      <input type=" ++ dquote ++ "text" ++ dquote ++ " placeholder=" ++ dquote ++ "Enter text" ++ dquote ++ ">" ++ nl ++
   "    </div>" ++ nl ++
   "  </body>" ++ nl ++
   "</html>")%string.

(** The answer the test stubs [fetch] with. *)
Definition test_html_response : Response :=
  {| status := 200; statusText := EmptyString; res_text := EmptyString;
     res_json := JsonOk (VObj [("data", VObj [
       ("text_0", VStr "ES:Test Page");
       ("text_1", VStr "ES:standalone text");
       ("text_2", VStr "ES:Hello World");
       ("text_3", VStr "ES:This is a paragraph with");
       ("text_4", VStr "ES:a link");
       ("text_5", VStr "ES:and an");
       ("text_6", VStr "ES:and some");
       ("text_7", VStr "ES:bold");
       ("text_8", VStr "ES:and italic");
       ("text_9", VStr "ES:text.");
       ("attr_0_10", VStr "ES:Link title");
       ("attr_1_11", VStr "ES:Test image");
       ("attr_2_12", VStr "ES:Enter text");
       ("attr_3_13", VStr "ES:Page description")])]) |}.

(** A document as the host parses it: a script element among the children of
    a [div]. *)
Definition parsed_sample : document :=
  {| documentElement_attributes := [];
     head := Some (ElementNode "head" []
               [ElementNode "title" [] [TextNode "Test Page"];
                TextNode " ";
                ElementNode "meta" [("name", "description");
                                    ("content", "Page description")] []]);
     body := Some (ElementNode "body" []
               [TextNode " standalone ";
                ElementNode "div" []
                  [ElementNode "script" [] [TextNode "let data = 1;"];
                   ElementNode "p" []
                     [TextNode "data";
                      ElementNode "img" [("alt", "A picture")] []]]]) |}.

(** *** Statements about the request log *)

Definition fast_flag (params : LocalizationParams) : bool :=
  match fast params with Some true => true | _ => false end.

Definition chunk_request (env : Env) (config : EngineParams)
           (params : LocalizationParams) (chunk : obj) : Request :=
  i18n_request config (sourceLocale params) (targetLocale params) chunk
               (reference params) (hints params) (createId env)
               (fast_flag params).

Definition three_strings : obj :=
  [("greeting", VStr "Hello"); ("farewell", VStr "Goodbye");
   ("question", VStr "How are you?")].

Definition config_batch_of_two : EngineParams :=
  {| apiKey := "test-key"; apiUrl := "https://engine.lingo.dev";
     batchSize := 2; idealBatchItemSize := 250 |}.

Definition no_target : LocalizationParams :=
  {| sourceLocale := Some "en"; targetLocale := EmptyString;
     fast := None; reference := None; hints := None |}.


(** *** Statements about [localizeText] and [batchLocalizeText] *)

(** The payload [localizeText] makes of its text. *)
Definition text_chunk (text : string) : obj := [("text", VStr text)].

(** The parameters [batchLocalizeText] gives [localizeText] for a locale. *)
Definition batch_params (sourceLocale : string) (fast : option bool)
           (targetLocale : string) : LocalizationParams :=
  {| sourceLocale := Some sourceLocale;
     targetLocale := targetLocale;
     fast := fast;
     reference := None;
     hints := None |}.

(** A thousand-word budget of one: thresholds that split everything they
    can. *)
Definition config_smallest : EngineParams :=
  {| apiKey := "test-key"; apiUrl := "https://engine.lingo.dev";
     batchSize := 1; idealBatchItemSize := 1 |}.

Definition res_hola : Response :=
  {| status := 200; statusText := "OK"; res_text := EmptyString;
     res_json := JsonOk (VObj [("data", VObj [("text", VStr "Hola mundo")])]) |}.

(** A remote end that is down for the second request of a run only. *)
Definition second_fails : Env :=
  {| remote := fun n _ => if (n =? 1)%nat then Resolved res_500
                          else Resolved res_hola;
     createId := "workflow0001" |}.

Definition batch_ids (k : nat) : string := "workflow-" ++ nat_to_string k.

(** *** Statements about the deprecated classes *)

Definition run_constructions (calls : list (EngineClass * PartialEngineParams))
  : ClassState :=
  fold_left construct calls initial_classes.

(** The call constructs an engine of the class [c]. *)
Definition constructs (c : EngineClass)
           (call : EngineClass * PartialEngineParams) : bool :=
  match fst call, c with
  | Replexica, Replexica | Lingo, Lingo | LingoDotDev, LingoDotDev =>
      match LingoDotDevEngine (snd call) with Ok _ => true | Throw _ => false end
  | _, _ => false
  end.

Definition with_key (key : string) : PartialEngineParams :=
  {| p_apiKey := Some key; p_apiUrl := None;
     p_batchSize := None; p_idealBatchItemSize := None |}.

Definition without_key : PartialEngineParams :=
  {| p_apiKey := None; p_apiUrl := None;
     p_batchSize := None; p_idealBatchItemSize := None |}.

(** *** Statements about [createId] *)

Definition sample_draws (i : nat) : nat := (7 * i + 3) mod 62.

(** *** Statements about the Chunker and the synthesized keys *)

(** The word budget of a chunk, [this.config.idealBatchItemSize || 250] *)
Definition word_budget (config : EngineParams) : Z :=
  or_default (idealBatchItemSize config) 250.

(** The key [localizeStringArray] synthesizes for the string at index [i]. *)
Definition item_key (i : nat) : string := "item_" ++ nat_to_string i.

Definition mixed_payload : obj :=
  [("title", VStr "Hello world"); ("count", VNum 3);
   ("nested", VObj [("inner", VStr "skipped")]);
   ("subtitle", VStr "one two three"); ("footer", VStr "bye")].

Definition config_two_words : EngineParams :=
  {| apiKey := "test-key"; apiUrl := "https://engine.lingo.dev";
     batchSize := 25; idealBatchItemSize := 2 |}.

(** *** Statements about the edge function *)

(** The parameters the handler gives the engine. *)
Definition request_params (requestData : TranslationRequest)
  : LocalizationParams :=
  {| sourceLocale := r_sourceLocale requestData;
     targetLocale := r_targetLocale requestData;
     fast := None; reference := None; hints := None |}.

Definition known_types : list string :=
  ["text"; "object"; "chat"; "html"; "detect"].

Definition nonempty (x : option string) : bool :=
  match x with Some (String _ _) => true | _ => false end.

Definition present {A : Type} (x : option A) : bool :=
  match x with Some _ => true | None => false end.

(** The request names a known type and carries the input of that type. *)
Definition input_present (requestData : TranslationRequest) : bool :=
  let type := r_type requestData in
  if (type =? "text") || (type =? "detect") then nonempty (r_text requestData)
  else if type =? "object" then present (r_object requestData)
  else if type =? "chat" then present (r_chat requestData)
  else if type =? "html" then nonempty (r_html requestData)
  else false.

Definition handler_statuses : list Z := [200; 400; 405; 408; 500; 502]%Z.

Definition res_bad_request : Response :=
  {| status := 400; statusText := "Bad Request"; res_text := "bad input";
     res_json := JsonFail "Unexpected token" |}.

Definition text_request : TranslationRequest :=
  {| r_text := Some "Hello, world!"; r_object := None; r_chat := None;
     r_html := None; r_sourceLocale := Some "en"; r_targetLocale := "es";
     r_type := "text" |}.

Definition detect_request : TranslationRequest :=
  {| r_text := Some "Hello, world!"; r_object := None; r_chat := None;
     r_html := None; r_sourceLocale := None; r_targetLocale := EmptyString;
     r_type := "detect" |}.

Definition chat_without_input : TranslationRequest :=
  {| r_text := Some "Hello, world!"; r_object := None; r_chat := None;
     r_html := None; r_sourceLocale := Some "en"; r_targetLocale := "es";
     r_type := "chat" |}.

(** A remote end whose requests are aborted. *)
Definition aborting_remote : Env :=
  {| remote := fun _ _ =>
       Rejected (ThrownError "AbortError" "The signal has been aborted");
     createId := "k3v9x1m7q2zt" |}.

(** *** Statements about [localizeHtml] *)

Fixpoint has_char (c : ascii) (s : string) : bool :=
  match s with
  | EmptyString => false
  | String c' r => (c' =? c)%char || has_char c r
  end.

(** A remote end that answers every chunk with status 2xx and an empty
    [data] mapping: it translates nothing. *)
Definition answers_nothing (env : Env) : Prop :=
  forall n req, exists res body,
    remote env n req = Resolved res /\ ok res = true /\
    res_json res = JsonOk body /\ is_nullish body = false /\
    get_prop "data" body = VObj [].

Definition res_empty_data : Response :=
  {| status := 200; statusText := "OK"; res_text := EmptyString;
     res_json := JsonOk (VObj [("data", VObj [])]) |}.

Definition doctype : string := "<!DOCTYPE html>" ++ nl.

Definition sample_host : DomHost :=
  {| parseFromString := fun _ =>
       {| documentElement_attributes := [("lang", "en"); ("dir", "ltr")];
          head := Some (ElementNode "head" []
                          [ElementNode "title" [] [TextNode "Hello"]]);
          body := Some (ElementNode "body" [] [TextNode "world"]) |};
     outerHTML := fun doc =>
       match getAttribute "lang" (documentElement_attributes doc) with
       | Some lang => ("<html lang=" ++ lang ++ ">")%string
       | None => "<html>"
       end |}.

Definition res_locale : Response :=
  {| status := 200; statusText := "OK"; res_text := EmptyString;
     res_json := JsonOk (VObj [("locale", VStr "fr")]) |}.

(** *** Statements about the paths of the structural branch *)

(** The node reached from [n] by taking, at each level, the child at the
    given position among the significant children; with it, the raw
    positions on the way. *)
Fixpoint follow (n : node) (idxs : list nat) : option (list nat * node) :=
  match idxs with
  | [] => Some ([], n)
  | i :: rest =>
      match nth_error (significant_children (children_of n) 0) i with
      | Some (raw, child) =>
          option_map (fun found : list nat * node => (raw :: fst found, snd found))
                     (follow child rest)
      | None => None
      end
  end.

(** The path [getPath] gives the node at the positions [idxs] below the
    root named [root]. *)
Definition path_of (root : string) (idxs : list nat) : string :=
  fold_left (fun path i => (path ++ "/" ++ nat_to_string i)%string) idxs root.

(** The document with [root] written where it was read from. *)
Definition put_root (in_head : bool) (doc : document) (root : node) : document :=
  if in_head then
    {| documentElement_attributes := documentElement_attributes doc;
       head := Some root;
       body := body doc |}
  else
    {| documentElement_attributes := documentElement_attributes doc;
       head := head doc;
       body := Some root |}.

(** [root] is the head ([in_head]) or the body of the document, under the
    name the host gives it. *)
Definition root_of (in_head : bool) (doc : document) (root : node) : Prop :=
  if in_head then head doc = Some root /\ node_name root = "head"
  else body doc = Some root /\ node_name root = "body".

(** The path, written from the root on. *)
Fixpoint path_suffix (idxs : list nat) : string :=
  match idxs with
  | [] => EmptyString
  | i :: rest => ("/" ++ nat_to_string i ++ path_suffix rest)%string
  end.

(** The loop over the children of an element or of a root, as [processNode]
    and [process_top] have it ([process_children_each] and
    [process_children_top] state the two cases). *)
Fixpoint process_children (blocked : bool) (path : string) (l : list node)
         (i : nat) (acc : obj) : result obj :=
  match l with
  | [] => Ok acc
  | child :: rest =>
      if significant child then
        match processNode blocked (path ++ "/" ++ nat_to_string i)%string
                          child acc with
        | Ok acc' => process_children blocked path rest (S i) acc'
        | Throw e => Throw e
        end
      else process_children blocked path rest i acc
  end.

(** A script or style element *)
Definition unlocalizable (n : node) : bool :=
  match n with
  | ElementNode tagName _ _ => existsb (String.eqb tagName) UNLOCALIZABLE_TAGS
  | _ => false
  end.

(** The way from [n] along [idxs] enters no script or style element. *)
Fixpoint open_path (n : node) (idxs : list nat) : bool :=
  match idxs with
  | [] => true
  | i :: rest =>
      match nth_error (significant_children (children_of n) 0) i with
      | Some (_, child) =>
          match rest with
          | [] => true
          | _ :: _ => negb (unlocalizable child)
          end && open_path child rest
      | None => true
      end
  end.

(** What the extraction records for the node [target] met under [path]:
    the trimmed text of a text node that is not blank, or a non-empty
    localizable attribute of an element. *)
Definition entry_of (path : string) (target : node) (kv : string * value)
  : Prop :=
  match target with
  | TextNode data => kv = (path, VStr (trim data)) /\ trim data <> ""
  | ElementNode tagName attrs _ =>
      exists attribute value names,
        localizable_attributes tagName = Some names /\
        In attribute names /\
        getAttribute attribute attrs = Some value /\
        value <> "" /\
        kv = ((path ++ "#" ++ attribute)%string, VStr value)
  | OtherNode => False
  end.

(** What [processNode] adds for a node is recorded for a node below it that
    the path leads to. *)
Definition adds_entries_below (n : node) : Prop :=
  forall (blocked : bool) (path : string) (acc acc' : obj)
         (kv : string * value),
    processNode blocked path n acc = Ok acc' ->
    In kv acc' ->
    In kv acc \/
    (blocked = false /\
     exists idxs address target,
       follow n idxs = Some (address, target) /\
       entry_of (path_of path idxs) target kv /\
       open_path n idxs = true /\
       (idxs <> [] -> unlocalizable n = false)).

(** The node at raw positions below [n]. *)
Fixpoint node_at (address : list nat) (n : node) : option node :=
  match address with
  | [] => Some n
  | i :: rest =>
      match nth_error (children_of n) i with
      | Some child => node_at rest child
      | None => None
      end
  end.

(** The head and the body carry the names the host gives them. *)
Definition named_roots (doc : document) : Prop :=
  (forall h, head doc = Some h -> node_name h = "head") /\
  (forall b, body doc = Some b -> node_name b = "body").

Definition payload_without_strings : obj :=
  [("count", VNum 3); ("enabled", VBool true);
   ("buttons", VObj [("save", VStr "Save"); ("cancel", VStr "Cancel")]);
   ("tags", VArr [VStr "a"; VStr "b"])].

(* ================================================================== *)
(** ** Word-Counter: proofs *)
(* ================================================================== *)

Section ValueInduction.
Variable P : value -> Prop.
Hypothesis Hundef : P VUndefined.
Hypothesis Hnull : P VNull.
Hypothesis Hbool : forall b, P (VBool b).
Hypothesis Hnum : forall n, P (VNum n).
Hypothesis Hstr : forall s, P (VStr s).
Hypothesis Harr : forall items, Forall P items -> P (VArr items).
Hypothesis Hobj : forall props, Forall (fun kv => P (snd kv)) props -> P (VObj props).

Fixpoint value_nested_ind (v : value) : P v :=
  match v with
  | VUndefined => Hundef
  | VNull => Hnull
  | VBool b => Hbool b
  | VNum n => Hnum n
  | VStr s => Hstr s
  | VArr items =>
      Harr items
        ((fix go (l : list value) : Forall P l :=
            match l with
            | [] => Forall_nil P
            | x :: r => Forall_cons x (value_nested_ind x) (go r)
            end) items)
  | VObj props =>
      Hobj props
        ((fix go (l : list (string * value)) : Forall (fun kv => P (snd kv)) l :=
            match l with
            | [] => Forall_nil _
            | kv :: r => Forall_cons kv (value_nested_ind (snd kv)) (go r)
            end) props)
  end.
End ValueInduction.

Lemma token_starts_true_head (s : string) :
  token_starts true s =
  (match s with
   | String c _ => if is_ws c then 0 else 1
   | EmptyString => 0
   end + token_starts false s)%nat.
Proof.
  destruct s as [|c r]; simpl; [reflexivity|].
  destruct (is_ws c); reflexivity.
Qed.

Lemma split_ws_from_count (s : string) :
  length (filter_Boolean (split_ws_from true s)) = token_starts true s /\
  exists h t,
    split_ws_from false s = h :: t /\
    length (filter_Boolean t) = token_starts false s /\
    (if (h =? "")%string then 0 else 1)%nat =
    match s with
    | String c _ => if is_ws c then 0 else 1
    | EmptyString => 0
    end.
Proof.
  induction s as [|c r [IH1 (h & t & IH2 & IH3 & IH4)]]; simpl.
  - split; [reflexivity|]. exists EmptyString, []. repeat split.
  - destruct (is_ws c) eqn:Hc.
    + split; [exact IH1|].
      exists EmptyString, (split_ws_from true r). repeat split. exact IH1.
    + rewrite IH2. split.
      * simpl. now rewrite IH3.
      * exists (String c h), t. repeat split. exact IH3.
Qed.

Lemma split_ws_count (s : string) :
  length (filter_Boolean (split_ws s)) = token_starts true s.
Proof.
  destruct (split_ws_from_count s) as [_ (h & t & E & Ht & Hh)].
  unfold split_ws. rewrite E, token_starts_true_head, <- Ht, <- Hh.
  simpl. destruct (h =? ""); reflexivity.
Qed.

Lemma token_starts_trimStart (s : string) :
  token_starts true (trimStart s) = token_starts true s.
Proof.
  induction s as [|c r IH]; simpl; [reflexivity|].
  destruct (is_ws c) eqn:Hc; [exact IH|].
  simpl. now rewrite Hc.
Qed.

Lemma token_starts_trimEnd (s : string) (b : bool) :
  token_starts b (trimEnd s) = token_starts b s.
Proof.
  revert b. induction s as [|c r IH]; intro b; simpl; [reflexivity|].
  destruct (is_ws c) eqn:Hc; simpl.
  - destruct (trimEnd r =? "") eqn:E.
    + apply String.eqb_eq in E. rewrite <- IH, E. reflexivity.
    + simpl. rewrite Hc. apply IH.
  - rewrite Hc. now rewrite IH.
Qed.

(** The expression [s.trim().split(/\s+/).filter(Boolean).length] counts the
    tokens of [s]. *)
Lemma string_word_count (s : string) :
  length (filter_Boolean (split_ws (trim s))) = word_tokens s.
Proof.
  unfold trim, word_tokens.
  now rewrite split_ws_count, token_starts_trimEnd, token_starts_trimStart.
Qed.

Lemma reduce_sum {A : Type} (f : A -> Z) (l : list A) (init : Z) :
  reduce (fun acc x => acc + f x)%Z init l = (init + fold_right Z.add 0 (map f l))%Z.
Proof.
  unfold reduce. revert init.
  induction l as [|x r IH]; intro init; simpl; [lia|].
  rewrite IH. lia.
Qed.

Lemma list_sum_app_Z (l1 l2 : list nat) :
  Z.of_nat (list_sum (l1 ++ l2)) = (Z.of_nat (list_sum l1) + Z.of_nat (list_sum l2))%Z.
Proof. rewrite list_sum_app. lia. Qed.

Lemma countWordsInRecord_values (props : obj) :
  countWordsInRecord (VObj props)
  = reduce (fun acc item => acc + countWordsInRecord item)%Z 0%Z
           (Object_values props).
Proof.
  simpl. unfold reduce, Object_values. generalize 0%Z.
  induction props as [|kv r IH]; intros init; simpl; [reflexivity | apply IH].
Qed.

Lemma all_ws_token_end (sep : string) : all_ws sep = true -> token_end sep.
Proof.
  destruct sep as [|c r]; simpl; [trivial|].
  intros H. now apply andb_true_iff in H.
Qed.

(** Every string has a tokenization. *)
Lemma tokenized_exists (s : string) : exists tokens, tokenized s tokens.
Proof.
  induction s as [|c r [tokens IH]].
  - exists []. now constructor.
  - destruct (is_ws c) eqn:Hc.
    + exists tokens. inversion IH as [sep Hsep|sep token rest ts Hsep Hne Hfree Hend Hrest]; subst.
      * constructor. simpl. now rewrite Hc.
      * change (tokenized (String c sep ++ token ++ rest) (token :: ts)).
        constructor; try assumption. simpl. now rewrite Hc.
    + inversion IH as [sep Hsep|sep token rest ts Hsep Hne Hfree Hend Hrest]; subst.
      * exists [String c EmptyString].
        change (tokenized (EmptyString ++ String c EmptyString ++ r)
                          [String c EmptyString]).
        constructor; try reflexivity; try discriminate.
        -- simpl. now rewrite Hc.
        -- now apply all_ws_token_end.
        -- now constructor.
      * destruct sep as [|d sep'].
        -- exists (String c token :: ts).
           change (tokenized (EmptyString ++ String c token ++ rest)
                             (String c token :: ts)).
           constructor; try assumption; try reflexivity; try discriminate.
           simpl. now rewrite Hc, Hfree.
        -- exists (String c EmptyString :: token :: ts).
           change (tokenized (EmptyString ++ String c EmptyString
                              ++ (String d sep' ++ token ++ rest))
                             (String c EmptyString :: token :: ts)).
           constructor; try reflexivity; try discriminate.
           ++ simpl. now rewrite Hc.
           ++ simpl. simpl in Hsep. now apply andb_true_iff in Hsep.
           ++ now constructor.
Qed.

Lemma token_starts_skip_ws (sep s : string) (b : bool) :
  all_ws sep = true -> sep <> EmptyString \/ b = true ->
  token_starts b (sep ++ s) = token_starts true s.
Proof.
  revert b. induction sep as [|c r IH]; intros b Hsep Hb; simpl.
  - destruct Hb as [Hb|Hb]; [congruence | now subst].
  - simpl in Hsep. apply andb_true_iff in Hsep. destruct Hsep as [Hc Hr].
    rewrite Hc. apply IH; auto.
Qed.

Lemma token_starts_inside (token rest : string) :
  ws_free token = true -> token_end rest ->
  token_starts false (token ++ rest) = token_starts true rest.
Proof.
  induction token as [|c r IH]; simpl; intros Hfree Hend.
  - destruct rest as [|d rest']; simpl in *; [reflexivity|].
    now rewrite Hend.
  - apply andb_true_iff in Hfree. destruct Hfree as [Hc Hr].
    apply negb_true_iff in Hc. rewrite Hc. now apply IH.
Qed.

(** Every tokenization of a string has [word_tokens] tokens. *)
Lemma tokenized_count (s : string) (tokens : list string) :
  tokenized s tokens -> length tokens = word_tokens s.
Proof.
  unfold word_tokens.
  induction 1 as [sep Hsep|sep token rest ts Hsep Hne Hfree Hend _ IH].
  - induction sep as [|c r IHsep]; simpl in *; [reflexivity|].
    apply andb_true_iff in Hsep. destruct Hsep as [Hc Hr].
    rewrite Hc. now apply IHsep.
  - rewrite token_starts_skip_ws by auto.
    destruct token as [|c token']; [congruence|].
    simpl in *. apply andb_true_iff in Hfree. destruct Hfree as [Hc Hr].
    apply negb_true_iff in Hc. rewrite Hc.
    now rewrite token_starts_inside, IH.
Qed.

(** C6. [countWordsInRecord] is total (a function of the embedding) and
    returns the sum, over the leaf strings reachable through nested arrays
    and string-keyed mappings, of the number of maximal
    whitespace-delimited non-empty tokens of each; every other leaf
    contributes zero.  The number of tokens of a string is [word_tokens]:
    every string has a tokenization, of that many tokens. *)
Theorem countWordsInRecord_sum_of_leaves (payload : value) :
  countWordsInRecord payload =
  Z.of_nat (list_sum (map word_tokens (leaf_strings payload))) /\
  (forall s, exists tokens,
      tokenized s tokens /\ length tokens = word_tokens s).
Proof.
  split.
  - induction payload as [ | | b | n | s | items IH | props IH ]
      using value_nested_ind; try reflexivity.
    + simpl. rewrite string_word_count. lia.
    + simpl. rewrite reduce_sum. simpl.
      induction IH as [|x r Hx _ IHr]; simpl; [reflexivity|].
      rewrite map_app, list_sum_app_Z, <- Hx, <- IHr. reflexivity.
    + simpl. rewrite reduce_sum. simpl.
      induction IH as [|x r Hx _ IHr]; simpl; [reflexivity|].
      rewrite map_app, list_sum_app_Z, <- Hx, <- IHr. reflexivity.
  - intros s. destruct (tokenized_exists s) as [tokens Ht].
    exists tokens. split; [exact Ht | now apply tokenized_count].
Qed.

(* ================================================================== *)
(** ** Configuration: proofs *)
(* ================================================================== *)

(** C7, as the code has it.  An engine is constructed exactly when [apiKey]
    is present and non-empty, and construction is a pure function (nothing
    is requested).  The config keeps the key, takes [apiUrl], [batchSize] and
    [idealBatchItemSize] from the argument when they are given and the
    defaults (the production endpoint, 25, 250) when they are omitted; the
    given numbers are not range-checked, so each is at least 1 when the
    caller's value is. *)
Theorem engine_config_defaults (config : PartialEngineParams) :
  ((exists cfg, LingoDotDevEngine config = Ok cfg) <->
   (exists key, p_apiKey config = Some key /\ key <> "")) /\
  ((forall cfg, LingoDotDevEngine config <> Ok cfg) ->
   LingoDotDevEngine config = Throw (Error "apiKey is required")) /\
  (forall cfg, LingoDotDevEngine config = Ok cfg ->
     p_apiKey config = Some (apiKey cfg) /\
     apiUrl cfg = match p_apiUrl config with
                  | Some url => url | None => default_apiUrl end /\
     batchSize cfg = match p_batchSize config with
                     | Some n => n | None => 25%Z end /\
     idealBatchItemSize cfg = match p_idealBatchItemSize config with
                              | Some n => n | None => 250%Z end /\
     ((forall n, p_batchSize config = Some n -> (1 <= n)%Z) ->
      (1 <= batchSize cfg)%Z) /\
     ((forall n, p_idealBatchItemSize config = Some n -> (1 <= n)%Z) ->
      (1 <= idealBatchItemSize cfg)%Z)).
Proof.
  unfold LingoDotDevEngine, validateEngineParams.
  destruct config as [[[|c key]|] url bs ibs]; simpl;
    (split; [split | split]).
  - intros [cfg H]. discriminate.
  - intros (key & H & Hne). inversion H. subst. congruence.
  - reflexivity.
  - intros cfg H. discriminate.
  - intros _. eexists. split; [reflexivity | discriminate].
  - intros _. eexists. reflexivity.
  - intros H. exfalso. eapply H. reflexivity.
  - intros cfg H. inversion H. subst. clear H. simpl.
    split; [reflexivity|]. split; [reflexivity|].
    split; [reflexivity|]. split; [reflexivity|]. split.
    + intros Hb. destruct bs; simpl; [now apply Hb | lia].
    + intros Hb. destruct ibs; simpl; [now apply Hb | lia].
  - intros [cfg H]. discriminate.
  - intros (key & H & Hne). discriminate.
  - reflexivity.
  - intros cfg H. discriminate.
Qed.

(** C7, counterexample: a config with [batchSize: 0] and
    [idealBatchItemSize: -3] is accepted and kept as it is. *)
Lemma engine_config_range_unchecked :
  exists cfg,
    LingoDotDevEngine config_zero_batch = Ok cfg /\
    ~ (1 <= batchSize cfg)%Z /\ ~ (1 <= idealBatchItemSize cfg)%Z.
Proof.
  eexists. split; [reflexivity|]. simpl. split; lia.
Qed.

Lemma engine_config_defaults_witness :
  exists cfg,
    LingoDotDevEngine config_only_key = Ok cfg /\
    apiUrl cfg = default_apiUrl /\
    (1 <= batchSize cfg)%Z /\ (1 <= idealBatchItemSize cfg)%Z.
Proof.
  destruct (engine_config_defaults config_only_key) as (Hiff & _ & Hcfg).
  destruct (proj2 Hiff) as [cfg Hc].
  - exists "test-key". split; [reflexivity | discriminate].
  - exists cfg. split; [exact Hc|].
    destruct (Hcfg cfg Hc) as (_ & Hurl & _ & _ & Hb & Hi).
    split; [exact Hurl|]. split.
    + apply Hb. simpl. discriminate.
    + apply Hi. simpl. discriminate.
Defined.

(* ================================================================== *)
(** ** Chunk Translator Client: proofs *)
(* ================================================================== *)

Lemma ok_false_of_5xx (res : Response) :
  (500 <= status res <= 599)%Z -> ok res = false.
Proof. unfold ok. lia. Qed.

Lemma ok_false_of_400 (res : Response) :
  status res = 400%Z -> ok res = false.
Proof. unfold ok. lia. Qed.

(** The outcome of [localizeChunk] on a 2xx answer whose body parses to a
    value other than [null]. *)
Lemma localizeChunk_ok_body
      (env : Env) (config : EngineParams) (src : option string) (tgt : string)
      (data : obj) (ref hnt : option value) (wid : string) (fast_mode : bool)
      (log : list Request) (res : Response) (body : value) :
  remote env (length log) (i18n_request config src tgt data ref hnt wid fast_mode)
  = Resolved res ->
  ok res = true -> res_json res = JsonOk body -> is_nullish body = false ->
  localizeChunk env config src tgt data ref hnt wid fast_mode log =
  (if negb (truthy (get_prop "data" body)) && truthy (get_prop "error" body)
   then Throw (new_Error (get_prop "error" body))
   else Ok (if truthy (get_prop "data" body)
            then get_prop "data" body else VObj []),
   log ++ [i18n_request config src tgt data ref hnt wid fast_mode]).
Proof.
  intros Hres Hok Hbody Hnn.
  unfold localizeChunk, bind, fetch, json, read_prop, ret, throw.
  rewrite Hres, Hok, Hbody. cbn [negb]. cbv iota beta. rewrite Hnn.
  destruct (negb (truthy (get_prop "data" body)) && truthy (get_prop "error" body));
    reflexivity.
Qed.

(** C5, as the code has it.  When the request of a chunk is answered with
    status [s]: a status in 500..599 fails with the server error carrying the
    status code, the status text and the body text; 400 fails with the
    invalid-request error carrying the status text; any other status outside
    200..299 fails with the raw body text as message.  A 2xx answer whose
    body has an absent or falsy [data] fails with the [error] field as
    message when that field is truthy (a non-empty string, for one), and is
    accepted as the empty mapping when [error] is absent or falsy. *)
Theorem localizeChunk_status_errors
        (env : Env) (config : EngineParams) (src : option string) (tgt : string)
        (data : obj) (ref hnt : option value) (wid : string) (fast_mode : bool)
        (log : list Request) (res : Response) :
  remote env (length log) (i18n_request config src tgt data ref hnt wid fast_mode)
  = Resolved res ->
  let outcome := fst (localizeChunk env config src tgt data ref hnt wid fast_mode log) in
  ((500 <= status res <= 599)%Z ->
   outcome = Throw (Error (server_error_message res (". " ++ res_text res)))) /\
  (status res = 400%Z ->
   outcome = Throw (Error ("Invalid request: " ++ statusText res))) /\
  (ok res = false -> ~ (500 <= status res <= 599)%Z -> status res <> 400%Z ->
   outcome = Throw (Error (res_text res))) /\
  (ok res = true ->
   forall body, res_json res = JsonOk body -> is_nullish body = false ->
     truthy (get_prop "data" body) = false ->
     (forall message, get_prop "error" body = VStr message -> message <> "" ->
        outcome = Throw (Error message)) /\
     (truthy (get_prop "error" body) = true ->
        outcome = Throw (new_Error (get_prop "error" body))) /\
     (truthy (get_prop "error" body) = false -> outcome = Ok (VObj []))).
Proof.
  intros Hres outcome. subst outcome.
  split; [|split; [|split]].
  - intros H5. unfold localizeChunk, bind, fetch.
    rewrite Hres, (ok_false_of_5xx res H5). simpl.
    replace ((500 <=? status res) && (status res <? 600))%Z with true by lia.
    reflexivity.
  - intros H4. unfold localizeChunk, bind, fetch.
    rewrite Hres, (ok_false_of_400 res H4). simpl.
    replace ((500 <=? status res) && (status res <? 600))%Z with false by lia.
    replace (status res =? 400)%Z with true by lia.
    reflexivity.
  - intros Hok H5 H4. unfold localizeChunk, bind, fetch.
    rewrite Hres, Hok. simpl.
    replace ((500 <=? status res) && (status res <? 600))%Z with false by lia.
    replace (status res =? 400)%Z with false by lia.
    reflexivity.
  - intros Hok body Hbody Hnn Hdata.
    rewrite (localizeChunk_ok_body env config src tgt data ref hnt wid
               fast_mode log res body Hres Hok Hbody Hnn), Hdata.
    simpl. split; [|split].
    + intros message Hm Hne. rewrite Hm. simpl.
      destruct message; [congruence | reflexivity].
    + intros He. rewrite He. reflexivity.
    + intros He. rewrite He. reflexivity.
Qed.

Lemma localizeChunk_status_errors_witness :
  fst (localizeChunk (constant_remote res_500) test_config (Some "en") "es"
                     [("text", VStr "Hello")] None None "k3v9x1m7q2zt" false [])
  = Throw (Error "Server error (500): Internal Server Error. Server Error. This may be due to temporary service issues.").
Proof.
  apply (proj1 (localizeChunk_status_errors
                  (constant_remote res_500) test_config (Some "en") "es"
                  [("text", VStr "Hello")] None None "k3v9x1m7q2zt" false []
                  res_500 eq_refl)).
  simpl. lia.
Defined.

(** C5, counterexample: a 200 answer whose body [{"error":""}] has no [data]
    field and has an [error] field does not fail; the chunk is answered with
    the empty mapping. *)
Lemma localizeChunk_empty_error_accepted :
  ok res_empty_error = true /\
  (exists body, res_json res_empty_error = JsonOk (VObj body) /\
                get_own "data" body = None /\
                get_own "error" body = Some (VStr "")) /\
  fst (localizeChunk (constant_remote res_empty_error) test_config (Some "en") "es"
                     [("text", VStr "Hello")] None None "k3v9x1m7q2zt" false [])
  = Ok (VObj []).
Proof.
  split; [reflexivity|]. split; [|reflexivity].
  eexists. split; [reflexivity|]. split; reflexivity.
Qed.

(* ================================================================== *)
(** ** Identity lookup: proofs *)
(* ================================================================== *)

Lemma includes_prefix (p s : string) : includes (p ++ s) p = true.
Proof.
  assert (H : starts_with p (p ++ s) = true).
  { induction p as [|c p IH]; simpl; [reflexivity|].
    now rewrite Ascii.eqb_refl, IH. }
  destruct (p ++ s)%string; simpl in *; rewrite H; reflexivity.
Qed.

Lemma get_prop_nullish (name : string) (v : value) :
  (if is_nullish v then VUndefined else get_prop name v) = get_prop name v.
Proof. destruct v; reflexivity. Qed.

(** The outcome of [whoami] by what the remote end does. *)
Lemma whoami_cases (env : Env) (config : EngineParams) (log : list Request) :
  fst (whoami env config log) =
  match remote env (length log) (whoami_request config) with
  | Resolved res =>
      if ok res then
        match res_json res with
        | JsonOk payload =>
            if truthy (get_prop "email" payload)
            then Ok (Some {| email := get_prop "email" payload;
                             id := get_prop "id" payload |})
            else Ok None
        | JsonFail message =>
            if includes message "Server error"
            then Throw (ThrownError "SyntaxError" message) else Ok None
        end
      else if ((500 <=? status res) && (status res <? 600))%Z
           then Throw (Error (server_error_message res ""))
           else Ok None
  | Rejected (ThrownError n message) =>
      if includes message "Server error"
      then Throw (ThrownError n message) else Ok None
  | Rejected (ThrownValue _) => Ok None
  end.
Proof.
  unfold whoami, try_catch, bind, fetch, json, ret, throw.
  destruct (remote env (length log) (whoami_request config)) as [res|[n m|v]].
  - destruct (ok res).
    + destruct (res_json res) as [payload|m].
      * rewrite get_prop_nullish.
        destruct (truthy (get_prop "email" payload)); reflexivity.
      * destruct (includes m "Server error"); reflexivity.
    + destruct ((500 <=? status res) && (status res <? 600))%Z; [|reflexivity].
      unfold server_error_message, Error.
      match goal with
      | |- context [includes ?m "Server error"] =>
          replace (includes m "Server error") with true
            by (symmetry;
                exact (includes_prefix "Server error"
                         (" (" ++ Z_to_string (status res) ++ "): "
                          ++ statusText res
                          ++ ". This may be due to temporary service issues.")))
      end.
      reflexivity.
  - destruct (includes m "Server error"); reflexivity.
  - reflexivity.
Qed.

(** C9. [whoami] returns [{email, id}] exactly when the endpoint answers 2xx
    with a body whose [email] is present (truthy); it returns [null] when the
    2xx body lacks an email and when the status is a failure outside
    500..599; a status in 500..599 makes the call fail with the server
    error. *)
Theorem whoami_outcomes (env : Env) (config : EngineParams) (log : list Request) :
  let outcome := fst (whoami env config log) in
  (forall user, outcome = Ok (Some user) <->
     exists res payload,
       remote env (length log) (whoami_request config) = Resolved res /\
       ok res = true /\ res_json res = JsonOk payload /\
       truthy (get_prop "email" payload) = true /\
       user = {| email := get_prop "email" payload;
                 id := get_prop "id" payload |}) /\
  (forall res,
     remote env (length log) (whoami_request config) = Resolved res ->
     (ok res = true -> forall payload, res_json res = JsonOk payload ->
        truthy (get_prop "email" payload) = false -> outcome = Ok None) /\
     (ok res = false -> ~ (500 <= status res <= 599)%Z -> outcome = Ok None) /\
     ((500 <= status res <= 599)%Z ->
        outcome = Throw (Error (server_error_message res "")))).
Proof.
  intros outcome. subst outcome. rewrite whoami_cases. split.
  - intros user. split.
    + destruct (remote env (length log) (whoami_request config)) as [res|[n m|v]].
      * destruct (ok res) eqn:Hok.
        -- destruct (res_json res) as [payload|m] eqn:Hjson.
           ++ destruct (truthy (get_prop "email" payload)) eqn:He;
                [|discriminate].
              intros H. inversion H. subst. exists res, payload. auto.
           ++ destruct (includes m "Server error"); discriminate.
        -- destruct ((500 <=? status res) && (status res <? 600))%Z; discriminate.
      * destruct (includes m "Server error"); discriminate.
      * discriminate.
    + intros (res & payload & Hres & Hok & Hjson & He & Hu).
      rewrite Hres, Hok, Hjson, He, Hu. reflexivity.
  - intros res Hres. rewrite Hres. split; [|split].
    + intros Hok payload Hjson He. rewrite Hok, Hjson, He. reflexivity.
    + intros Hok H5. rewrite Hok.
      replace ((500 <=? status res) && (status res <? 600))%Z with false by lia.
      reflexivity.
    + intros H5. rewrite (ok_false_of_5xx res H5).
      replace ((500 <=? status res) && (status res <? 600))%Z with true by lia.
      reflexivity.
Qed.

Lemma whoami_outcomes_witness :
  fst (whoami (constant_remote res_500) test_config []) =
  Throw (Error "Server error (500): Internal Server Error. This may be due to temporary service issues.") /\
  fst (whoami (constant_remote res_user) test_config []) =
  Ok (Some {| email := VStr "test@example.com"; id := VStr "user123" |}).
Proof.
  split.
  - apply (proj2 (proj2 (proj2 (whoami_outcomes (constant_remote res_500)
                                   test_config []) res_500 eq_refl))).
    simpl. lia.
  - apply (proj1 (whoami_outcomes (constant_remote res_user) test_config [])).
    exists res_user, (VObj [("email", VStr "test@example.com");
                            ("id", VStr "user123")]).
    repeat split; reflexivity.
Defined.

(* ================================================================== *)
(** ** Empty input: proofs *)
(* ================================================================== *)

(** A run that validates its parameters and finds nothing to send issues no
    request whatever the parameters are. *)
Lemma localizeStringArray_empty_log
      (env : Env) (config : EngineParams) (params : LocalizationParams)
      (log : list Request) :
  snd (localizeStringArray env config [] params log) = log.
Proof.
  unfold localizeStringArray, localizeObject, _localizeRaw, bind, lift,
    validateLocalizationParams.
  destruct (targetLocale params =? ""); reflexivity.
Qed.

(** C8. The Chunker applied to the empty mapping yields no chunk, and
    [localizeStringArray] applied to the empty array (with a target locale,
    as the parameter type requires) returns the empty array and leaves the
    request log as it was: no request is issued. *)
Theorem localizeStringArray_empty
        (env : Env) (config : EngineParams) (params : LocalizationParams)
        (log : list Request) :
  extractPayloadChunks config [] = [] /\
  (targetLocale params <> "" ->
   localizeStringArray env config [] params log = (Ok [], log)).
Proof.
  split; [reflexivity|].
  intros Htarget.
  unfold localizeStringArray, localizeObject, _localizeRaw, bind, lift,
    validateLocalizationParams.
  apply String.eqb_neq in Htarget. rewrite Htarget. reflexivity.
Qed.

Lemma localizeStringArray_empty_witness :
  localizeStringArray (constant_remote res_500) test_config [] en_es [] = (Ok [], []).
Proof.
  apply (proj2 (localizeStringArray_empty (constant_remote res_500)
                  test_config en_es [])).
  simpl. discriminate.
Defined.

(* ================================================================== *)
(** ** Objects: proofs *)
(* ================================================================== *)

Lemma key_lt_neq (k1 k2 : string) : key_lt k1 k2 -> k1 <> k2.
Proof.
  unfold key_lt. intros H E. subst k2.
  destruct (array_index k1); [lia | congruence].
Qed.

Lemma sorted_middle {A : Type} (R : A -> A -> Prop) (l1 l2 : list A) (x : A) :
  StronglySorted R (l1 ++ x :: l2) ->
  Forall (fun a => R a x) l1 /\ StronglySorted R (l1 ++ l2) /\
  StronglySorted R l2.
Proof.
  induction l1 as [|a l1 IH]; simpl; intros H.
  - apply StronglySorted_inv in H. destruct H as [H _].
    repeat split; [constructor | exact H | exact H].
  - apply StronglySorted_inv in H. destruct H as [Hs Hf].
    destruct (IH Hs) as (H1 & H2 & H3).
    apply Forall_app in Hf. destruct Hf as [Hf1 Hf2].
    split; [|split].
    + constructor; [now inversion Hf2 | exact H1].
    + constructor; [exact H2|]. apply Forall_app. split; [exact Hf1|].
      now inversion Hf2.
    + exact H3.
Qed.

Lemma has_key_below (k : string) (o : obj) :
  Forall (fun kv => key_lt (fst kv) k) o -> has_key k o = false.
Proof.
  induction 1 as [|[k' v'] r Hk _ IH]; simpl; [reflexivity|].
  rewrite IH, orb_false_r. apply String.eqb_neq. now apply key_lt_neq.
Qed.

Lemma insert_index_below (n : N) (k : string) (v : value) (o : obj) :
  array_index k = Some n ->
  Forall (fun kv => key_lt (fst kv) k) o ->
  insert_index n k v o = o ++ [(k, v)].
Proof.
  intros Hk. induction 1 as [|[k' v'] r Hlt _ IH]; simpl; [reflexivity|].
  unfold key_lt in Hlt. simpl in Hlt. rewrite Hk in Hlt.
  destruct (array_index k') as [m|]; [|contradiction].
  replace (n <? m)%N with false by (symmetry; apply N.ltb_ge; lia).
  now rewrite IH.
Qed.

(** Setting a key that the enumeration order places after every key of the
    object appends the entry. *)
Lemma obj_set_append (k : string) (v : value) (o : obj) :
  k <> "__proto__" ->
  Forall (fun kv => key_lt (fst kv) k) o ->
  obj_set k v o = o ++ [(k, v)].
Proof.
  intros Hp Hlt. unfold obj_set.
  apply String.eqb_neq in Hp. rewrite Hp, (has_key_below k o Hlt).
  destruct (array_index k) as [n|] eqn:Hk; [|reflexivity].
  now apply insert_index_below.
Qed.

Lemma length_replace_key (k : string) (v : value) (o : obj) :
  length (replace_key k v o) = length o.
Proof.
  induction o as [|[k' v'] r IH]; simpl; [reflexivity|].
  destruct (k' =? k); simpl; congruence.
Qed.

Lemma length_insert_index (n : N) (k : string) (v : value) (o : obj) :
  length (insert_index n k v o) = S (length o).
Proof.
  induction o as [|[k' v'] r IH]; simpl; [reflexivity|].
  destruct (array_index k') as [m|]; [|reflexivity].
  destruct (n <? m)%N; simpl; congruence.
Qed.

Lemma length_obj_set (k : string) (v : value) (o : obj) :
  length (obj_set k v o) <= S (length o).
Proof.
  unfold obj_set. destruct (k =? "__proto__"); [lia|].
  destruct (has_key k o).
  - rewrite length_replace_key. lia.
  - destruct (array_index k).
    + rewrite length_insert_index. lia.
    + rewrite length_app. simpl. lia.
Qed.

(* ================================================================== *)
(** ** Chunker: proofs *)
(* ================================================================== *)

Lemma last_is_string_cons (kv : string * value) (r : obj) :
  r <> [] -> last_is_string (kv :: r) = last_is_string r.
Proof. destruct r; [congruence | reflexivity]. Qed.

(** The loop invariant of [extractPayloadChunks]: what has been pushed, the
    chunk under construction and the string-valued entries still to visit
    make up, in order, the string-valued entries of the payload -- provided
    the entry visited last is string-valued, which is where the pending
    chunk is pushed. *)
Lemma chunk_loop_concat (config : EngineParams) (len : Z) (rest : obj) :
  forall (i : Z) (currentChunk : obj) (count : Z) (result : list obj),
    canonical (currentChunk ++ rest) ->
    no_proto_strings rest ->
    (i + Z.of_nat (length rest) = len)%Z ->
    last_is_string rest = true ->
    (rest = [] -> currentChunk = []) ->
    concat (chunk_loop config len rest i currentChunk count result)
    = concat result ++ currentChunk ++ string_entries rest.
Proof.
  induction rest as [|[key value] rest IH];
    intros i cur count result Hcan Hproto Hi Hlast Hcur.
  - simpl. rewrite (Hcur eq_refl). simpl. now rewrite app_nil_r.
  - destruct (sorted_middle _ _ _ _ Hcan) as (Hbelow & Hskip & Hsuffix).
    apply Forall_cons_iff in Hproto. destruct Hproto as [Hkey Hproto'].
    simpl in Hkey.
    assert (Hi' : (i + 1 + Z.of_nat (length rest) = len)%Z)
      by (simpl length in Hi; lia).
    simpl chunk_loop. unfold string_entries. simpl filter.
    fold (string_entries rest).
    destruct (is_string value) eqn:Hstr.
    + rewrite (obj_set_append key value cur (Hkey eq_refl)) by exact Hbelow.
      assert (Hcan' : canonical ((cur ++ [(key, value)]) ++ rest))
        by (rewrite <- app_assoc; exact Hcan).
      destruct rest as [|kv' rest'] eqn:Hrest.
      * replace (i =? len - 1)%Z with true by (simpl in Hi; lia).
        rewrite !orb_true_r. simpl.
        rewrite concat_app. simpl. now rewrite !app_nil_r.
      * rewrite <- Hrest in *.
        assert (Hne : rest <> []) by (rewrite Hrest; discriminate).
        rewrite last_is_string_cons in Hlast by exact Hne.
        match goal with |- concat (if ?c then _ else _) = _ => destruct c end.
        -- rewrite IH; try assumption.
           ++ rewrite concat_app. simpl. rewrite app_nil_r, <- !app_assoc.
              reflexivity.
           ++ reflexivity.
        -- rewrite IH; try assumption.
           ++ now rewrite <- !app_assoc.
           ++ intros E. contradiction.
    + destruct rest as [|kv' rest'] eqn:Hrest.
      * simpl in Hlast. simpl in Hstr. congruence.
      * rewrite <- Hrest in *.
        assert (Hne : rest <> []) by (rewrite Hrest; discriminate).
        rewrite last_is_string_cons in Hlast by exact Hne.
        apply IH; try assumption. intros E. contradiction.
Qed.

(** When the payload ends with a string-valued entry the chunks, put
    together in order, are the string-valued entries of the payload. *)
Lemma extractPayloadChunks_partition (config : EngineParams) (payload : obj) :
  canonical payload -> no_proto_strings payload ->
  last_is_string payload = true ->
  concat (extractPayloadChunks config payload) = string_entries payload.
Proof.
  intros Hcan Hproto Hlast. unfold extractPayloadChunks, Object_entries.
  rewrite chunk_loop_concat; auto.
Qed.

(** Every chunk holds at most [batchSize || 25] entries, whatever the
    payload. *)
Lemma chunk_loop_size (config : EngineParams) (len : Z) (rest : obj) :
  forall (i : Z) (currentChunk : obj) (count : Z) (result : list obj),
    (1 <= or_default (batchSize config) 25)%Z ->
    (Z.of_nat (length currentChunk) <= count)%Z ->
    (count < or_default (batchSize config) 25)%Z ->
    Forall (fun chunk => (Z.of_nat (length chunk)
                          <= or_default (batchSize config) 25)%Z) result ->
    Forall (fun chunk => (Z.of_nat (length chunk)
                          <= or_default (batchSize config) 25)%Z)
           (chunk_loop config len rest i currentChunk count result).
Proof.
  induction rest as [|[key value] rest IH];
    intros i cur count result Hmax Hlen Hcount Hres; simpl; [exact Hres|].
  destruct (is_string value); [|now apply IH].
  pose proof (length_obj_set key value cur) as Hset.
  match goal with |- Forall _ (if ?c then _ else _) => destruct c eqn:Hc end.
  - apply IH; try assumption; simpl; try lia.
    apply Forall_app. split; [exact Hres|]. constructor; [lia | constructor].
  - apply IH; try assumption; lia.
Qed.

Lemma extractPayloadChunks_size (config : EngineParams) (payload : obj) :
  (1 <= batchSize config)%Z ->
  Forall (fun chunk => (Z.of_nat (length chunk) <= batchSize config)%Z)
         (extractPayloadChunks config payload).
Proof.
  intros Hmax.
  assert (E : or_default (batchSize config) 25 = batchSize config).
  { unfold or_default. destruct (batchSize config =? 0)%Z eqn:Hz; lia. }
  rewrite <- E. apply chunk_loop_size; simpl; try lia. constructor.
Qed.

(** C1, at a failing input.  For the payload
    [{title: "Hello world", count: 3}] the Chunker returns no chunk at all:
    the test that pushes the pending chunk at the last entry sits inside the
    branch for string values, so the chunk holding [title] is never pushed
    when the last entry is not a string.  The string-valued key [title] is
    omitted from the output. *)
Theorem extractPayloadChunks_drops_pending_chunk :
  canonical payload_trailing_number /\
  string_entries payload_trailing_number = [("title", VStr "Hello world")] /\
  extractPayloadChunks test_config payload_trailing_number = [] /\
  extractPayloadChunks test_config ui_strings = [].
Proof.
  split; [|repeat split].
  repeat constructor; unfold entry_lt, key_lt; simpl; discriminate.
Qed.

(** C2, at failing inputs.  For the object of the README example
    [localizeObject] sends nothing and resolves to the empty object, whatever
    the remote end is: the only top-level string, [welcome], sits in the
    pending chunk that is dropped because the last entry is not a string
    (the defect of C1).  And where the strings are translated, the result is
    the merged response only: for [{count: 3, title: "Hello world"}] the
    entry [count] is absent from the output. *)
Theorem localizeObject_drops_entries :
  (forall env log,
      localizeObject env test_config ui_strings en_es log = (Ok [], log)) /\
  fst (localizeObject (translating_remote es_prefix) test_config
                      payload_leading_number en_es [])
  = Ok [("title", VStr "ES:Hello world")].
Proof.
  split; [intros env log|]; reflexivity.
Qed.

(* ================================================================== *)
(** ** Chat: the index read off the response keys *)
(* ================================================================== *)







(* ================================================================== *)
(** ** Synthesized keys: rendering an index and reading it back *)
(* ================================================================== *)

Lemma string_of_uint_digits (d : uint) :
  all_digits (NilEmpty.string_of_uint d) = true.
Proof. induction d; simpl; auto. Qed.

Lemma to_uint_nonnil (n : nat) : Nat.to_uint n <> Nil.
Proof.
  intros E. destruct n as [|n]; [discriminate|].
  pose proof (Unsigned.of_to (S n)) as H. rewrite E in H. discriminate.
Qed.

Lemma nat_to_string_inj (i j : nat) :
  nat_to_string i = nat_to_string j -> i = j.
Proof.
  unfold nat_to_string. intros E.
  apply Unsigned.to_uint_inj.
  pose proof (NilEmpty.usu (Nat.to_uint i)) as Hi.
  rewrite E, NilEmpty.usu in Hi. now inversion Hi.
Qed.

Lemma chat_key_inj (i j : nat) : chat_key i = chat_key j -> i = j.
Proof.
  unfold chat_key. simpl. intros E. inversion E. now apply nat_to_string_inj.
Qed.

Lemma parse_digits_uint (d : uint) :
  forall acc : nat,
    parse_digits digit_value 10 true (Z.of_nat acc) (NilEmpty.string_of_uint d)
    = Some (Z.of_nat (Nat.of_uint_acc d acc)).
Proof.
  induction d; intros acc; cbn -[Z.mul Z.add Z.of_nat Nat.tail_mul digit_value];
    try reflexivity;
    match goal with
    | |- context [digit_value ?c] =>
        let v := eval vm_compute in (digit_value c) in
        change (digit_value c) with v
    end;
    cbv iota beta; rewrite <- IHd; f_equal;
    rewrite ?Nat2Z.inj_succ, Nat.tail_mul_spec; lia.
Qed.

Lemma eqb_underscore_digit (c : ascii) :
  is_digit c = true -> (c =? "_")%char = false.
Proof.
  intros H. destruct (Ascii.eqb_spec c "_") as [E|_]; [|reflexivity].
  subst c. discriminate.
Qed.

Lemma split_char_digits (s : string) :
  all_digits s = true -> split_char "_" s = [s].
Proof.
  induction s as [|c r IH]; simpl; [reflexivity|].
  intros H. apply andb_true_iff in H. destruct H as [Hc Hr].
  now rewrite (eqb_underscore_digit c Hc), (IH Hr).
Qed.

Lemma parseInt_digits (d : uint) :
  d <> Nil ->
  parseInt (NilEmpty.string_of_uint d) = Some (Z.of_nat (Nat.of_uint d)).
Proof.
  intros Hd. unfold Nat.of_uint.
  pose proof (parse_digits_uint d 0) as H.
  destruct d as [|d|d|d|d|d|d|d|d|d|d]; try congruence; try exact H.
  unfold parseInt. simpl trimStart. cbv iota beta.
  destruct d; exact H.
Qed.

(** [parseInt(`chat_${i}`.split("_")[1])] is [i]. *)
Lemma parsed_index_chat_key (i : nat) :
  parsed_index (chat_key i) = Some (Z.of_nat i).
Proof.
  unfold parsed_index, chat_key, nat_to_string. simpl.
  rewrite split_char_digits by apply string_of_uint_digits. simpl.
  rewrite parseInt_digits by apply to_uint_nonnil.
  now rewrite Unsigned.of_to.
Qed.

Lemma chat_key_not_index (i : nat) : array_index (chat_key i) = None.
Proof. reflexivity. Qed.

Lemma chat_key_not_proto (i : nat) : chat_key i <> "__proto__".
Proof. unfold chat_key. simpl. discriminate. Qed.

Lemma key_lt_chat_key (i j : nat) : i <> j -> key_lt (chat_key i) (chat_key j).
Proof.
  intros Hij. unfold key_lt. rewrite !chat_key_not_index.
  intros E. apply Hij. now apply chat_key_inj.
Qed.

Section ChatKeys.
Context {A : Type} (g : nat -> A -> value).

Let keyed (j : nat) (x : A) : string * value := (chat_key j, g j x).

Lemma mapi_keys_from (l : list A) :
  forall i, Forall (fun kv => exists j, i <= j /\ fst kv = chat_key j)
                   (mapi_from keyed i l).
Proof.
  induction l as [|x r IH]; intros i; simpl; constructor.
  - exists i. split; [lia | reflexivity].
  - eapply Forall_impl; [|apply (IH (S i))].
    intros kv (j & Hj & E). exists j. split; [lia | exact E].
Qed.

Lemma canonical_mapi (l : list A) : forall i, canonical (mapi_from keyed i l).
Proof.
  induction l as [|x r IH]; intros i; simpl; constructor.
  - apply IH.
  - eapply Forall_impl; [|apply (mapi_keys_from r (S i))].
    intros kv (j & Hj & E). unfold entry_lt. simpl. rewrite E.
    apply key_lt_chat_key. lia.
Qed.

Lemma mapi_no_proto (l : list A) :
  forall i, Forall (fun kv => fst kv <> "__proto__") (mapi_from keyed i l).
Proof.
  induction l as [|x r IH]; intros i; simpl; constructor.
  - apply chat_key_not_proto.
  - apply IH.
Qed.

End ChatKeys.

Lemma mapi_from_map {A B C : Type} (f : nat -> B -> C) (h : A -> B) (l : list A) :
  forall i, mapi_from f i (map h l) = mapi_from (fun j x => f j (h x)) i l.
Proof. induction l as [|x r IH]; intros i; simpl; [|rewrite IH]; reflexivity. Qed.

Lemma map_mapi_from {A B C : Type} (f : nat -> A -> B) (h : B -> C) (l : list A) :
  forall i, map h (mapi_from f i l) = mapi_from (fun j x => h (f j x)) i l.
Proof. induction l as [|x r IH]; intros i; simpl; [|rewrite IH]; reflexivity. Qed.

(** The record [localizeChat] builds from the texts lists the synthesized
    keys in index order. *)
Lemma keyed_record_chat (texts : list string) :
  forall (i : nat) (acc : obj),
    Forall (fun kv => exists j, j < i /\ fst kv = chat_key j) acc ->
    keyed_record "chat_" texts i acc
    = acc ++ mapi_from (fun j s => (chat_key j, VStr s)) i texts.
Proof.
  induction texts as [|s r IH]; intros i acc Hacc; simpl.
  - now rewrite app_nil_r.
  - fold (chat_key i). rewrite obj_set_append.
    + rewrite IH.
      * now rewrite <- app_assoc.
      * apply Forall_app. split.
        -- eapply Forall_impl; [|exact Hacc].
           intros kv (j & Hj & E). exists j. split; [lia | exact E].
        -- constructor; [|constructor]. exists i. split; [lia | reflexivity].
    + apply chat_key_not_proto.
    + eapply Forall_impl; [|exact Hacc].
      intros kv (j & Hj & E). rewrite E. apply key_lt_chat_key. lia.
Qed.

(* ================================================================== *)
(** ** Orchestrator: a remote end that answers in order *)
(* ================================================================== *)

Lemma canonical_keys (o : obj) :
  canonical o <-> StronglySorted key_lt (map fst o).
Proof.
  unfold canonical. induction o as [|a r IH]; simpl.
  - split; constructor.
  - split; intros H; apply StronglySorted_inv in H; destruct H as [Hs Hf];
      (constructor; [now apply IH|]).
    + apply Forall_map. exact Hf.
    + exact (proj1 (Forall_map fst (key_lt (fst a)) r) Hf).
Qed.

Lemma canonical_same_keys (o1 o2 : obj) :
  map fst o1 = map fst o2 -> canonical o1 -> canonical o2.
Proof.
  intros E H. apply canonical_keys. rewrite <- E. now apply canonical_keys.
Qed.

Lemma assign_one_append (c : obj) :
  forall target : obj,
    canonical (target ++ c) ->
    Forall (fun kv => fst kv <> "__proto__") c ->
    assign_one target (VObj c) = target ++ c.
Proof.
  unfold assign_one. simpl.
  induction c as [|[k v] r IH]; intros target Hcan Hp; simpl.
  - now rewrite app_nil_r.
  - inversion Hp as [|? ? Hk Hr]. subst.
    destruct (sorted_middle _ _ _ _ Hcan) as (Hbelow & _ & _).
    rewrite (obj_set_append k v target Hk Hbelow).
    rewrite IH; [now rewrite <- app_assoc | | exact Hr].
    now rewrite <- app_assoc.
Qed.

Lemma Object_assign_append (chunks : list obj) :
  forall target : obj,
    canonical (target ++ concat chunks) ->
    Forall (fun kv => fst kv <> "__proto__") (concat chunks) ->
    Object_assign target (map VObj chunks) = target ++ concat chunks.
Proof.
  unfold Object_assign.
  induction chunks as [|c r IH]; intros target Hcan Hp; simpl.
  - now rewrite app_nil_r.
  - simpl in Hcan, Hp. apply Forall_app in Hp. destruct Hp as [Hc Hr].
    rewrite assign_one_append.
    + rewrite IH; [now rewrite <- app_assoc | | exact Hr].
      now rewrite <- app_assoc.
    + rewrite app_assoc in Hcan.
      clear - Hcan. revert Hcan. generalize (target ++ c). intros l.
      induction l as [|a l IHl]; simpl; intros H; [constructor|].
      apply StronglySorted_inv in H. destruct H as [Hs Hf].
      constructor; [now apply IHl|].
      apply Forall_app in Hf. tauto.
    + exact Hc.
Qed.

Lemma request_data_i18n (config : EngineParams) (src : option string)
      (tgt : string) (data : obj) (ref hnt : option value) (wid : string)
      (fast_mode : bool) :
  request_data (i18n_request config src tgt data ref hnt wid fast_mode) = data.
Proof. reflexivity. Qed.

(** Against a remote end that answers in order, the loop of [_localizeRaw]
    collects the translation of every chunk. *)
Lemma localize_chunks_in_order
      (env : Env) (config : EngineParams) (params : LocalizationParams)
      (wid : string) (tr : string -> value -> string) :
  answers_in_order env tr ->
  forall (chunks : list obj) (processed : list value) (log : list Request),
  exists log',
    localize_chunks env config params wid chunks processed log
    = (Ok (processed ++ map VObj (map (map (translate_entry tr)) chunks)), log').
Proof.
  intros Hremote chunks.
  induction chunks as [|c r IH]; intros processed log; simpl.
  - exists log. now rewrite app_nil_r.
  - unfold bind.
    set (fm := match fast params with Some true => true | _ => false end).
    destruct (Hremote (length log)
                (i18n_request config (sourceLocale params) (targetLocale params)
                              c (reference params) (hints params) wid fm))
      as (res & body & Hres & Hok & Hjson & Hnn & Hdata).
    rewrite (localizeChunk_ok_body env config _ _ c _ _ wid fm log res body
               Hres Hok Hjson Hnn).
    rewrite Hdata, request_data_i18n. simpl.
    destruct (IH (processed ++ [VObj (map (translate_entry tr) c)])
                 (log ++ [i18n_request config (sourceLocale params)
                            (targetLocale params) c (reference params)
                            (hints params) wid fm])) as [log' E].
    exists log'. rewrite E, <- app_assoc. reflexivity.
Qed.

Lemma string_entries_all (o : obj) :
  Forall (fun kv => is_string (snd kv) = true) o -> string_entries o = o.
Proof.
  induction 1 as [|kv r Hkv _ IH]; simpl; [reflexivity|].
  now rewrite Hkv, IH.
Qed.

Lemma last_is_string_all (o : obj) :
  Forall (fun kv => is_string (snd kv) = true) o -> last_is_string o = true.
Proof.
  induction 1 as [|kv r Hkv Hr IH]; [reflexivity|].
  destruct r; [exact Hkv | exact IH].
Qed.

(** For a payload of strings only, against a remote end that answers in
    order, [_localizeRaw] resolves to the payload with every value replaced
    by its translation. *)
Lemma localizeRaw_in_order
      (env : Env) (config : EngineParams) (params : LocalizationParams)
      (tr : string -> value -> string) (payload : obj) (log : list Request) :
  targetLocale params <> "" ->
  answers_in_order env tr ->
  canonical payload ->
  Forall (fun kv => is_string (snd kv) = true) payload ->
  Forall (fun kv => fst kv <> "__proto__") payload ->
  exists log',
    _localizeRaw env config payload params log
    = (Ok (map (translate_entry tr) payload), log').
Proof.
  intros Htarget Hremote Hcan Hstr Hproto.
  unfold _localizeRaw, bind, lift, validateLocalizationParams.
  apply String.eqb_neq in Htarget. rewrite Htarget.
  destruct (localize_chunks_in_order env config params (createId env) tr Hremote
              (extractPayloadChunks config payload) [] log) as [log' E].
  exists log'. rewrite E. simpl. unfold ret. f_equal. f_equal.
  assert (Hparts : concat (extractPayloadChunks config payload) = payload).
  { rewrite extractPayloadChunks_partition.
    - now apply string_entries_all.
    - exact Hcan.
    - eapply Forall_impl; [|exact Hproto]. intros kv H _. exact H.
    - now apply last_is_string_all. }
  rewrite Object_assign_append; rewrite <- concat_map, Hparts; simpl.
  - reflexivity.
  - apply (canonical_same_keys payload); [|exact Hcan].
    rewrite map_map. reflexivity.
  - apply Forall_map. exact Hproto.
Qed.

(* ================================================================== *)
(** ** Chat: proofs *)
(* ================================================================== *)

Lemma index_of_nat {A : Type} (arr : list A) (i : nat) :
  index arr (Some (Z.of_nat i)) = nth_error arr i.
Proof.
  unfold index. destruct (Z.ltb_spec (Z.of_nat i) 0); [lia|].
  now rewrite Nat2Z.id.
Qed.

Lemma chat_entry_chat_key (chat : list ChatMessage) (i : nat)
      (message : ChatMessage) (v : value) (log : list Request) :
  nth_error chat i = Some message ->
  chat_entry chat (chat_key i, v) log
  = (Ok {| l_name := name message; l_text := v |}, log).
Proof.
  intros H. unfold chat_entry.
  rewrite parsed_index_chat_key, index_of_nat, H. reflexivity.
Qed.

Lemma map_M_chat_in_order (chat : list ChatMessage) (v : nat -> ChatMessage -> value)
      (log : list Request) (suffix : list ChatMessage) :
  forall prefix : list ChatMessage,
    chat = prefix ++ suffix ->
    map_M (chat_entry chat)
          (mapi_from (fun j m => (chat_key j, v j m)) (length prefix) suffix) log
    = (Ok (mapi_from (fun j m => {| l_name := name m; l_text := v j m |})
                     (length prefix) suffix), log).
Proof.
  induction suffix as [|m r IH]; intros prefix Hchat; [reflexivity|].
  cbn [mapi_from map_M]. unfold bind.
  rewrite (chat_entry_chat_key chat (length prefix) m).
  - specialize (IH (prefix ++ [m])). rewrite length_app in IH. simpl in IH.
    rewrite Nat.add_1_r in IH. rewrite IH; [reflexivity|].
    now rewrite <- app_assoc.
  - rewrite Hchat, nth_error_app2, Nat.sub_diag by lia. reflexivity.
Qed.

Lemma nth_error_mapi_from {A B : Type} (f : nat -> A -> B) (l : list A) :
  forall i k, nth_error (mapi_from f i l) k = option_map (f (i + k)) (nth_error l k).
Proof.
  induction l as [|x r IH]; intros i k; destruct k; simpl; try reflexivity.
  - now rewrite Nat.add_0_r.
  - rewrite IH. now rewrite Nat.add_succ_r.
Qed.

Lemma length_mapi_from {A B : Type} (f : nat -> A -> B) (l : list A) :
  forall i, length (mapi_from f i l) = length l.
Proof. induction l; intros i; simpl; [|rewrite IHl]; reflexivity. Qed.

(** Against a remote end that answers in order, [localizeChat] resolves to
    the chat with each text replaced by its translation. *)
Lemma localizeChat_translated
      (env : Env) (config : EngineParams) (chat : list ChatMessage)
      (params : LocalizationParams) (tr : string -> value -> string)
      (log : list Request) :
  targetLocale params <> "" ->
  answers_in_order env tr ->
  fst (localizeChat env config chat params log)
  = Ok (mapi_from (localized_message tr) 0 chat).
Proof.
  intros Htarget Hremote. unfold localizeChat, bind.
  rewrite (keyed_record_chat (map text chat) 0 []) by constructor.
  rewrite app_nil_l.
  destruct (localizeRaw_in_order env config params tr
              (mapi_from (fun j s => (chat_key j, VStr s)) 0 (map text chat))
              log Htarget Hremote) as [log' E].
  - apply canonical_mapi.
  - clear. generalize 0. induction (map text chat); intros i; simpl;
      constructor; auto.
  - apply mapi_no_proto.
  - rewrite E. unfold Object_entries.
    rewrite mapi_from_map, map_mapi_from. unfold translate_entry.
    cbn [fst snd].
    pose proof (map_M_chat_in_order chat
                  (fun j m => VStr (tr (chat_key j) (VStr (text m))))
                  log' chat [] eq_refl) as Hmap.
    simpl length in Hmap. rewrite Hmap. reflexivity.
Qed.

(** C3, as the code has it.  For every chat sequence and every remote end
    that answers each chunk with status 2xx and a [data] mapping listing the
    chunk's keys in the order sent, each with a translated string,
    [localizeChat] returns a sequence of the same length whose element at
    each index [i] carries the name of the input at [i] and, as its text,
    the translation of the input text at [i]. *)
Theorem localizeChat_in_order
        (env : Env) (config : EngineParams) (chat : list ChatMessage)
        (params : LocalizationParams) (tr : string -> value -> string)
        (log : list Request) :
  targetLocale params <> "" ->
  answers_in_order env tr ->
  exists out,
    fst (localizeChat env config chat params log) = Ok out /\
    length out = length chat /\
    forall i message,
      nth_error chat i = Some message ->
      nth_error out i
      = Some {| l_name := name message;
                l_text := VStr (tr (chat_key i) (VStr (text message))) |}.
Proof.
  intros Htarget Hremote.
  exists (mapi_from (localized_message tr) 0 chat).
  split; [now apply localizeChat_translated|].
  split; [apply length_mapi_from|].
  intros i message Hi. rewrite nth_error_mapi_from, Hi. reflexivity.
Qed.

Lemma translating_remote_in_order (tr : string -> value -> string) :
  answers_in_order (translating_remote tr) tr.
Proof.
  intros n req. eexists. eexists. simpl.
  split; [reflexivity|]. repeat split.
Qed.

Lemma localizeChat_in_order_witness :
  exists out,
    fst (localizeChat (translating_remote es_prefix) test_config
                      chat_of_three en_es []) = Ok out /\
    length out = 3 /\
    nth_error out 1 = Some {| l_name := "Bob";
                              l_text := VStr "ES:How are you doing?" |}.
Proof.
  destruct (localizeChat_in_order (translating_remote es_prefix) test_config
              chat_of_three en_es es_prefix [])
    as (out & Hout & Hlen & Hnth).
  - simpl. discriminate.
  - apply translating_remote_in_order.
  - exists out. split; [exact Hout|]. split; [exact Hlen|].
    apply (Hnth 1 {| name := "Bob"; text := "How are you doing?" |}).
    reflexivity.
Defined.

(** C3, counterexample: the response maps [chat_0] and [chat_1] to translated
    strings but lists [chat_1] first; the element at index 0 of the result
    then carries the name found at index 1 of the input. *)
Lemma localizeChat_follows_response_order :
  get_own "chat_0" [("chat_1", VStr "Adios"); ("chat_0", VStr "Hola")]
  = Some (VStr "Hola") /\
  get_own "chat_1" [("chat_1", VStr "Adios"); ("chat_0", VStr "Hola")]
  = Some (VStr "Adios") /\
  fst (localizeChat (constant_remote res_chat_reversed) test_config
                    chat_of_two en_es [])
  = Ok [{| l_name := "Bob"; l_text := VStr "Adios" |};
        {| l_name := "Alice"; l_text := VStr "Hola" |}] /\
  option_map name (nth_error chat_of_two 0) = Some "Alice".
Proof. repeat split. Qed.


(** A key that is not of the form [chat_<i>] may still carry an index of the
    chat: only the integer after the first underscore is read. *)
Lemma parsed_index_examples :
  parsed_index "note_0" = Some 0%Z /\
  parsed_index "chat_1_draft" = Some 1%Z /\
  parsed_index "chat_0x1f" = Some 31%Z /\
  parsed_index "chat" = None /\
  parsed_index "chat_" = None /\
  parsed_index "chat_-1" = Some (-1)%Z.
Proof. repeat split. Qed.

(* ================================================================== *)
(** ** HTML: proofs *)
(* ================================================================== *)

(** C4, at a failing input.  Where the host defines no [DOMParser] (the
    fallback branch), the document
    [<html><body><p>data</p><script>let data = 1;</script></body></html>]
    has its one text, [data], extracted from outside the script block and
    translated to [ES:data]; the translation is then substituted for every
    occurrence of [data] in the markup, the one inside the script block
    included. *)
Theorem localizeHtml_alters_script :
  extract_simple html_with_script = [("text_0", VStr "data")] /\
  fst (localizeHtml (translating_remote es_prefix) test_config None
                    html_with_script en_es [])
  = Ok ("<html lang=" ++ dquote ++ "es" ++ dquote
        ++ "><body><p>ES:data</p><script>let ES:data = 1;</script></body></html>")%string.
Proof. split; reflexivity. Qed.

(** In the fallback branch a root element that already has a language
    attribute is given a second one after it. *)
Lemma localizeHtml_second_lang :
  fst (localizeHtml (translating_remote es_prefix) test_config None
                    html_with_lang en_es [])
  = Ok ("<html lang=" ++ dquote ++ "en" ++ dquote ++ " lang=" ++ dquote ++ "es"
        ++ dquote ++ "><body><p>ES:Hello</p></body></html>")%string.
Proof. reflexivity. Qed.

(** The embedding passes the repository's own test of [localizeHtml]: the
    keys the fallback extracts are the keys the stub answers with, and the
    four assertions of the test hold of the result. *)
Lemma localizeHtml_repository_test :
  Object_keys (extract_simple test_html)
  = ["text_0"; "text_1"; "text_2"; "text_3"; "text_4"; "text_5"; "text_6";
     "text_7"; "text_8"; "text_9"; "attr_0_10"; "attr_1_11"; "attr_2_12";
     "attr_3_13"] /\
  exists out,
    fst (localizeHtml (constant_remote test_html_response) test_config None
                      test_html en_es []) = Ok out /\
    includes out ("lang=" ++ dquote ++ "es" ++ dquote) = true /\
    includes out "ES:Test Page" = true /\
    includes out "ES:Hello World" = true /\
    includes out ("const doNotTranslate = " ++ dquote
                  ++ "this text should be ignored" ++ dquote) = true.
Proof.
  split; [vm_compute; reflexivity|].
  eexists. split; [vm_compute; reflexivity|].
  repeat split; vm_compute; reflexivity.
Qed.

(** X1. On the structural branch, a script or style element contributes nothing
    to the extraction, whatever it contains. *)
Lemma processNode_unlocalizable (tagName path : string)
      (attrs : list (string * string)) (children : list node) (acc : obj) :
  In tagName UNLOCALIZABLE_TAGS ->
  processNode false path (ElementNode tagName attrs children) acc = Ok acc.
Proof.
  intros Htag.
  assert (Hattrs : localizable_attributes tagName = Some []).
  { destruct Htag as [E|[E|[]]]; subst; reflexivity. }
  assert (Hblock : existsb (String.eqb tagName) UNLOCALIZABLE_TAGS = true).
  { destruct Htag as [E|[E|[]]]; subst; reflexivity. }
  cbn [processNode]. rewrite Hattrs, Hblock. cbn [fold_left].
  generalize 0. induction children as [|child rest IH]; intros i; [reflexivity|].
  destruct (significant child); [|apply IH].
  destruct child; cbn [processNode]; apply IH.
Qed.

(** The structural branch on that document: the paths extracted, none of
    them inside the script element, and the tree after the translations are
    written back. *)
Lemma structural_codec_sample :
  extract_document parsed_sample
  = Ok [("head/0/0", VStr "Test Page");
        ("head/1#content", VStr "Page description");
        ("body/0", VStr "standalone");
        ("body/1/1/0", VStr "data");
        ("body/1/1/1#alt", VStr "A picture")] /\
  inject_all [("head/0/0", VStr "ES:Test Page");
              ("head/1#content", VStr "ES:Page description");
              ("body/0", VStr "ES:standalone");
              ("body/1/1/0", VStr "ES:data");
              ("body/1/1/1#alt", VStr "ES:A picture")] parsed_sample
  = Ok {| documentElement_attributes := [];
          head := Some (ElementNode "head" []
                    [ElementNode "title" [] [TextNode "ES:Test Page"];
                     TextNode " ";
                     ElementNode "meta" [("name", "description");
                                         ("content", "ES:Page description")] []]);
          body := Some (ElementNode "body" []
                    [TextNode "ES:standalone";
                     ElementNode "div" []
                       [ElementNode "script" [] [TextNode "let data = 1;"];
                        ElementNode "p" []
                          [TextNode "ES:data";
                           ElementNode "img" [("alt", "ES:A picture")] []]]]) |}.
Proof. split; reflexivity. Qed.

(** For an object whose top-level values are all strings, against a remote
    end that answers in order, [localizeObject] resolves to the object with
    every value replaced by its translation. *)
Lemma localizeObject_all_strings
      (env : Env) (config : EngineParams) (params : LocalizationParams)
      (tr : string -> value -> string) (o : obj) (log : list Request) :
  targetLocale params <> "" ->
  answers_in_order env tr ->
  canonical o ->
  Forall (fun kv => is_string (snd kv) = true) o ->
  Forall (fun kv => fst kv <> "__proto__") o ->
  fst (localizeObject env config o params log)
  = Ok (map (translate_entry tr) o).
Proof.
  intros Htarget Hremote Hcan Hstr Hproto. unfold localizeObject.
  destruct (localizeRaw_in_order env config params tr o log
              Htarget Hremote Hcan Hstr Hproto) as [log' E].
  now rewrite E.
Qed.

(* ================================================================== *)
(** ** Orchestrator: the requests a run issues *)
(* ================================================================== *)

(** Whatever the answer, [localizeChunk] issues its one request. *)
Lemma localizeChunk_one_request
      (env : Env) (config : EngineParams) (src : option string) (tgt : string)
      (data : obj) (ref hnt : option value) (wid : string) (fast_mode : bool)
      (log : list Request) :
  snd (localizeChunk env config src tgt data ref hnt wid fast_mode log)
  = log ++ [i18n_request config src tgt data ref hnt wid fast_mode].
Proof.
  unfold localizeChunk, bind, fetch, json, read_prop, ret, throw.
  destruct (remote env (length log) _) as [res|e]; [|reflexivity].
  destruct (ok res); simpl.
  - destruct (res_json res) as [body|m]; [|reflexivity].
    destruct (is_nullish body); [reflexivity|].
    destruct (negb (truthy (get_prop "data" body))
              && truthy (get_prop "error" body)); reflexivity.
  - destruct ((500 <=? status res) && (status res <? 600))%Z; [reflexivity|].
    destruct (status res =? 400)%Z; reflexivity.
Qed.

Lemma localize_chunks_log
      (env : Env) (config : EngineParams) (params : LocalizationParams)
      (chunks : list obj) :
  forall (processed : list value) (log : list Request),
  exists k,
    k <= length chunks /\
    snd (localize_chunks env config params (createId env) chunks processed log)
    = log ++ map (chunk_request env config params) (firstn k chunks) /\
    (forall out,
        fst (localize_chunks env config params (createId env) chunks processed log)
        = Ok out ->
        k = length chunks /\ length out = length processed + length chunks) /\
    (forall e,
        fst (localize_chunks env config params (createId env) chunks processed log)
        = Throw e -> 1 <= k).
Proof.
  induction chunks as [|c r IH]; intros processed log.
  - exists 0. simpl. rewrite app_nil_r.
    split; [lia|]. split; [reflexivity|]. split.
    + intros out H. inversion H. lia.
    + intros e H. discriminate.
  - cbn [localize_chunks]. unfold bind.
    pose proof (localizeChunk_one_request env config (sourceLocale params)
                  (targetLocale params) c (reference params) (hints params)
                  (createId env) (fast_flag params) log) as Hone.
    unfold fast_flag in Hone.
    destruct (localizeChunk env config (sourceLocale params)
                (targetLocale params) c (reference params) (hints params)
                (createId env)
                match fast params with Some true => true | _ => false end log)
      as [[data|e] log1]; simpl in Hone; subst log1.
    + destruct (IH (processed ++ [data])
                   (log ++ [chunk_request env config params c]))
        as (k & Hk & Hlog & Hok & Hthrow).
      exists (S k). split; [simpl; lia|]. split; [|split].
      * unfold chunk_request, fast_flag in *. rewrite Hlog.
        simpl. now rewrite <- app_assoc.
      * intros out H. unfold chunk_request, fast_flag in *.
        destruct (Hok out H) as [E1 E2]. rewrite length_app in E2.
        simpl in *. lia.
      * intros e H. lia.
    + exists 1. split; [simpl; lia|]. split; [reflexivity|]. split.
      * intros out H. discriminate.
      * intros e' H. lia.
Qed.

(** [_localizeRaw] merges what [localizeRaw_chunks] collects. *)
Lemma localizeRaw_merged
      (env : Env) (config : EngineParams) (payload : obj)
      (params : LocalizationParams) (log : list Request) :
  _localizeRaw env config payload params log
  = (sources <- localizeRaw_chunks env config payload params ;;
     ret (Object_assign [] sources)) log.
Proof.
  unfold _localizeRaw, localizeRaw_chunks, bind, lift.
  destruct (validateLocalizationParams params); reflexivity.
Qed.

(** X2. One request per chunk. A run of [_localizeRaw] whose parameters pass
    validation issues, in chunk order, the requests of the first [k] chunks of
    the payload, all under the one workflow identifier drawn for the run: every
    chunk's when the run succeeds, and at least one when it fails, the failing
    request being the last. *)
Theorem localizeRaw_request_log
        (env : Env) (config : EngineParams) (payload : obj)
        (params : LocalizationParams) (log : list Request) :
  targetLocale params <> "" ->
  exists k,
    k <= length (extractPayloadChunks config payload) /\
    snd (_localizeRaw env config payload params log)
    = log ++ map (chunk_request env config params)
                 (firstn k (extractPayloadChunks config payload)) /\
    (forall merged, fst (_localizeRaw env config payload params log) = Ok merged ->
                    k = length (extractPayloadChunks config payload)) /\
    (forall e, fst (_localizeRaw env config payload params log) = Throw e ->
               1 <= k).
Proof.
  intros Htarget. apply String.eqb_neq in Htarget.
  unfold _localizeRaw, bind, lift, validateLocalizationParams.
  rewrite Htarget.
  destruct (localize_chunks_log env config params
              (extractPayloadChunks config payload) [] log)
    as (k & Hk & Hlog & Hok & Hthrow).
  exists k. split; [exact Hk|].
  destruct (localize_chunks env config params (createId env)
              (extractPayloadChunks config payload) [] log)
    as [[out|e] log1]; simpl in *.
  - split; [exact Hlog|]. split.
    + intros merged _. now destruct (Hok out eq_refl).
    + intros e H. discriminate.
  - split; [exact Hlog|]. split.
    + intros merged H. discriminate.
    + intros e' _. now apply (Hthrow e).
Qed.

Lemma localizeRaw_request_log_witness :
  exists k,
    k <= 2 /\
    snd (_localizeRaw (constant_remote res_500) config_batch_of_two
                      three_strings en_es [])
    = map (chunk_request (constant_remote res_500) config_batch_of_two en_es)
          (firstn k [[("greeting", VStr "Hello"); ("farewell", VStr "Goodbye")];
                     [("question", VStr "How are you?")]]) /\
    1 <= k.
Proof.
  destruct (localizeRaw_request_log (constant_remote res_500)
              config_batch_of_two three_strings en_es [])
    as (k & Hk & Hlog & _ & Hthrow).
  - simpl. discriminate.
  - exists k. split; [exact Hk|]. split; [exact Hlog|].
    eapply Hthrow. reflexivity.
Defined.

(** X3. A missing target locale. Every entry point that goes through
    [_localizeRaw] fails with the validation error before anything is
    requested. *)
Theorem missing_target_locale
        (env : Env) (config : EngineParams) (params : LocalizationParams)
        (log : list Request) :
  targetLocale params = "" ->
  (forall o, localizeObject env config o params log
             = (Throw (Error "targetLocale is required"), log)) /\
  (forall text, localizeText env config text params log
                = (Throw (Error "targetLocale is required"), log)) /\
  (forall strings, localizeStringArray env config strings params log
                   = (Throw (Error "targetLocale is required"), log)) /\
  (forall chat, localizeChat env config chat params log
                = (Throw (Error "targetLocale is required"), log)) /\
  (forall html, localizeHtml env config None html params log
                = (Throw (Error "targetLocale is required"), log)).
Proof.
  intros Htarget.
  assert (Hraw : forall payload,
             _localizeRaw env config payload params log
             = (Throw (Error "targetLocale is required"), log)).
  { intros payload.
    unfold _localizeRaw, bind, lift, validateLocalizationParams.
    now rewrite Htarget. }
  repeat split.
  - intros o. apply Hraw.
  - intros text. unfold localizeText, localizeRaw_chunks, bind, lift,
      validateLocalizationParams. now rewrite Htarget.
  - intros strings. unfold localizeStringArray, localizeObject, bind.
    now rewrite Hraw.
  - intros chat. unfold localizeChat, bind. now rewrite Hraw.
  - intros html. unfold localizeHtml, localizeHtmlSimple, bind.
    now rewrite Hraw.
Qed.

Lemma missing_target_locale_witness :
  localizeChat (translating_remote es_prefix) test_config chat_of_two no_target []
  = (Throw (Error "targetLocale is required"), []).
Proof.
  apply (missing_target_locale (translating_remote es_prefix) test_config
           no_target [] eq_refl).
Defined.

(* ================================================================== *)
(** ** Objects: reading what was assigned *)
(* ================================================================== *)

Lemma get_own_replace_key (k k' : string) (v : value) (o : obj) :
  has_key k' o = true ->
  get_own k (replace_key k' v o) = if k' =? k then Some v else get_own k o.
Proof.
  induction o as [|[k0 v0] r IH]; simpl; [discriminate|].
  destruct (k0 =? k')%string eqn:E0.
  - apply String.eqb_eq in E0. subst k0. intros _. simpl.
    destruct (k' =? k)%string; reflexivity.
  - simpl. intros H. rewrite (IH H).
    destruct (k0 =? k)%string eqn:E1; [|reflexivity].
    apply String.eqb_eq in E1. subst k0.
    rewrite String.eqb_sym, E0. reflexivity.
Qed.

Lemma get_own_absent (k : string) (o : obj) :
  has_key k o = false -> get_own k o = None.
Proof.
  induction o as [|[k0 v0] r IH]; simpl; [reflexivity|].
  destruct (k0 =? k)%string; [discriminate|]. exact IH.
Qed.

Lemma get_own_insert_index (k k' : string) (n : N) (v : value) (o : obj) :
  has_key k' o = false ->
  get_own k (insert_index n k' v o) = if k' =? k then Some v else get_own k o.
Proof.
  induction o as [|[k0 v0] r IH]; simpl; [reflexivity|].
  destruct (k0 =? k')%string eqn:E0; [discriminate|]. simpl. intros H.
  assert (Hhere : get_own k ((k', v) :: (k0, v0) :: r)
                  = if k' =? k then Some v
                    else if k0 =? k then Some v0 else get_own k r)
    by reflexivity.
  destruct (array_index k0) as [m|]; [|exact Hhere].
  destruct (n <? m)%N; [exact Hhere|].
  simpl. rewrite (IH H).
  destruct (k0 =? k)%string eqn:E1; [|reflexivity].
  apply String.eqb_eq in E1. subst k0.
  rewrite String.eqb_sym, E0. reflexivity.
Qed.

Lemma get_own_app (k : string) (o o' : obj) :
  get_own k (o ++ o') =
  match get_own k o with Some v => Some v | None => get_own k o' end.
Proof.
  induction o as [|[k0 v0] r IH]; simpl; [reflexivity|].
  destruct (k0 =? k)%string; [reflexivity|exact IH].
Qed.

(** Reading a property after an assignment. *)
Lemma get_own_obj_set (k k' : string) (v : value) (o : obj) :
  get_own k (obj_set k' v o) =
  if k' =? "__proto__" then get_own k o
  else if k' =? k then Some v else get_own k o.
Proof.
  unfold obj_set. destruct (k' =? "__proto__")%string; [reflexivity|].
  destruct (has_key k' o) eqn:Hhas.
  - now apply get_own_replace_key.
  - destruct (array_index k') as [n|].
    + now apply get_own_insert_index.
    + rewrite get_own_app. simpl.
      destruct (k' =? k)%string eqn:E.
      * apply String.eqb_eq in E. subst k'.
        now rewrite (get_own_absent _ _ Hhas).
      * now destruct (get_own k o).
Qed.

Lemma get_own_assign_entries (k : string) (entries : obj) :
  k <> "__proto__" ->
  NoDup (map fst entries) ->
  forall target,
    get_own k (fold_left (fun t kv => obj_set (fst kv) (snd kv) t) entries target)
    = match get_own k entries with
      | Some v => Some v
      | None => get_own k target
      end.
Proof.
  intros Hk. induction entries as [|[k0 v0] r IH]; intros Hnd target;
    simpl; [reflexivity|].
  inversion Hnd as [|? ? Hnotin Hnd']; subst.
  rewrite (IH Hnd'). simpl.
  destruct (k0 =? k)%string eqn:E.
  - apply String.eqb_eq in E. subst k0.
    assert (Hnone : get_own k r = None).
    { apply get_own_absent. clear - Hnotin.
      induction r as [|[k1 v1] r IH]; simpl in *; [reflexivity|].
      destruct (k1 =? k)%string eqn:E1.
      - apply String.eqb_eq in E1. subst. tauto.
      - apply IH. tauto. }
    rewrite Hnone, get_own_obj_set.
    apply String.eqb_neq in Hk. rewrite Hk, String.eqb_refl. reflexivity.
  - destruct (get_own k r); [reflexivity|].
    rewrite get_own_obj_set, E.
    destruct (k0 =? "__proto__")%string; reflexivity.
Qed.

Lemma assign_proto_skip (entries : obj) :
  has_key "__proto__" entries = false ->
  forall st, fold_left assign_proto entries st = st.
Proof.
  induction entries as [|[k0 v0] r IH]; simpl; [reflexivity|].
  destruct (k0 =? "__proto__")%string eqn:E; [discriminate|].
  intros H st. rewrite <- (IH H st) at 2. f_equal.
  unfold assign_proto. destruct st as [proto own]. simpl. now rewrite E.
Qed.

(* ================================================================== *)
(** ** One text: proofs *)
(* ================================================================== *)

(** A payload of one string is one chunk, whatever the thresholds. *)
Lemma extractPayloadChunks_one_string (config : EngineParams) (text : string) :
  extractPayloadChunks config (text_chunk text) = [text_chunk text].
Proof.
  unfold extractPayloadChunks, text_chunk, Object_entries.
  cbn [chunk_loop length is_string].
  change (0 =? Z.of_nat 1 - 1)%Z with true.
  rewrite Bool.orb_true_r. reflexivity.
Qed.

Lemma localizeText_chunk (env : Env) (config : EngineParams) (text : string)
      (params : LocalizationParams) (log : list Request) :
  targetLocale params <> "" ->
  localizeText env config text params log
  = match localizeChunk env config (sourceLocale params) (targetLocale params)
            (text_chunk text) (reference params) (hints params)
            (createId env) (fast_flag params) log with
    | (Ok data, log') =>
        (Ok (if truthy (merged_get "text" [data])
             then merged_get "text" [data] else VStr EmptyString), log')
    | (Throw e, log') => (Throw e, log')
    end.
Proof.
  intros Htarget. apply String.eqb_neq in Htarget.
  unfold localizeText, localizeRaw_chunks, bind, lift, validateLocalizationParams.
  rewrite Htarget.
  change [("text", VStr text)] with (text_chunk text).
  rewrite extractPayloadChunks_one_string.
  cbn [localize_chunks]. unfold bind, fast_flag.
  destruct (localizeChunk env config (sourceLocale params) (targetLocale params)
              (text_chunk text) (reference params) (hints params) (createId env)
              match fast params with Some true => true | _ => false end log)
    as [[data|e] log']; reflexivity.
Qed.

(** X4. One text, one request. Whatever the text and whatever the thresholds of
    the engine, [localizeText] with a target locale issues exactly one request,
    which carries the text alone, and this whether the call succeeds or fails. *)
Theorem localizeText_one_request
        (env : Env) (config : EngineParams) (text : string)
        (params : LocalizationParams) (log : list Request) :
  targetLocale params <> "" ->
  snd (localizeText env config text params log)
  = log ++ [chunk_request env config params (text_chunk text)].
Proof.
  intros Htarget. rewrite (localizeText_chunk env config text params log Htarget).
  pose proof (localizeChunk_one_request env config (sourceLocale params)
                (targetLocale params) (text_chunk text) (reference params)
                (hints params) (createId env) (fast_flag params) log) as Hone.
  destruct (localizeChunk env config (sourceLocale params) (targetLocale params)
              (text_chunk text) (reference params) (hints params)
              (createId env) (fast_flag params) log) as [[data|e] log'];
    exact Hone.
Qed.

Lemma localizeText_one_request_witness :
  snd (localizeText (constant_remote res_500) config_smallest
                    "one two three four five" en_es [])
  = [chunk_request (constant_remote res_500) config_smallest en_es
                   (text_chunk "one two three four five")].
Proof.
  apply (localizeText_one_request (constant_remote res_500) config_smallest
           "one two three four five" en_es []).
  simpl. discriminate.
Defined.

(** X5. What [localizeText] returns. When the request is answered 2xx with a
    body whose [data] is an object (without duplicate keys and without the key
    [__proto__]), the result is the [text] entry of that object if it is
    truthy, and the empty string if it is absent or falsy: a missing
    translation is not an error. *)
Theorem localizeText_result
        (env : Env) (config : EngineParams) (text : string)
        (params : LocalizationParams) (log : list Request)
        (res : Response) (body data : obj) :
  targetLocale params <> "" ->
  remote env (length log) (chunk_request env config params (text_chunk text))
  = Resolved res ->
  ok res = true ->
  res_json res = JsonOk (VObj body) ->
  get_own "data" body = Some (VObj data) ->
  NoDup (map fst data) ->
  has_key "__proto__" data = false ->
  fst (localizeText env config text params log)
  = Ok (match get_own "text" data with
        | Some translated =>
            if truthy translated then translated else VStr EmptyString
        | None => VStr EmptyString
        end).
Proof.
  intros Htarget Hres Hok Hjson Hdata Hnd Hproto.
  rewrite (localizeText_chunk env config text params log Htarget).
  rewrite (localizeChunk_ok_body env config _ _ _ _ _ _ _ log res (VObj body)
             Hres Hok Hjson eq_refl).
  assert (Hd : get_prop "data" (VObj body) = VObj data)
    by (unfold get_prop; now rewrite Hdata).
  rewrite Hd. simpl truthy. simpl negb. rewrite Bool.andb_false_l. simpl fst.
  assert (Hget : merged_get "text" [VObj data]
                 = match get_own "text" data with
                   | Some v => v | None => VUndefined end).
  { unfold merged_get, Object_assign, assign_one, assigned_prototype.
    simpl fold_left at 1. simpl own_entries.
    rewrite (get_own_assign_entries "text" data); [|discriminate|exact Hnd].
    destruct (get_own "text" data) as [v|]; [reflexivity|]. simpl get_own.
    simpl fold_left. rewrite (assign_proto_skip data Hproto). reflexivity. }
  rewrite Hget. destruct (get_own "text" data) as [v|]; reflexivity.
Qed.

Lemma localizeText_result_witness :
  fst (localizeText (constant_remote res_hola) test_config "Hello world" en_es [])
  = Ok (VStr "Hola mundo").
Proof.
  apply (localizeText_result (constant_remote res_hola) test_config
           "Hello world" en_es [] res_hola
           [("data", VObj [("text", VStr "Hola mundo")])]
           [("text", VStr "Hola mundo")]).
  - simpl. discriminate.
  - reflexivity.
  - reflexivity.
  - reflexivity.
  - reflexivity.
  - simpl. constructor; [simpl; tauto|constructor].
  - reflexivity.
Defined.

(* ================================================================== *)
(** ** One text, many locales: proofs *)
(* ================================================================== *)

Lemma batch_calls_log (env : Env) (ids : nat -> string) (config : EngineParams)
      (text : string) (src : string) (fast_mode : option bool)
      (targetLocales : list string) :
  Forall (fun locale => locale <> "") targetLocales ->
  forall (k : nat) (log : list Request),
    snd (settle_all (batchLocalizeText_calls env ids config text src fast_mode
                                             k targetLocales) log)
    = log ++ mapi_from
               (fun j locale =>
                  chunk_request (with_id env (ids j)) config
                                (batch_params src fast_mode locale)
                                (text_chunk text))
               k targetLocales
    /\ length (fst (settle_all (batchLocalizeText_calls env ids config text src
                                                         fast_mode k targetLocales)
                               log))
       = length targetLocales.
Proof.
  induction 1 as [|locale rest Hlocale Hrest IH]; intros k log.
  - simpl. now rewrite app_nil_r.
  - cbn [batchLocalizeText_calls settle_all mapi_from].
    assert (Hone : snd (localizeText (with_id env (ids k)) config text
                                     (batch_params src fast_mode locale) log)
                   = log ++ [chunk_request (with_id env (ids k)) config
                               (batch_params src fast_mode locale)
                               (text_chunk text)]).
    { rewrite (localizeText_chunk _ config text
                 (batch_params src fast_mode locale) log Hlocale).
      pose proof (localizeChunk_one_request (with_id env (ids k)) config
                    (Some src) locale (text_chunk text) None None (ids k)
                    (fast_flag (batch_params src fast_mode locale)) log) as H1.
      cbn [sourceLocale targetLocale reference hints batch_params createId
           with_id].
      destruct (localizeChunk (with_id env (ids k)) config (Some src) locale
                  (text_chunk text) None None (ids k)
                  (fast_flag (batch_params src fast_mode locale)) log)
        as [[data|e] log']; exact H1. }
    unfold batch_params in Hone at 1.
    destruct (localizeText (with_id env (ids k)) config text _ log)
      as [x log1].
    simpl in Hone. subst log1.
    destruct (IH (S k) (log ++ [chunk_request (with_id env (ids k)) config
                                  (batch_params src fast_mode locale)
                                  (text_chunk text)])) as [IHlog IHlen].
    destruct (settle_all _ _) as [xs log2]. simpl in *.
    rewrite IHlog, <- app_assoc. split; [reflexivity|]. now rewrite IHlen.
Qed.

Lemma Promise_all_inv {A : Type} (settled : list (result A))
      (outcome : result (list A)) :
  Promise_all settled outcome ->
  match outcome with
  | Ok values => settled = map Ok values
  | Throw e => In (Throw e) settled
  end.
Proof. intros H. destruct H; auto. Qed.

(** X6. No short circuit. [batchLocalizeText] issues one request per target
    locale, in the order of the locales and each under the workflow identifier
    of its own call, whether or not some of them fail. When it resolves, every
    call has resolved and the results are in the order of the locales; when it
    fails, it fails with the error of one of its calls. *)
Theorem batchLocalizeText_requests
        (env : Env) (ids : nat -> string) (config : EngineParams)
        (text : string) (src : string) (targetLocales : list string)
        (fast_mode : option bool) (log : list Request) :
  Forall (fun locale => locale <> "") targetLocales ->
  let settled :=
    batchLocalizeText_settled env ids config text src targetLocales fast_mode log in
  snd settled
  = log ++ mapi_from
             (fun j locale =>
                chunk_request (with_id env (ids j)) config
                              (batch_params src fast_mode locale)
                              (text_chunk text))
             0 targetLocales /\
  forall outcome,
    batchLocalizeText env ids config text src targetLocales fast_mode log outcome ->
    match outcome with
    | Ok values =>
        fst settled = map Ok values /\ length values = length targetLocales
    | Throw e => In (Throw e) (fst settled)
    end.
Proof.
  intros Hlocales settled. subst settled. unfold batchLocalizeText_settled.
  destruct (batch_calls_log env ids config text src fast_mode targetLocales
              Hlocales 0 log) as [Hlog Hlen].
  split; [exact Hlog|].
  intros outcome Hall. unfold batchLocalizeText, batchLocalizeText_settled in Hall.
  apply Promise_all_inv in Hall. destruct outcome as [values|e]; [|exact Hall].
  split; [exact Hall|]. rewrite Hall, length_map in Hlen. exact Hlen.
Qed.

Lemma batchLocalizeText_requests_witness :
  snd (batchLocalizeText_settled second_fails batch_ids test_config "Hello"
                                 "en" ["es"; "fr"; "de"] None [])
  = [chunk_request (with_id second_fails "workflow-0") test_config
                   (batch_params "en" None "es") (text_chunk "Hello");
     chunk_request (with_id second_fails "workflow-1") test_config
                   (batch_params "en" None "fr") (text_chunk "Hello");
     chunk_request (with_id second_fails "workflow-2") test_config
                   (batch_params "en" None "de") (text_chunk "Hello")]
  /\ forall values,
      ~ batchLocalizeText second_fails batch_ids test_config "Hello" "en"
                          ["es"; "fr"; "de"] None [] (Ok values).
Proof.
  destruct (batchLocalizeText_requests second_fails batch_ids test_config
              "Hello" "en" ["es"; "fr"; "de"] None []) as [Hlog Hout].
  - repeat constructor; discriminate.
  - split; [exact Hlog|].
    intros values Hall. destruct (Hout (Ok values) Hall) as [Hsettled _].
    destruct values as [|v1 [|v2 values]]; vm_compute in Hsettled;
      discriminate.
Defined.

(* ================================================================== *)
(** ** Locale recognition: proofs *)
(* ================================================================== *)

(** X7. [recognizeLocale] issues exactly one request, the text alone as its
    body, and resolves exactly when that request is answered 2xx with a JSON
    body that is neither [null] nor a failure to parse; what it resolves to is
    the [locale] entry of the body, [undefined] when there is none. *)
Theorem recognizeLocale_resolves
        (env : Env) (config : EngineParams) (text : string)
        (log : list Request) :
  snd (recognizeLocale env config text log)
  = log ++ [recognize_request config text] /\
  forall locale,
    fst (recognizeLocale env config text log) = Ok locale <->
    exists res body,
      remote env (length log) (recognize_request config text) = Resolved res /\
      ok res = true /\ res_json res = JsonOk body /\
      is_nullish body = false /\ locale = get_prop "locale" body.
Proof.
  unfold recognizeLocale, bind, fetch, json, read_prop, ret, throw.
  destruct (remote env (length log) (recognize_request config text))
    as [res|e] eqn:Hres.
  - destruct (ok res) eqn:Hok; simpl negb; cbv iota.
    + destruct (res_json res) as [body|m] eqn:Hjson.
      * destruct (is_nullish body) eqn:Hnull; simpl; (split; [reflexivity|]).
        -- intros locale. split; [discriminate|].
           intros (res' & body' & E & _ & Hj & Hn & _).
           inversion E; subst res'. rewrite Hjson in Hj. inversion Hj; subst.
           congruence.
        -- intros locale. split.
           ++ intros H. inversion H. exists res, body. auto.
           ++ intros (res' & body' & E & _ & Hj & _ & Hl).
              inversion E; subst res'. rewrite Hjson in Hj. inversion Hj; subst.
              reflexivity.
      * simpl. split; [reflexivity|]. intros locale. split; [discriminate|].
        intros (res' & body' & E & _ & Hj & _).
        inversion E; subst res'. rewrite Hjson in Hj. discriminate.
    + assert (Hno : forall locale,
                 (exists res' body,
                     Resolved res = Resolved res' /\ ok res' = true /\
                     res_json res' = JsonOk body /\ is_nullish body = false /\
                     locale = get_prop "locale" body) -> False).
      { intros locale (res' & body' & E & Hok' & _).
        inversion E; subst res'. congruence. }
      destruct ((500 <=? status res) && (status res <? 600))%Z; simpl;
        (split; [reflexivity|]); intros locale;
        (split; [discriminate|]); intros H; destruct (Hno locale H).
  - simpl. split; [reflexivity|]. intros locale. split; [discriminate|].
    intros (res' & body' & E & _). discriminate.
Qed.

Lemma recognizeLocale_resolves_witness :
  fst (recognizeLocale (constant_remote res_locale) test_config
                       "Bonjour le monde" [])
  = Ok (VStr "fr").
Proof.
  destruct (recognizeLocale_resolves (constant_remote res_locale) test_config
              "Bonjour le monde" []) as [_ Hresolves].
  apply Hresolves.
  exists res_locale, (VObj [("locale", VStr "fr")]).
  repeat split; reflexivity.
Defined.

Lemma recognizeLocale_not_ok
        (env : Env) (config : EngineParams) (text : string)
        (log : list Request) (res : Response) :
  remote env (length log) (recognize_request config text) = Resolved res ->
  ok res = false ->
  fst (recognizeLocale env config text log)
  = Throw (Error (if ((500 <=? status res) && (status res <? 600))%Z
                  then server_error_message res EmptyString
                  else "Error recognizing locale: " ++ statusText res)).
Proof.
  intros Hres Hok.
  unfold recognizeLocale, bind, fetch, throw. rewrite Hres, Hok. simpl negb.
  cbv iota.
  destruct ((500 <=? status res) && (status res <? 600))%Z; reflexivity.
Qed.

(* ================================================================== *)
(** ** Identity lookup: what can go wrong *)
(* ================================================================== *)

Lemma whoami_one_request (env : Env) (config : EngineParams)
      (log : list Request) :
  snd (whoami env config log) = log ++ [whoami_request config].
Proof.
  unfold whoami, try_catch, bind, fetch, json, ret, throw.
  destruct (remote env (length log) (whoami_request config)) as [res|[n m|v]].
  - destruct (ok res).
    + destruct (res_json res) as [payload|m].
      * match goal with
        | |- context [if negb ?b then _ else _] => destruct b
        end; reflexivity.
      * destruct (includes m "Server error"); reflexivity.
    + destruct ((500 <=? status res) && (status res <? 600))%Z; [|reflexivity].
      unfold Error.
      match goal with
      | |- context [includes ?m "Server error"] =>
          destruct (includes m "Server error")
      end; reflexivity.
  - destruct (includes m "Server error"); reflexivity.
  - reflexivity.
Qed.

(** X8. [whoami] issues exactly one request and swallows every failure but one
    kind: whatever it throws is an error whose message contains ["Server
    error"]. A rejected request (a network failure, an abort) whose reason is
    not such an error resolves to [null]. *)
Theorem whoami_failures (env : Env) (config : EngineParams)
        (log : list Request) :
  snd (whoami env config log) = log ++ [whoami_request config] /\
  (forall e, fst (whoami env config log) = Throw e ->
             exists name message,
               e = ThrownError name message /\
               includes message "Server error" = true) /\
  (forall e, remote env (length log) (whoami_request config) = Rejected e ->
             (forall name message, e = ThrownError name message ->
                                   includes message "Server error" = false) ->
             fst (whoami env config log) = Ok None).
Proof.
  split; [apply whoami_one_request|]. rewrite whoami_cases. split.
  - intros e.
    destruct (remote env (length log) (whoami_request config)) as [res|[n m|v]].
    + destruct (ok res).
      * destruct (res_json res) as [payload|m].
        -- destruct (truthy (get_prop "email" payload)); discriminate.
        -- destruct (includes m "Server error") eqn:E; [|discriminate].
           intros H. inversion H. exists "SyntaxError", m. auto.
      * destruct ((500 <=? status res) && (status res <? 600))%Z; [|discriminate].
        intros H. inversion H. eexists _, _. split; [reflexivity|].
        exact (includes_prefix "Server error"
                 (" (" ++ Z_to_string (status res) ++ "): " ++ statusText res
                  ++ EmptyString
                  ++ ". This may be due to temporary service issues.")).
    + destruct (includes m "Server error") eqn:E; [|discriminate].
      intros H. inversion H. exists n, m. auto.
    + discriminate.
  - intros e He Hmsg. rewrite He. destruct e as [n m|v]; [|reflexivity].
    now rewrite (Hmsg n m eq_refl).
Qed.

Lemma whoami_failures_witness :
  snd (whoami aborting_remote test_config []) = [whoami_request test_config] /\
  fst (whoami aborting_remote test_config []) = Ok None.
Proof.
  destruct (whoami_failures aborting_remote test_config [])
    as (Hlog & _ & Hrejected).
  split; [exact Hlog|].
  apply (Hrejected (ThrownError "AbortError" "The signal has been aborted")).
  - reflexivity.
  - intros name message E. inversion E. reflexivity.
Defined.

(* ================================================================== *)
(** ** The deprecated classes: proofs *)
(* ================================================================== *)

Lemma warnings_differ : replexica_warning <> lingo_warning.
Proof. discriminate. Qed.

Lemma count_occ_snoc (l : list string) (x y : string) :
  count_occ string_dec (l ++ [y]) x
  = count_occ string_dec l x + (if string_dec y x then 1 else 0).
Proof.
  rewrite count_occ_app. simpl. destruct (string_dec y x); reflexivity.
Qed.

Lemma constructions_from (calls : list (EngineClass * PartialEngineParams)) :
  forall st,
    let final := fold_left construct calls st in
    count_occ string_dec (console_warnings final) replexica_warning
    = count_occ string_dec (console_warnings st) replexica_warning
      + (if negb (replexica_warned st) && existsb (constructs Replexica) calls
         then 1 else 0) /\
    count_occ string_dec (console_warnings final) lingo_warning
    = count_occ string_dec (console_warnings st) lingo_warning
      + (if negb (lingo_warned st) && existsb (constructs Lingo) calls
         then 1 else 0) /\
    length (console_warnings final)
    = length (console_warnings st)
      + (if negb (replexica_warned st) && existsb (constructs Replexica) calls
         then 1 else 0)
      + (if negb (lingo_warned st) && existsb (constructs Lingo) calls
         then 1 else 0).
Proof.
  induction calls as [|[class config] calls IH]; intros st.
  - simpl. rewrite !Bool.andb_false_r. lia.
  - cbn [fold_left]. specialize (IH (construct st (class, config))).
    cbv zeta in IH. destruct IH as (IHr & IHl & IHn).
    cbv zeta. rewrite IHr, IHl, IHn. clear IHr IHl IHn.
    unfold construct, constructs, ReplexicaEngine, LingoEngine.
    cbn [fst snd existsb].
    pose proof warnings_differ as Hdiff.
    destruct class; destruct (LingoDotDevEngine config) as [engine|e];
      destruct (replexica_warned st) eqn:Er;
      destruct (lingo_warned st) eqn:El;
      destruct (existsb (constructs Replexica) calls);
      destruct (existsb (constructs Lingo) calls);
      cbn [snd console_warnings replexica_warned lingo_warned negb andb orb];
      rewrite ?Er, ?El;
      cbn [negb andb orb];
      rewrite ?count_occ_snoc, ?length_app;
      repeat match goal with
             | |- context [string_dec ?a ?b] =>
                 destruct (string_dec a b); try congruence
             end;
      simpl length; lia.
Qed.

(** X9. Warned once. Over any sequence of constructions in a fresh program,
    each deprecated class gives its warning to the console exactly once if an
    engine of that class was constructed, and never otherwise: a later
    construction does not repeat it, a construction that fails on its
    configuration does not count, and [LingoDotDevEngine] itself never warns. *)
Theorem deprecation_warned_once
        (calls : list (EngineClass * PartialEngineParams)) :
  let console := console_warnings (run_constructions calls) in
  count_occ string_dec console replexica_warning
  = (if existsb (constructs Replexica) calls then 1 else 0) /\
  count_occ string_dec console lingo_warning
  = (if existsb (constructs Lingo) calls then 1 else 0) /\
  length console
  = (if existsb (constructs Replexica) calls then 1 else 0)
    + (if existsb (constructs Lingo) calls then 1 else 0).
Proof.
  exact (constructions_from calls initial_classes).
Qed.

(* ================================================================== *)
(** ** Workflow identifiers: proofs *)
(* ================================================================== *)

Lemma charAt_id_chars (n : nat) :
  n < 62 ->
  exists c, charAt id_chars n = String c EmptyString /\
            String.get n id_chars = Some c /\
            In c (list_ascii_of_string id_chars).
Proof.
  intros Hn.
  do 62 (destruct n as [|n];
         [eexists; split; [reflexivity|split; [reflexivity|]];
          vm_compute; tauto|]).
  lia.
Qed.

(** X10. [createId] returns twelve characters, the [k]-th being the character
    of the alphabet at the [k]-th draw: every character of an identifier is a
    letter or a digit. *)
Theorem createId_alphanumeric (draws : nat -> nat) :
  (forall i, i < 12 -> draws i < 62) ->
  String.length (createId_from draws) = 12 /\
  (forall k, k < 12 ->
             String.get k (createId_from draws)
             = String.get (draws k) id_chars) /\
  (forall c, In c (list_ascii_of_string (createId_from draws)) ->
             In c (list_ascii_of_string id_chars)).
Proof.
  intros Hdraws.
  unfold createId_from. cbn [createId_loop].
  destruct (charAt_id_chars (draws 0)) as (c0 & E0 & G0 & I0); [apply Hdraws; lia|].
  destruct (charAt_id_chars (draws 1)) as (c1 & E1 & G1 & I1); [apply Hdraws; lia|].
  destruct (charAt_id_chars (draws 2)) as (c2 & E2 & G2 & I2); [apply Hdraws; lia|].
  destruct (charAt_id_chars (draws 3)) as (c3 & E3 & G3 & I3); [apply Hdraws; lia|].
  destruct (charAt_id_chars (draws 4)) as (c4 & E4 & G4 & I4); [apply Hdraws; lia|].
  destruct (charAt_id_chars (draws 5)) as (c5 & E5 & G5 & I5); [apply Hdraws; lia|].
  destruct (charAt_id_chars (draws 6)) as (c6 & E6 & G6 & I6); [apply Hdraws; lia|].
  destruct (charAt_id_chars (draws 7)) as (c7 & E7 & G7 & I7); [apply Hdraws; lia|].
  destruct (charAt_id_chars (draws 8)) as (c8 & E8 & G8 & I8); [apply Hdraws; lia|].
  destruct (charAt_id_chars (draws 9)) as (c9 & E9 & G9 & I9); [apply Hdraws; lia|].
  destruct (charAt_id_chars (draws 10)) as (c10 & E10 & G10 & I10); [apply Hdraws; lia|].
  destruct (charAt_id_chars (draws 11)) as (c11 & E11 & G11 & I11); [apply Hdraws; lia|].
  rewrite E0, E1, E2, E3, E4, E5, E6, E7, E8, E9, E10, E11.
  cbn [String.append String.length list_ascii_of_string].
  split; [reflexivity|]. split.
  - intros k Hk.
    do 12 (destruct k as [|k]; [simpl; symmetry; assumption|]). lia.
  - intros c Hc. cbn [In] in Hc.
    repeat (destruct Hc as [Hc|Hc]; [subst c; assumption|]).
    destruct Hc.
Qed.

Lemma createId_alphanumeric_witness :
  createId_from sample_draws = "dkryFMT07els" /\
  String.length (createId_from sample_draws) = 12.
Proof.
  split; [reflexivity|].
  apply (createId_alphanumeric sample_draws).
  intros i _. unfold sample_draws. apply Nat.mod_upper_bound. discriminate.
Defined.

(* ================================================================== *)
(** ** Chunker: what holds of every chunk *)
(* ================================================================== *)

Lemma canonical_NoDup (o : obj) : canonical o -> NoDup (map fst o).
Proof.
  induction 1 as [|a r _ IH Hf]; simpl; constructor; [|exact IH].
  intros Hin. apply in_map_iff in Hin. destruct Hin as (b & E & Hb).
  rewrite Forall_forall in Hf. specialize (Hf b Hb).
  unfold entry_lt in Hf. apply key_lt_neq in Hf. congruence.
Qed.

Lemma canonical_filter (f : string * value -> bool) (o : obj) :
  canonical o -> canonical (filter f o).
Proof.
  induction 1 as [|a r _ IH Hf]; simpl; [constructor|].
  destruct (f a); [|exact IH]. constructor; [exact IH|].
  rewrite Forall_forall in *. intros b Hb. apply filter_In in Hb.
  apply Hf. tauto.
Qed.

Lemma string_entries_strings (o : obj) :
  Forall (fun kv => is_string (snd kv) = true) (string_entries o).
Proof.
  unfold string_entries. apply Forall_forall. intros kv H.
  apply filter_In in H. tauto.
Qed.


(** X11. The partition, where it holds. When the payload ends with a
    string-valued entry (and none of its string-valued entries is keyed
    [__proto__]), the chunks put together in order are exactly the
    string-valued entries of the payload, in their order: no such entry is
    lost, none appears twice, and the others are left out. *)
Theorem extractPayloadChunks_partitions_strings
        (config : EngineParams) (payload : obj) :
  canonical payload ->
  no_proto_strings payload ->
  last_is_string payload = true ->
  concat (extractPayloadChunks config payload) = string_entries payload /\
  NoDup (map fst (concat (extractPayloadChunks config payload))).
Proof.
  intros Hcan Hproto Hlast.
  unfold extractPayloadChunks, Object_entries.
  rewrite chunk_loop_concat; auto. simpl. split; [reflexivity|].
  apply canonical_NoDup. now apply canonical_filter.
Qed.

Lemma mixed_payload_canonical : canonical mixed_payload.
Proof. repeat constructor; unfold entry_lt, key_lt; simpl; discriminate. Qed.

Lemma mixed_payload_no_proto : no_proto_strings mixed_payload.
Proof. repeat constructor; simpl; discriminate. Qed.

Lemma extractPayloadChunks_partitions_strings_witness :
  concat (extractPayloadChunks config_two_words mixed_payload)
  = [("title", VStr "Hello world"); ("subtitle", VStr "one two three");
     ("footer", VStr "bye")].
Proof.
  apply (extractPayloadChunks_partitions_strings config_two_words mixed_payload).
  - exact mixed_payload_canonical.
  - exact mixed_payload_no_proto.
  - reflexivity.
Defined.








Lemma chunk_loop_budget (config : EngineParams) (len : Z) (rest : obj) :
  forall (i : Z) (currentChunk : obj) (count : Z) (result : list obj),
    canonical (currentChunk ++ rest) ->
    no_proto_strings rest ->
    (countWordsInRecord (VObj currentChunk) <= word_budget config)%Z ->
    Forall (fun chunk => (countWordsInRecord (VObj (removelast chunk))
                          <= word_budget config)%Z) result ->
    Forall (fun chunk => (countWordsInRecord (VObj (removelast chunk))
                          <= word_budget config)%Z)
           (chunk_loop config len rest i currentChunk count result).
Proof.
  induction rest as [|[key value] rest IH];
    intros i cur count result Hcan Hproto Hcur Hres; [exact Hres|].
  destruct (sorted_middle _ _ _ _ Hcan) as (Hbelow & Hskip & Hsuffix).
  apply Forall_cons_iff in Hproto. destruct Hproto as [Hkey Hproto].
  simpl in Hkey. cbn [chunk_loop].
  destruct (is_string value) eqn:Hstr; [|now apply IH].
  rewrite (obj_set_append key value cur (Hkey eq_refl) Hbelow).
  fold (word_budget config).
  destruct (countWordsInRecord (VObj (cur ++ [(key, value)]))
            >? word_budget config)%Z eqn:Hover.
  - cbn [orb]. apply IH; [exact Hsuffix|exact Hproto|..].
    + change (countWordsInRecord (VObj [])) with 0%Z.
      pose proof (Z.gtb_spec (countWordsInRecord (VObj (cur ++ [(key, value)])))
                    (word_budget config)) as Hs.
      rewrite Hover in Hs. inversion Hs.
      assert (H0 : (0 <= countWordsInRecord (VObj cur))%Z).
      { clear. simpl. rewrite reduce_sum.
        induction cur as [|kv r IHr]; simpl; [lia|].
        assert (Hkv : (0 <= countWordsInRecord (snd kv))%Z).
        { generalize (snd kv). clear. intros v.
          induction v using value_nested_ind; simpl; try lia.
          - rewrite reduce_sum. induction H; simpl; lia.
          - rewrite reduce_sum. induction H; simpl; lia. }
        lia. }
      lia.
    + apply Forall_app. split; [exact Hres|]. constructor; [|constructor].
      now rewrite removelast_last.
  - cbn [orb].
    match goal with |- Forall _ (if ?c then _ else _) => destruct c end.
    + apply IH; [exact Hsuffix|exact Hproto|..].
      * change (countWordsInRecord (VObj [])) with 0%Z.
        pose proof (Z.gtb_spec (countWordsInRecord (VObj (cur ++ [(key, value)])))
                      (word_budget config)) as Hs.
        rewrite Hover in Hs. inversion Hs.
        assert (H0 : (0 <= countWordsInRecord (VObj (cur ++ [(key, value)])))%Z).
        { generalize (cur ++ [(key, value)]). clear. intros o.
          simpl. rewrite reduce_sum.
          induction o as [|kv r IHr]; simpl; [lia|].
          assert (Hkv : (0 <= countWordsInRecord (snd kv))%Z).
          { generalize (snd kv). clear. intros v.
            induction v using value_nested_ind; simpl; try lia.
            - rewrite reduce_sum. induction H; simpl; lia.
            - rewrite reduce_sum. induction H; simpl; lia. }
          lia. }
        lia.
      * apply Forall_app. split; [exact Hres|]. constructor; [|constructor].
        now rewrite removelast_last.
    + apply IH; [now rewrite <- app_assoc|exact Hproto| |exact Hres].
      pose proof (Z.gtb_spec (countWordsInRecord (VObj (cur ++ [(key, value)])))
                    (word_budget config)) as Hs.
      rewrite Hover in Hs. inversion Hs. lia.
Qed.

(** X13. The word budget is overshot by one entry at most. With a budget that
    is not negative, every chunk without its last entry counts no more words
    than the budget: a chunk is closed by the entry that takes it over the
    budget, so it may exceed the budget, but only by the words of that entry. *)
Theorem extractPayloadChunks_word_budget
        (config : EngineParams) (payload : obj) :
  canonical payload ->
  no_proto_strings payload ->
  (0 <= idealBatchItemSize config)%Z ->
  Forall (fun chunk => (countWordsInRecord (VObj (removelast chunk))
                        <= word_budget config)%Z)
         (extractPayloadChunks config payload).
Proof.
  intros Hcan Hproto Hbudget.
  unfold extractPayloadChunks, Object_entries.
  apply chunk_loop_budget; [exact Hcan|exact Hproto| |constructor].
  change (countWordsInRecord (VObj [])) with 0%Z.
  unfold word_budget, or_default.
  destruct (idealBatchItemSize config =? 0)%Z; lia.
Qed.

Lemma extractPayloadChunks_word_budget_witness :
  extractPayloadChunks config_two_words mixed_payload
  = [[("title", VStr "Hello world"); ("subtitle", VStr "one two three")];
     [("footer", VStr "bye")]] /\
  Forall (fun chunk => (countWordsInRecord (VObj (removelast chunk)) <= 2)%Z)
         (extractPayloadChunks config_two_words mixed_payload).
Proof.
  split; [reflexivity|].
  apply (extractPayloadChunks_word_budget config_two_words mixed_payload).
  - exact mixed_payload_canonical.
  - exact mixed_payload_no_proto.
  - simpl. lia.
Defined.

Lemma chunk_loop_without_strings (config : EngineParams) (len : Z)
      (rest : obj) :
  Forall (fun kv => is_string (snd kv) = false) rest ->
  forall (i : Z) (currentChunk : obj) (count : Z) (result : list obj),
    chunk_loop config len rest i currentChunk count result = result.
Proof.
  induction 1 as [|[key value] rest Hkv _ IH]; intros i cur count result;
    [reflexivity|].
  simpl in Hkv. cbn [chunk_loop]. rewrite Hkv. apply IH.
Qed.

(** X14. Nothing to translate, nothing sent. For an object none of whose
    top-level values is a string (numbers, booleans, nested objects and arrays
    only, or no entry at all), [localizeObject] with a target locale issues no
    request and resolves to the empty object: strings nested in objects or
    arrays are not looked for. [localizeChat] on the empty chat likewise
    resolves to the empty array without a request. *)
Theorem localizeObject_without_strings
        (env : Env) (config : EngineParams) (o : obj)
        (params : LocalizationParams) (log : list Request) :
  targetLocale params <> "" ->
  Forall (fun kv => is_string (snd kv) = false) o ->
  extractPayloadChunks config o = [] /\
  localizeObject env config o params log = (Ok [], log) /\
  localizeChat env config [] params log = (Ok [], log).
Proof.
  intros Htarget Hnone. apply String.eqb_neq in Htarget.
  assert (Hchunks : extractPayloadChunks config o = []).
  { unfold extractPayloadChunks, Object_entries.
    now apply chunk_loop_without_strings. }
  split; [exact Hchunks|]. split.
  - unfold localizeObject, _localizeRaw, bind, lift, validateLocalizationParams.
    rewrite Htarget, Hchunks. reflexivity.
  - unfold localizeChat, _localizeRaw, bind, lift, validateLocalizationParams.
    rewrite Htarget. reflexivity.
Qed.

Lemma localizeObject_without_strings_witness :
  localizeObject (translating_remote es_prefix) test_config
                 payload_without_strings en_es []
  = (Ok [], []).
Proof.
  apply (localizeObject_without_strings (translating_remote es_prefix)
           test_config payload_without_strings en_es []).
  - simpl. discriminate.
  - repeat constructor.
Defined.

(* ================================================================== *)
(** ** Synthesized keys, whatever the prefix *)
(* ================================================================== *)

Section SynthesizedKeys.
Variable key : nat -> string.
Hypothesis key_inj : forall i j, key i = key j -> i = j.
Hypothesis key_not_index : forall i, array_index (key i) = None.
Hypothesis key_not_proto : forall i, key i <> "__proto__".

Lemma key_lt_synthesized (i j : nat) : i <> j -> key_lt (key i) (key j).
Proof.
  intros Hij. unfold key_lt. rewrite !key_not_index.
  intros E. apply Hij. now apply key_inj.
Qed.

Lemma synthesized_keys_from {A : Type} (g : nat -> A -> value) (l : list A) :
  forall i, Forall (fun kv => exists j, i <= j /\ fst kv = key j)
                   (mapi_from (fun j x => (key j, g j x)) i l).
Proof.
  induction l as [|x r IH]; intros i; simpl; constructor.
  - exists i. split; [lia | reflexivity].
  - eapply Forall_impl; [|apply (IH (S i))].
    intros kv (j & Hj & E). exists j. split; [lia | exact E].
Qed.

Lemma synthesized_canonical {A : Type} (g : nat -> A -> value) (l : list A) :
  forall i, canonical (mapi_from (fun j x => (key j, g j x)) i l).
Proof.
  induction l as [|x r IH]; intros i; simpl; constructor.
  - apply IH.
  - eapply Forall_impl; [|apply (synthesized_keys_from g r (S i))].
    intros kv (j & Hj & E). unfold entry_lt. simpl. rewrite E.
    apply key_lt_synthesized. lia.
Qed.

Lemma synthesized_no_proto {A : Type} (g : nat -> A -> value) (l : list A) :
  forall i, Forall (fun kv => fst kv <> "__proto__")
                   (mapi_from (fun j x => (key j, g j x)) i l).
Proof.
  induction l as [|x r IH]; intros i; simpl; constructor.
  - apply key_not_proto.
  - apply IH.
Qed.

Lemma synthesized_strings (l : list string) :
  forall i, Forall (fun kv => is_string (snd kv) = true)
                   (mapi_from (fun j s => (key j, VStr s)) i l).
Proof. induction l as [|x r IH]; intros i; simpl; constructor; auto. Qed.

Lemma synthesized_record (prefix : string) (texts : list string) :
  (forall j, (prefix ++ nat_to_string j)%string = key j) ->
  forall (i : nat) (acc : obj),
    Forall (fun kv => exists j, j < i /\ fst kv = key j) acc ->
    keyed_record prefix texts i acc
    = acc ++ mapi_from (fun j s => (key j, VStr s)) i texts.
Proof.
  intros Hkey.
  induction texts as [|s r IH]; intros i acc Hacc; simpl.
  - now rewrite app_nil_r.
  - rewrite Hkey, obj_set_append.
    + rewrite IH.
      * now rewrite <- app_assoc.
      * apply Forall_app. split.
        -- eapply Forall_impl; [|exact Hacc].
           intros kv (j & Hj & E). exists j. split; [lia | exact E].
        -- constructor; [|constructor]. exists i. split; [lia | reflexivity].
    + apply key_not_proto.
    + eapply Forall_impl; [|exact Hacc].
      intros kv (j & Hj & E). rewrite E. apply key_lt_synthesized. lia.
Qed.

End SynthesizedKeys.

Lemma item_key_inj (i j : nat) : item_key i = item_key j -> i = j.
Proof.
  unfold item_key. simpl. intros E. inversion E. now apply nat_to_string_inj.
Qed.

Lemma item_key_not_index (i : nat) : array_index (item_key i) = None.
Proof. reflexivity. Qed.

Lemma item_key_not_proto (i : nat) : item_key i <> "__proto__".
Proof. unfold item_key. simpl. discriminate. Qed.

(** X15. The records of [localizeStringArray] and [localizeChat] hold one entry
    per element, in the order of the elements: no two indices are given the
    same key, and no key is moved by the enumeration order of objects. The
    index [localizeChat] reads back off a key it made is the index the key was
    made from. *)
Theorem synthesized_records (texts : list string) :
  keyed_record "item_" texts 0 []
  = mapi_from (fun i s => (item_key i, VStr s)) 0 texts /\
  keyed_record "chat_" texts 0 []
  = mapi_from (fun i s => (chat_key i, VStr s)) 0 texts /\
  (forall i j, i <> j -> item_key i <> item_key j /\ chat_key i <> chat_key j) /\
  (forall i, parsed_index (chat_key i) = Some (Z.of_nat i)).
Proof.
  split; [|split; [|split]].
  - now rewrite (synthesized_record item_key item_key_inj item_key_not_index
                   item_key_not_proto "item_" texts (fun j => eq_refl) 0 [])
      by constructor.
  - now rewrite (synthesized_record chat_key chat_key_inj chat_key_not_index
                   chat_key_not_proto "chat_" texts (fun j => eq_refl) 0 [])
      by constructor.
  - intros i j Hij. split; intros E; apply Hij;
      [now apply item_key_inj | now apply chat_key_inj].
  - apply parsed_index_chat_key.
Qed.

Lemma synthesized_records_witness :
  keyed_record "item_" ["apple"; "banana"] 0 []
  = [("item_0", VStr "apple"); ("item_1", VStr "banana")] /\
  item_key 0 <> item_key 1.
Proof.
  destruct (synthesized_records ["apple"; "banana"])
    as (Hitems & _ & Hdistinct & _).
  split; [exact Hitems|].
  apply (Hdistinct 0 1). discriminate.
Defined.

(* ================================================================== *)
(** ** Objects and arrays of strings: proofs *)
(* ================================================================== *)




Lemma map_M_String_strings (l : list string) (log : list Request) :
  map_M String_ (map VStr l) log = (Ok l, log).
Proof.
  induction l as [|s r IH]; simpl; [reflexivity|].
  unfold bind. simpl. rewrite IH. reflexivity.
Qed.

(** X17. Arrays keep their order. Against a remote end that answers in order,
    [localizeStringArray] resolves to an array of the same length whose element
    at each index is the translation of the input string at that index. *)
Theorem localizeStringArray_in_order
        (env : Env) (config : EngineParams) (strings : list string)
        (params : LocalizationParams) (tr : string -> value -> string)
        (log : list Request) :
  targetLocale params <> "" ->
  answers_in_order env tr ->
  fst (localizeStringArray env config strings params log)
  = Ok (mapi_from (fun i s => tr (item_key i) (VStr s)) 0 strings).
Proof.
  intros Htarget Hremote. unfold localizeStringArray, localizeObject, bind.
  rewrite (synthesized_record item_key item_key_inj item_key_not_index
             item_key_not_proto "item_" strings (fun j => eq_refl) 0 [])
    by constructor.
  rewrite app_nil_l.
  destruct (localizeRaw_in_order env config params tr
              (mapi_from (fun j s => (item_key j, VStr s)) 0 strings)
              log Htarget Hremote) as [log' E].
  - apply (synthesized_canonical item_key item_key_inj item_key_not_index).
  - apply synthesized_strings.
  - apply (synthesized_no_proto item_key item_key_not_proto).
  - rewrite E. unfold Object_values.
    rewrite !map_mapi_from. unfold translate_entry. cbn [fst snd].
    rewrite <- (map_mapi_from (fun j s => tr (item_key j) (VStr s)) VStr).
    rewrite map_M_String_strings. reflexivity.
Qed.

Lemma localizeStringArray_in_order_witness :
  fst (localizeStringArray (translating_remote es_prefix) config_batch_of_two
                           ["apple"; "banana"; "orange"] en_es [])
  = Ok ["ES:apple"; "ES:banana"; "ES:orange"].
Proof.
  apply (localizeStringArray_in_order (translating_remote es_prefix)
           config_batch_of_two ["apple"; "banana"; "orange"] en_es es_prefix []).
  - simpl. discriminate.
  - intros n req. eexists _, _. repeat split; reflexivity.
Defined.

(* ================================================================== *)
(** ** The edge function: proofs *)
(* ================================================================== *)

Lemma error_response_status (error : thrown) :
  In (h_status (error_response error)) handler_statuses /\
  In allow_origin (h_headers (error_response error)).
Proof.
  unfold error_response, handler_statuses.
  destruct error as [name message|v]; simpl.
  - destruct (name =? "AbortError")%string; simpl; [tauto|].
    destruct (includes message "Server error"); simpl; [tauto|].
    destruct (includes message "Invalid request"); simpl; tauto.
  - tauto.
Qed.

(** X18. The edge function always answers. Whatever the request and whatever
    the engine and the remote end do, the handler resolves to a response (it
    never rejects) whose status is one of 200, 400, 405, 408, 500 and 502 and
    which carries the header that allows every origin. A request whose method
    is not POST is answered without any request to the engine: 200 for OPTIONS
    and 405 for every other method. *)
Theorem handler_always_answers
        (env : Env) (config : EngineParams) (DOMParser : option DomHost)
        (method : string) (body : string + TranslationRequest)
        (log : list Request) :
  exists response,
    fst (handler env config DOMParser method body log) = Ok response /\
    In (h_status response) handler_statuses /\
    In allow_origin (h_headers response) /\
    (method <> "POST" ->
     snd (handler env config DOMParser method body log) = log /\
     h_status response = if method =? "OPTIONS" then 200%Z else 405%Z).
Proof.
  unfold handler.
  destruct (method =? "OPTIONS")%string eqn:Hoptions.
  - eexists. split; [reflexivity|]. unfold handler_statuses. simpl.
    repeat split; tauto.
  - destruct (method =? "POST")%string eqn:Hpost; simpl negb; cbv iota.
    + apply String.eqb_eq in Hpost.
      unfold try_catch, bind, ret.
      destruct body as [message|requestData]; simpl.
      * eexists. split; [reflexivity|].
        destruct (error_response_status (ThrownError "SyntaxError" message)).
        repeat split; try assumption; congruence.
      * destruct (dispatch env config DOMParser requestData log)
          as [[result|e] log'].
        -- eexists. split; [reflexivity|]. unfold handler_statuses. simpl.
           repeat split; try tauto; congruence.
        -- eexists. split; [reflexivity|].
           destruct (error_response_status e).
           repeat split; try assumption; congruence.
    + eexists. split; [reflexivity|]. unfold handler_statuses. simpl.
      repeat split; tauto.
Qed.

Lemma handler_always_answers_witness :
  exists response,
    fst (handler (translating_remote es_prefix) test_config None "GET"
                 (inr text_request) []) = Ok response /\
    snd (handler (translating_remote es_prefix) test_config None "GET"
                 (inr text_request) []) = [] /\
    h_status response = 405%Z.
Proof.
  destruct (handler_always_answers (translating_remote es_prefix) test_config
              None "GET" (inr text_request) [])
    as (response & Hresponse & _ & _ & Hmethod).
  exists response. split; [exact Hresponse|].
  apply Hmethod. discriminate.
Defined.

Lemma handler_post (env : Env) (config : EngineParams)
      (DOMParser : option DomHost) (requestData : TranslationRequest)
      (log : list Request) :
  handler env config DOMParser "POST" (inr requestData) log
  = match dispatch env config DOMParser requestData log with
    | (Ok result, log') =>
        (Ok {| h_status := 200;
               h_headers := [json_content; allow_origin];
               h_body := JsonBody (VObj [("success", VBool true);
                                         ("data", result)]) |}, log')
    | (Throw e, log') => (Ok (error_response e), log')
    end.
Proof.
  unfold handler, try_catch, bind, ret. simpl.
  destruct (dispatch env config DOMParser requestData log) as [[result|e] log'];
    reflexivity.
Qed.

Lemma required_message_status (message : string) :
  In message ["Text is required for text translation";
              "Object is required for object translation";
              "Chat is required for chat translation";
              "HTML is required for HTML translation";
              "Text is required for language detection"] ->
  h_status (error_response (Error message)) = 500%Z.
Proof.
  intros H. repeat (destruct H as [H|H]; [subst message; reflexivity|]).
  destruct H.
Qed.

(** X19. A request without its input. A POST whose body names no known type, or
    lacks the input its type needs, is answered without any request to the
    engine, with the failure envelope; when the type is a known one the status
    is 500. *)
Theorem handler_missing_input
        (env : Env) (config : EngineParams) (DOMParser : option DomHost)
        (requestData : TranslationRequest) (log : list Request) :
  input_present requestData = false ->
  exists message,
    handler env config DOMParser "POST" (inr requestData) log
    = (Ok (error_response (Error message)), log) /\
    (In (r_type requestData) known_types ->
     h_status (error_response (Error message)) = 500%Z).
Proof.
  intros Hmissing. rewrite handler_post.
  unfold input_present in Hmissing. unfold dispatch, known_types.
  destruct (r_type requestData =? "text")%string eqn:Htext.
  { simpl in Hmissing. destruct (r_text requestData) as [[|c t]|];
      try discriminate; (eexists; split; [reflexivity|]); intros _;
      reflexivity. }
  destruct (r_type requestData =? "object")%string eqn:Hobject.
  { apply String.eqb_eq in Hobject. rewrite Hobject in Hmissing.
    simpl in Hmissing. destruct (r_object requestData); [discriminate|].
    eexists. split; [reflexivity|]. intros _. reflexivity. }
  destruct (r_type requestData =? "chat")%string eqn:Hchat.
  { apply String.eqb_eq in Hchat. rewrite Hchat in Hmissing.
    simpl in Hmissing. destruct (r_chat requestData); [discriminate|].
    eexists. split; [reflexivity|]. intros _. reflexivity. }
  destruct (r_type requestData =? "html")%string eqn:Hhtml.
  { apply String.eqb_eq in Hhtml. rewrite Hhtml in Hmissing.
    simpl in Hmissing. destruct (r_html requestData) as [[|c t]|];
      try discriminate; (eexists; split; [reflexivity|]); intros _;
      reflexivity. }
  destruct (r_type requestData =? "detect")%string eqn:Hdetect.
  { simpl in Hmissing. destruct (r_text requestData) as [[|c t]|];
      try discriminate; (eexists; split; [reflexivity|]); intros _;
      reflexivity. }
  eexists. split; [reflexivity|].
  intros Hknown. simpl in Hknown.
  apply String.eqb_neq in Htext, Hobject, Hchat, Hhtml, Hdetect.
  intuition congruence.
Qed.

Lemma handler_missing_input_witness :
  exists message,
    handler (translating_remote es_prefix) test_config None "POST"
            (inr chat_without_input) []
    = (Ok (error_response (Error message)), []) /\
    h_status (error_response (Error message)) = 500%Z.
Proof.
  destruct (handler_missing_input (translating_remote es_prefix) test_config
              None chat_without_input [] eq_refl) as (message & Hanswer & Hstatus).
  exists message. split; [exact Hanswer|].
  apply Hstatus. simpl. tauto.
Defined.

Lemma localizeChunk_not_ok
      (env : Env) (config : EngineParams) (src : option string) (tgt : string)
      (data : obj) (ref hnt : option value) (wid : string) (fast_mode : bool)
      (log : list Request) (res : Response) :
  remote env (length log) (i18n_request config src tgt data ref hnt wid fast_mode)
  = Resolved res ->
  ok res = false ->
  localizeChunk env config src tgt data ref hnt wid fast_mode log
  = (Throw (Error (if ((500 <=? status res) && (status res <? 600))%Z
                   then server_error_message res (". " ++ res_text res)
                   else if (status res =? 400)%Z
                        then "Invalid request: " ++ statusText res
                        else res_text res)),
     log ++ [i18n_request config src tgt data ref hnt wid fast_mode]).
Proof.
  intros Hres Hok. unfold localizeChunk, bind, fetch, throw.
  rewrite Hres, Hok. simpl negb. cbv iota.
  destruct ((500 <=? status res) && (status res <? 600))%Z; [reflexivity|].
  destruct (status res =? 400)%Z; reflexivity.
Qed.

Lemma localizeChunk_rejected
      (env : Env) (config : EngineParams) (src : option string) (tgt : string)
      (data : obj) (ref hnt : option value) (wid : string) (fast_mode : bool)
      (log : list Request) (e : thrown) :
  remote env (length log) (i18n_request config src tgt data ref hnt wid fast_mode)
  = Rejected e ->
  localizeChunk env config src tgt data ref hnt wid fast_mode log
  = (Throw e, log ++ [i18n_request config src tgt data ref hnt wid fast_mode]).
Proof.
  intros Hres. unfold localizeChunk, bind, fetch. now rewrite Hres.
Qed.

Lemma dispatch_text (env : Env) (config : EngineParams)
      (DOMParser : option DomHost) (requestData : TranslationRequest)
      (text : string) :
  r_type requestData = "text" ->
  r_text requestData = Some text -> text <> "" ->
  dispatch env config DOMParser requestData
  = localizeText env config text (request_params requestData).
Proof.
  intros Htype Htext Hne. unfold dispatch. rewrite Htype, Htext. simpl.
  destruct text; [congruence|reflexivity].
Qed.

Lemma dispatch_detect (env : Env) (config : EngineParams)
      (DOMParser : option DomHost) (requestData : TranslationRequest)
      (text : string) :
  r_type requestData = "detect" ->
  r_text requestData = Some text -> text <> "" ->
  dispatch env config DOMParser requestData
  = recognizeLocale env config text.
Proof.
  intros Htype Htext Hne. unfold dispatch. rewrite Htype, Htext. simpl.
  destruct text; [congruence|reflexivity].
Qed.

Lemma error_status_of_message (message : string) :
  h_status (error_response (Error message))
  = (if includes message "Server error" then 502
     else if includes message "Invalid request" then 400 else 500)%Z.
Proof.
  unfold error_response, Error. simpl String.eqb. cbv iota.
  destruct (includes message "Server error"); [reflexivity|].
  destruct (includes message "Invalid request"); reflexivity.
Qed.

Lemma server_error_status (res : Response) (detail : string) :
  h_status (error_response (Error (server_error_message res detail))) = 502%Z.
Proof.
  unfold error_response, Error. simpl String.eqb. cbv iota.
  replace (includes (server_error_message res detail) "Server error") with true.
  - reflexivity.
  - symmetry.
    exact (includes_prefix "Server error"
             (" (" ++ Z_to_string (status res) ++ "): " ++ statusText res
              ++ detail ++ ". This may be due to temporary service issues.")).
Qed.

(** X20. How the edge function reports a failed translation of a text. For a
    POST of type [text] with a text and a target locale, the handler issues the
    one request of [localizeText]; when the remote end answers with a status
    from 500 to 599 the handler answers 502, and when the request is aborted
    (as the timer of the handler does after thirty seconds) it answers 408 with
    the message ["Request timed out"]. *)
Theorem handler_text_failures
        (env : Env) (config : EngineParams) (DOMParser : option DomHost)
        (requestData : TranslationRequest) (text : string)
        (log : list Request) :
  r_type requestData = "text" ->
  r_text requestData = Some text -> text <> "" ->
  r_targetLocale requestData <> "" ->
  let request :=
    chunk_request env config (request_params requestData) (text_chunk text) in
  let answer := handler env config DOMParser "POST" (inr requestData) log in
  snd answer = log ++ [request] /\
  (forall res,
      remote env (length log) request = Resolved res ->
      (500 <= status res <= 599)%Z ->
      exists response, fst answer = Ok response /\ h_status response = 502%Z) /\
  (forall message,
      remote env (length log) request
      = Rejected (ThrownError "AbortError" message) ->
      fst answer
      = Ok {| h_status := 408;
              h_headers := [json_content; allow_origin];
              h_body := JsonBody (VObj [("success", VBool false);
                                        ("error", VStr "Request timed out")]) |}).
Proof.
  intros Htype Htext Hne Htarget request answer. subst request answer.
  rewrite handler_post, (dispatch_text _ _ _ _ text Htype Htext Hne).
  assert (Htarget' : targetLocale (request_params requestData) <> "")
    by exact Htarget.
  split; [|split].
  - pose proof (localizeText_chunk env config text (request_params requestData)
                  log Htarget') as E.
    pose proof (localizeChunk_one_request env config
                  (sourceLocale (request_params requestData))
                  (targetLocale (request_params requestData))
                  (text_chunk text)
                  (reference (request_params requestData))
                  (hints (request_params requestData))
                  (createId env) (fast_flag (request_params requestData)) log)
      as Hone.
    rewrite E.
    destruct (localizeChunk env config _ _ (text_chunk text) _ _ _ _ log)
      as [[data|e] log']; exact Hone.
  - intros res Hres H5.
    rewrite (localizeText_chunk env config text (request_params requestData)
               log Htarget').
    unfold chunk_request in Hres.
    rewrite (localizeChunk_not_ok env config _ _ _ _ _ _ _ log res Hres
               (ok_false_of_5xx res H5)).
    replace ((500 <=? status res) && (status res <? 600))%Z with true by lia.
    eexists. split; [reflexivity|]. apply server_error_status.
  - intros message Hres.
    rewrite (localizeText_chunk env config text (request_params requestData)
               log Htarget').
    unfold chunk_request in Hres.
    rewrite (localizeChunk_rejected env config _ _ _ _ _ _ _ log _ Hres).
    reflexivity.
Qed.

Lemma handler_text_failures_witness :
  fst (handler aborting_remote test_config None "POST" (inr text_request) [])
  = Ok {| h_status := 408;
          h_headers := [json_content; allow_origin];
          h_body := JsonBody (VObj [("success", VBool false);
                                    ("error", VStr "Request timed out")]) |}.
Proof.
  assert (Htext : "Hello, world!" <> EmptyString) by discriminate.
  assert (Htarget : r_targetLocale text_request <> EmptyString)
    by (simpl; discriminate).
  destruct (handler_text_failures aborting_remote test_config None text_request
              "Hello, world!" [] eq_refl eq_refl Htext Htarget)
    as (_ & _ & Habort).
  apply (Habort "The signal has been aborted"). reflexivity.
Defined.

(** X21. One answer, two statuses. When the remote end answers 400 (with a
    status text that mentions neither ["Server error"] nor ["Invalid
    request"]), the edge function answers 400 to a request of type [text],
    whose error is the invalid-request error of [localizeChunk], and 500 to a
    request of type [detect], whose error [recognizeLocale] words otherwise. *)
Theorem handler_bad_request_statuses
        (env : Env) (config : EngineParams) (DOMParser : option DomHost)
        (requestData : TranslationRequest) (text : string)
        (log : list Request) (res : Response) :
  r_text requestData = Some text -> text <> "" ->
  status res = 400%Z ->
  includes (statusText res) "Server error" = false ->
  includes (statusText res) "Invalid request" = false ->
  let answer := handler env config DOMParser "POST" (inr requestData) log in
  (r_type requestData = "text" ->
   r_targetLocale requestData <> "" ->
   remote env (length log)
          (chunk_request env config (request_params requestData)
                         (text_chunk text)) = Resolved res ->
   exists response, fst answer = Ok response /\ h_status response = 400%Z) /\
  (r_type requestData = "detect" ->
   remote env (length log) (recognize_request config text) = Resolved res ->
   exists response, fst answer = Ok response /\ h_status response = 500%Z).
Proof.
  intros Htext Hne Hstatus Hserver Hinvalid answer. subst answer.
  assert (Hok : ok res = false) by (apply ok_false_of_400; exact Hstatus).
  rewrite handler_post. split.
  - intros Htype Htarget Hres.
    rewrite (dispatch_text _ _ _ _ text Htype Htext Hne).
    rewrite (localizeText_chunk env config text (request_params requestData)
               log Htarget).
    unfold chunk_request in Hres.
    rewrite (localizeChunk_not_ok env config _ _ _ _ _ _ _ log res Hres Hok).
    rewrite Hstatus. simpl andb. cbv iota. simpl Z.eqb. cbv iota.
    eexists. split; [reflexivity|].
    rewrite error_status_of_message.
    replace (includes ("Invalid request: " ++ statusText res) "Server error")
      with (includes (statusText res) "Server error") by reflexivity.
    rewrite Hserver.
    replace (includes ("Invalid request: " ++ statusText res) "Invalid request")
      with true
      by (symmetry;
          exact (includes_prefix "Invalid request" (": " ++ statusText res))).
    reflexivity.
  - intros Htype Hres.
    rewrite (dispatch_detect _ _ _ _ text Htype Htext Hne).
    pose proof (recognizeLocale_not_ok env config text log res Hres Hok) as E.
    replace ((500 <=? status res) && (status res <? 600))%Z with false in E
      by lia.
    destruct (recognizeLocale env config text log) as [r log'].
    cbn [fst] in E. subst r.
    eexists. split; [reflexivity|].
    rewrite error_status_of_message.
    replace (includes ("Error recognizing locale: " ++ statusText res)
                      "Server error")
      with (includes (statusText res) "Server error") by reflexivity.
    replace (includes ("Error recognizing locale: " ++ statusText res)
                      "Invalid request")
      with (includes (statusText res) "Invalid request") by reflexivity.
    rewrite Hserver, Hinvalid. reflexivity.
Qed.

Lemma handler_bad_request_statuses_witness :
  (exists response,
      fst (handler (constant_remote res_bad_request) test_config None "POST"
                   (inr text_request) []) = Ok response /\
      h_status response = 400%Z) /\
  (exists response,
      fst (handler (constant_remote res_bad_request) test_config None "POST"
                   (inr detect_request) []) = Ok response /\
      h_status response = 500%Z).
Proof.
  split.
  - apply (handler_bad_request_statuses (constant_remote res_bad_request)
             test_config None text_request "Hello, world!" [] res_bad_request);
      try reflexivity; discriminate.
  - apply (handler_bad_request_statuses (constant_remote res_bad_request)
             test_config None detect_request "Hello, world!" [] res_bad_request);
      try reflexivity; discriminate.
Defined.

(* ================================================================== *)
(** ** HTML: the language attribute *)
(* ================================================================== *)

Lemma localize_chunks_nothing
      (env : Env) (config : EngineParams) (params : LocalizationParams)
      (wid : string) :
  answers_nothing env ->
  forall (chunks : list obj) (processed : list value) (log : list Request),
  exists log',
    localize_chunks env config params wid chunks processed log
    = (Ok (processed ++ map (fun _ => VObj []) chunks), log').
Proof.
  intros Hremote chunks.
  induction chunks as [|c r IH]; intros processed log; simpl.
  - exists log. now rewrite app_nil_r.
  - unfold bind.
    set (fm := match fast params with Some true => true | _ => false end).
    destruct (Hremote (length log)
                (i18n_request config (sourceLocale params) (targetLocale params)
                              c (reference params) (hints params) wid fm))
      as (res & body & Hres & Hok & Hjson & Hnn & Hdata).
    rewrite (localizeChunk_ok_body env config _ _ c _ _ wid fm log res body
               Hres Hok Hjson Hnn).
    rewrite Hdata. simpl.
    destruct (IH (processed ++ [VObj []])
                 (log ++ [i18n_request config (sourceLocale params)
                            (targetLocale params) c (reference params)
                            (hints params) wid fm])) as [log' E].
    exists log'. rewrite E, <- app_assoc. reflexivity.
Qed.

Lemma Object_assign_nothing {A : Type} (l : list A) (target : obj) :
  Object_assign target (map (fun _ => VObj []) l) = target.
Proof.
  unfold Object_assign. induction l as [|x r IH]; simpl; [reflexivity|exact IH].
Qed.

Lemma localizeRaw_nothing
      (env : Env) (config : EngineParams) (params : LocalizationParams)
      (payload : obj) (log : list Request) :
  targetLocale params <> "" ->
  answers_nothing env ->
  exists log', _localizeRaw env config payload params log = (Ok [], log').
Proof.
  intros Htarget Hremote.
  unfold _localizeRaw, bind, lift, validateLocalizationParams.
  apply String.eqb_neq in Htarget. rewrite Htarget.
  destruct (localize_chunks_nothing env config params (createId env) Hremote
              (extractPayloadChunks config payload) [] log) as [log' E].
  exists log'. rewrite E. simpl. unfold ret.
  now rewrite Object_assign_nothing.
Qed.

(** With nothing to substitute, the fallback returns the document after the
    step that sets the language. *)
Lemma localizeHtmlSimple_nothing
      (env : Env) (config : EngineParams) (params : LocalizationParams)
      (html : string) (log : list Request) :
  targetLocale params <> "" ->
  answers_nothing env ->
  fst (localizeHtml env config None html params log)
  = Ok (replace_first html_tag_match
          ("<html$1 lang=" ++ dquote ++ targetLocale params ++ dquote ++ ">")
          EmptyString html).
Proof.
  intros Htarget Hremote. unfold localizeHtml, localizeHtmlSimple, bind.
  destruct (localizeRaw_nothing env config params (extract_simple html) log
              Htarget Hremote) as [log' E].
  rewrite E. reflexivity.
Qed.

Lemma append_nil_r (s : string) : (s ++ "")%string = s.
Proof. induction s as [|c r IH]; simpl; [reflexivity|now rewrite IH]. Qed.

Lemma append_assoc (a b c : string) :
  ((a ++ b) ++ c)%string = (a ++ b ++ c)%string.
Proof. induction a as [|x r IH]; simpl; [reflexivity|now rewrite IH]. Qed.

Lemma replace_first_skip (m : string -> option (string * nat))
      (template : string) (before : string) :
  forall (acc s : string),
    (forall k, k < String.length before -> m (drop k (before ++ s)) = None) ->
    replace_first m template acc (before ++ s)
    = replace_first m template (acc ++ before) s.
Proof.
  induction before as [|c r IH]; intros acc s Hnone.
  - simpl. now rewrite append_nil_r.
  - pose proof (Hnone 0 ltac:(simpl; lia)) as H0. simpl in H0.
    simpl. rewrite H0.
    rewrite IH.
    + now rewrite append_assoc.
    + intros k Hk. apply (Hnone (S k)). simpl. lia.
Qed.

Lemma replace_first_none (m : string -> option (string * nat))
      (template : string) (s : string) :
  forall acc,
    (forall k, m (drop k s) = None) ->
    replace_first m template acc s = (acc ++ s)%string.
Proof.
  induction s as [|c r IH]; intros acc Hnone.
  - pose proof (Hnone 0) as H0. simpl in H0. simpl. rewrite H0.
    now rewrite append_nil_r.
  - pose proof (Hnone 0) as H0. simpl in H0. simpl. rewrite H0.
    rewrite IH.
    + now rewrite append_assoc.
    + intros k. apply (Hnone (S k)).
Qed.

Lemma span_until_stop (stop : ascii) (a rest : string) :
  has_char stop a = false ->
  span_until stop (a ++ String stop rest) = (a, true).
Proof.
  induction a as [|c r IH]; simpl.
  - now rewrite Ascii.eqb_refl.
  - intros H. apply orb_false_iff in H. destruct H as [Hc Hr].
    rewrite Hc, (IH Hr). reflexivity.
Qed.

Lemma drop_append (a b : string) (k : nat) :
  drop (String.length a + k) (a ++ b) = drop k b.
Proof. induction a as [|c r IH]; simpl; [reflexivity|exact IH]. Qed.

Lemma expand_plain (a b matched before after : string)
      (captures : list string) :
  has_char "$" a = false ->
  expand (a ++ b) matched before after captures
  = (a ++ expand b matched before after captures)%string.
Proof.
  induction a as [|c r IH]; [reflexivity|].
  intros H. simpl in H. apply orb_false_iff in H. destruct H as [Hc Hr].
  cbn [String.append expand]. rewrite Hc. cbn [negb]. cbv iota.
  now rewrite (IH Hr).
Qed.

Lemma replace_first_here (m : string -> option (string * nat))
      (template acc s group : string) (n : nat) :
  m s = Some (group, n) ->
  replace_first m template acc s
  = (acc ++ expand template (take n s) acc (drop n s) [group] ++ drop n s)%string.
Proof. intros H. destruct s; simpl; rewrite H; reflexivity. Qed.

Lemma expand_lang (locale attrs matched before after : string) :
  has_char "$" locale = false ->
  expand ("<html$1 lang=" ++ dquote ++ locale ++ dquote ++ ">")
         matched before after [attrs]
  = ("<html" ++ attrs ++ " lang=" ++ dquote ++ locale ++ dquote ++ ">")%string.
Proof.
  intros Hlocale.
  change ("<html$1 lang=" ++ dquote ++ locale ++ dquote ++ ">")%string
    with ("<html" ++ "$1" ++ (" lang=" ++ dquote) ++ locale ++ dquote ++ ">")%string.
  rewrite expand_plain by reflexivity.
  f_equal.
  change (expand ("$1" ++ (" lang=" ++ dquote) ++ locale ++ dquote ++ ">")
                 matched before after [attrs])
    with (attrs ++ expand ((" lang=" ++ dquote) ++ locale ++ dquote ++ ">")
                          matched before after [attrs])%string.
  f_equal.
  rewrite expand_plain by reflexivity.
  rewrite expand_plain by exact Hlocale.
  reflexivity.
Qed.
Lemma html_tag_match_here (attrs rest : string) :
  has_char ">" attrs = false ->
  html_tag_match ("<html" ++ attrs ++ ">" ++ rest)
  = Some (attrs, 5 + String.length attrs + 1).
Proof.
  intros Hattrs. unfold html_tag_match.
  change (starts_with_ci "<html" ("<html" ++ attrs ++ ">" ++ rest)) with true.
  cbv iota.
  change (drop 5 ("<html" ++ attrs ++ ">" ++ rest))
    with (attrs ++ String ">" rest)%string.
  now rewrite (span_until_stop ">" attrs rest Hattrs).
Qed.

(** X22. The fallback adds its language attribute after the attributes of the
    root tag. Where the host defines no [DOMParser], for a document whose first
    html tag carries the attributes [attrs], against a remote end that
    translates nothing, [localizeHtml] returns the document with the attribute
    [lang] of the target locale inserted at the end of that tag and nothing
    else changed: the attributes the tag had are kept, a language attribute
    among them included. *)
Theorem localizeHtml_fallback_lang
        (env : Env) (config : EngineParams) (params : LocalizationParams)
        (before attrs rest : string) (log : list Request) :
  targetLocale params <> "" ->
  answers_nothing env ->
  (forall k, k < String.length before ->
             html_tag_match (drop k (before ++ "<html" ++ attrs ++ ">" ++ rest))
             = None) ->
  has_char ">" attrs = false ->
  has_char "$" (targetLocale params) = false ->
  fst (localizeHtml env config None
                    (before ++ "<html" ++ attrs ++ ">" ++ rest) params log)
  = Ok (before ++ "<html" ++ attrs ++ " lang=" ++ dquote
        ++ targetLocale params ++ dquote ++ ">" ++ rest)%string.
Proof.
  intros Htarget Hremote Hbefore Hattrs Hlocale.
  rewrite (localizeHtmlSimple_nothing env config params _ log Htarget Hremote).
  f_equal. rewrite replace_first_skip by exact Hbefore.
  rewrite (replace_first_here _ _ _ _ _ _ (html_tag_match_here attrs rest Hattrs)).
  rewrite expand_lang by exact Hlocale.
  assert (Hdrop : drop (5 + String.length attrs + 1)
                       ("<html" ++ attrs ++ ">" ++ rest) = rest).
  { change (drop (5 + String.length attrs + 1)
                 ("<html" ++ attrs ++ ">" ++ rest))
      with (drop (String.length attrs + 1) (attrs ++ ">" ++ rest)).
    rewrite drop_append. reflexivity. }
  rewrite Hdrop. change ("" ++ before)%string with before.
  rewrite !append_assoc. reflexivity.
Qed.

Lemma localizeHtml_fallback_lang_witness :
  fst (localizeHtml (constant_remote res_empty_data) test_config None
         (doctype ++ "<html" ++ (" lang=" ++ dquote ++ "en" ++ dquote) ++ ">"
          ++ "<body><p>Hello</p></body></html>") en_es [])
  = Ok (doctype ++ "<html" ++ (" lang=" ++ dquote ++ "en" ++ dquote)
        ++ " lang=" ++ dquote ++ "es" ++ dquote ++ ">"
        ++ "<body><p>Hello</p></body></html>")%string.
Proof.
  apply (localizeHtml_fallback_lang (constant_remote res_empty_data)
           test_config en_es doctype (" lang=" ++ dquote ++ "en" ++ dquote)
           "<body><p>Hello</p></body></html>" []).
  - simpl. discriminate.
  - intros n req. eexists _, _. repeat split; reflexivity.
  - intros k Hk.
    do 16 (destruct k as [|k]; [reflexivity|]). simpl in Hk. lia.
  - reflexivity.
  - reflexivity.
Defined.

(** X23. A fragment gets no language. Where the host defines no [DOMParser],
    for markup without an html tag, against a remote end that translates
    nothing, [localizeHtml] returns the markup as it was given: no language
    attribute is added anywhere. *)
Theorem localizeHtml_fallback_fragment
        (env : Env) (config : EngineParams) (params : LocalizationParams)
        (html : string) (log : list Request) :
  targetLocale params <> "" ->
  answers_nothing env ->
  (forall k, html_tag_match (drop k html) = None) ->
  fst (localizeHtml env config None html params log) = Ok html.
Proof.
  intros Htarget Hremote Hnone.
  rewrite (localizeHtmlSimple_nothing env config params _ log Htarget Hremote).
  now rewrite replace_first_none by exact Hnone.
Qed.

Lemma localizeHtml_fallback_fragment_witness :
  fst (localizeHtml (constant_remote res_empty_data) test_config None
                    "<p>Hello</p>" en_es [])
  = Ok "<p>Hello</p>".
Proof.
  apply (localizeHtml_fallback_fragment (constant_remote res_empty_data)
           test_config en_es "<p>Hello</p>" []).
  - simpl. discriminate.
  - intros n req. eexists _, _. repeat split; reflexivity.
  - intros k. do 13 (destruct k as [|k]; [reflexivity|]). reflexivity.
Defined.

Lemma getAttribute_setAttribute (name value : string)
      (attrs : list (string * string)) :
  getAttribute name (setAttribute name value attrs) = Some value.
Proof.
  unfold getAttribute.
  induction attrs as [|[k v] r IH]; simpl.
  - now rewrite String.eqb_refl.
  - destruct (k =? name)%string eqn:E; simpl; rewrite E; [reflexivity|exact IH].
Qed.

Lemma getAttribute_setAttribute_other (name other value : string)
      (attrs : list (string * string)) :
  other <> name ->
  getAttribute other (setAttribute name value attrs) = getAttribute other attrs.
Proof.
  intros Hne. unfold getAttribute.
  induction attrs as [|[k v] r IH]; simpl.
  - apply String.eqb_neq in Hne. rewrite String.eqb_sym in Hne.
    now rewrite Hne.
  - destruct (k =? name)%string eqn:E; simpl.
    + apply String.eqb_eq in E. subst k.
      apply String.eqb_neq in Hne. rewrite String.eqb_sym in Hne.
      now rewrite Hne.
    + destruct (k =? other)%string; [reflexivity|exact IH].
Qed.

Lemma length_setAttribute (name value : string)
      (attrs : list (string * string)) :
  length (setAttribute name value attrs)
  = if present (getAttribute name attrs) then length attrs
    else S (length attrs).
Proof.
  unfold getAttribute.
  induction attrs as [|[k v] r IH]; simpl; [reflexivity|].
  destruct (k =? name)%string; simpl; [reflexivity|].
  rewrite IH. destruct (find _ r); reflexivity.
Qed.

Lemma inject_entry_root (doc doc' : document) (kv : string * value) :
  inject_entry doc kv = Ok doc' ->
  documentElement_attributes doc' = documentElement_attributes doc.
Proof.
  unfold inject_entry. destruct kv as [path value].
  repeat match goal with
         | |- context [match ?x with _ => _ end] =>
             match x with
             | context [match _ with _ => _ end] => fail 1
             | _ => destruct x
             end
         end;
    intros H; inversion H; reflexivity.
Qed.

Lemma inject_all_root (entries : list (string * value)) :
  forall doc doc',
    inject_all entries doc = Ok doc' ->
    documentElement_attributes doc' = documentElement_attributes doc.
Proof.
  induction entries as [|kv r IH]; simpl; intros doc doc' H.
  - now inversion H.
  - destruct (inject_entry doc kv) as [doc1|e] eqn:E; [|discriminate].
    rewrite (IH doc1 doc' H). now apply (inject_entry_root doc doc1 kv).
Qed.

(** X24. The structural branch sets the language once. Where the host defines a
    [DOMParser], whenever [localizeHtml] resolves, what it returns is the
    serialization of a document whose root element has the target locale as its
    [lang] attribute, in place of the value it had if it had one, and every
    other attribute as the parser gave it; the given markup is returned only if
    that serialization is empty. *)
Theorem localizeHtml_structural_lang
        (env : Env) (config : EngineParams) (parser : DomHost)
        (html : string) (params : LocalizationParams) (log : list Request)
        (out : string) :
  fst (localizeHtml env config (Some parser) html params log) = Ok out ->
  exists doc,
    out = (if outerHTML parser doc =? "" then html else outerHTML parser doc) /\
    let before := documentElement_attributes (parseFromString parser html) in
    let after := documentElement_attributes doc in
    getAttribute "lang" after = Some (targetLocale params) /\
    (forall other, other <> "lang" ->
                   getAttribute other after = getAttribute other before) /\
    length after = (if present (getAttribute "lang" before) then length before
                    else S (length before)).
Proof.
  unfold localizeHtml, bind, lift, ret.
  destruct (extract_document (parseFromString parser html))
    as [extracted|e]; [|discriminate].
  destruct (_localizeRaw env config extracted params log)
    as [[localized|e] log']; [|discriminate].
  destruct (inject_all (Object_entries localized) _) as [doc|e] eqn:Hinject;
    [|discriminate].
  simpl. intros H. inversion H. exists doc. split; [reflexivity|].
  apply inject_all_root in Hinject. simpl in Hinject.
  cbv zeta. rewrite Hinject.
  split; [apply getAttribute_setAttribute|]. split.
  - intros other Hother. now apply getAttribute_setAttribute_other.
  - apply length_setAttribute.
Qed.

Lemma localizeHtml_structural_lang_witness :
  exists doc,
    "<html lang=es>"
    = (if outerHTML sample_host doc =? "" then "<html lang=en>"
       else outerHTML sample_host doc) /\
    getAttribute "lang" (documentElement_attributes doc) = Some "es" /\
    length (documentElement_attributes doc) = 2.
Proof.
  destruct (localizeHtml_structural_lang (translating_remote es_prefix)
              test_config sample_host "<html lang=en>" en_es []
              "<html lang=es>" eq_refl)
    as (doc & Hout & Hlang & _ & Hlength).
  exists doc. split; [exact Hout|]. split; [exact Hlang|exact Hlength].
Defined.

Lemma processNode_unlocalizable_witness :
  processNode false "body/0"
              (ElementNode "script" []
                 [TextNode "let data = 1;";
                  ElementNode "p" [] [TextNode "not extracted"]])
              [("head/0/0", VStr "Title")]
  = Ok [("head/0/0", VStr "Title")].
Proof.
  apply (processNode_unlocalizable "script" "body/0" []
           [TextNode "let data = 1;";
            ElementNode "p" [] [TextNode "not extracted"]]
           [("head/0/0", VStr "Title")]).
  simpl. tauto.
Defined.

(* ================================================================== *)
(** ** HTML: paths of the structural branch *)
(* ================================================================== *)

Lemma has_char_app (c : ascii) (a b : string) :
  has_char c (a ++ b) = has_char c a || has_char c b.
Proof.
  induction a as [|x r IH]; simpl; [reflexivity|].
  now rewrite IH, orb_assoc.
Qed.

Lemma has_char_digits (c : ascii) (s : string) :
  is_digit c = false -> all_digits s = true -> has_char c s = false.
Proof.
  intros Hc. induction s as [|x r IH]; simpl; [reflexivity|].
  intros H. apply andb_true_iff in H. destruct H as [Hx Hr].
  rewrite (IH Hr), orb_false_r.
  destruct (Ascii.eqb_spec x c) as [E|_]; [|reflexivity].
  subst x. congruence.
Qed.

Lemma nat_to_string_digits (i : nat) : all_digits (nat_to_string i) = true.
Proof. apply string_of_uint_digits. Qed.

Lemma parseInt_nat_to_string (i : nat) :
  parseInt (nat_to_string i) = Some (Z.of_nat i).
Proof.
  unfold nat_to_string.
  rewrite parseInt_digits by apply to_uint_nonnil.
  now rewrite Unsigned.of_to.
Qed.

Lemma split_char_none (sep : ascii) (s : string) :
  has_char sep s = false -> split_char sep s = [s].
Proof.
  induction s as [|c r IH]; simpl; [reflexivity|].
  intros H. apply orb_false_iff in H. destruct H as [Hc Hr].
  now rewrite Hc, (IH Hr).
Qed.

Lemma split_char_app (sep : ascii) (a b : string) :
  has_char sep a = false ->
  split_char sep (a ++ String sep b) = a :: split_char sep b.
Proof.
  induction a as [|c r IH]; simpl.
  - intros _. now rewrite Ascii.eqb_refl.
  - intros H. apply orb_false_iff in H. destruct H as [Hc Hr].
    now rewrite Hc, (IH Hr).
Qed.

Lemma path_of_suffix (idxs : list nat) :
  forall root, path_of root idxs = (root ++ path_suffix idxs)%string.
Proof.
  unfold path_of. induction idxs as [|i rest IH]; intros root; simpl.
  - now rewrite append_nil_r.
  - rewrite IH. now rewrite !append_assoc.
Qed.

Lemma split_path_suffix (idxs : list nat) :
  forall first,
    has_char "/" first = false ->
    split_char "/" (first ++ path_suffix idxs) = first :: map nat_to_string idxs.
Proof.
  induction idxs as [|i rest IH]; intros first Hfirst; simpl.
  - rewrite append_nil_r. now apply split_char_none.
  - rewrite split_char_app by exact Hfirst. f_equal.
    apply IH. apply has_char_digits; [reflexivity|apply nat_to_string_digits].
Qed.

Lemma split_path (root : string) (idxs : list nat) :
  has_char "/" root = false ->
  split_char "/" (path_of root idxs) = root :: map nat_to_string idxs.
Proof.
  intros Hroot. rewrite path_of_suffix. now apply split_path_suffix.
Qed.

Lemma path_suffix_no_hash (idxs : list nat) :
  has_char "#" (path_suffix idxs) = false.
Proof.
  induction idxs as [|i rest IH]; simpl; [reflexivity|].
  rewrite has_char_app, IH, orb_false_r.
  apply has_char_digits; [reflexivity|apply nat_to_string_digits].
Qed.

Lemma path_no_hash (root : string) (idxs : list nat) :
  has_char "#" root = false -> has_char "#" (path_of root idxs) = false.
Proof.
  intros Hroot.
  now rewrite path_of_suffix, has_char_app, Hroot, path_suffix_no_hash.
Qed.

(** The descent of [localizeHtml] along the positions of a path ends at the
    node the positions lead to. *)
Lemma descend_follow (idxs : list nat) :
  forall (address : list nat) (n : node) (found : list nat) (target : node),
    follow n idxs = Some (found, target) ->
    descend (map nat_to_string idxs) (address, n) (Some (address, n))
    = Some (address ++ found, target).
Proof.
  induction idxs as [|i rest IH]; intros address n found target Hfollow.
  - simpl in Hfollow. inversion Hfollow. subst. simpl.
    now rewrite app_nil_r.
  - cbn [follow] in Hfollow. cbn [map descend fst snd].
    rewrite parseInt_nat_to_string, index_of_nat.
    destruct (nth_error (significant_children (children_of n) 0) i)
      as [[raw child]|]; [|discriminate].
    cbn [option_map fst snd].
    destruct (follow child rest) as [[found' target']|] eqn:Hchild;
      [|discriminate].
    simpl in Hfollow. inversion Hfollow. subst found target. clear Hfollow.
    destruct rest as [|j rest'].
    + simpl in Hchild. inversion Hchild. subst.
      destruct target'; reflexivity.
    + destruct child as [data|tagName attrs children|].
      * simpl in Hchild. destruct j; discriminate.
      * rewrite (IH (address ++ [raw]) _ _ _ Hchild).
        now rewrite <- app_assoc.
      * simpl in Hchild. destruct j; discriminate.
Qed.

Lemma inject_entry_pieces (doc : document) (in_head : bool) (root : node)
      (idxs : list nat) :
  root_of in_head doc root ->
  (match head doc with
   | Some _ => node_name root =? "head"
   | None => false
   end) = in_head /\
  (if in_head then head doc else body doc) = Some root /\
  has_char "/" (node_name root) = false /\
  has_char "#" (node_name root) = false.
Proof.
  unfold root_of. destruct in_head; intros [Hroot Hname]; rewrite Hname.
  - rewrite Hroot. repeat split; reflexivity.
  - repeat split; try reflexivity; try exact Hroot.
    destruct (head doc); reflexivity.
Qed.

Lemma inject_text_at_path
      (doc : document) (in_head : bool) (root : node) (idxs : list nat)
      (address : list nat) (target : node) (translation : string) :
  root_of in_head doc root ->
  follow root idxs = Some (address, target) ->
  inject_entry doc (path_of (node_name root) idxs, VStr translation)
  = Ok (put_root in_head doc
          (update_at address (set_textContent translation) root)).
Proof.
  intros Hroot Hfollow.
  destruct (inject_entry_pieces doc in_head root idxs Hroot)
    as (Hhead & Hwhich & Hslash & Hhash).
  pose proof (descend_follow idxs [] root address target Hfollow) as Hdescend.
  simpl in Hdescend.
  unfold inject_entry.
  rewrite (split_char_none "#") by (apply path_no_hash; exact Hhash).
  cbn [nth nth_error].
  rewrite (split_path _ idxs Hslash). cbn [nth tl].
  rewrite Hhead, Hwhich, Hdescend.
  cbn [is_nullish to_js_string]. unfold put_root.
  destruct in_head; reflexivity.
Qed.

Lemma inject_attribute_at_path
      (doc : document) (in_head : bool) (root : node) (idxs : list nat)
      (address : list nat) (translation attribute tagName : string)
      (attrs : list (string * string)) (children : list node) :
  root_of in_head doc root ->
  follow root idxs = Some (address, ElementNode tagName attrs children) ->
  attribute <> "" ->
  has_char "#" attribute = false ->
  inject_entry doc
    ((path_of (node_name root) idxs ++ "#" ++ attribute)%string,
     VStr translation)
  = Ok (put_root in_head doc
          (update_at address (set_node_attribute attribute translation) root)).
Proof.
  intros Hroot Hfollow Hne Hattr.
  destruct (inject_entry_pieces doc in_head root idxs Hroot)
    as (Hhead & Hwhich & Hslash & Hhash).
  pose proof (descend_follow idxs [] root address _ Hfollow) as Hdescend.
  simpl in Hdescend.
  unfold inject_entry.
  change (path_of (node_name root) idxs ++ "#" ++ attribute)%string
    with (path_of (node_name root) idxs ++ String "#" attribute)%string.
  rewrite (split_char_app "#") by (apply path_no_hash; exact Hhash).
  rewrite (split_char_none "#" attribute Hattr).
  cbn [nth nth_error].
  rewrite (split_path _ idxs Hslash). cbn [nth tl].
  rewrite Hhead, Hwhich, Hdescend.
  destruct attribute as [|c name']; [congruence|].
  cbn [to_js_string]. unfold put_root.
  destruct in_head; reflexivity.
Qed.



(* ================================================================== *)
(** ** HTML: what the structural branch extracts *)
(* ================================================================== *)

Section NodeInduction.
Variable P : node -> Prop.
Hypothesis P_text : forall data, P (TextNode data).
Hypothesis P_other : P OtherNode.
Hypothesis P_element :
  forall tagName attrs children,
    Forall P children -> P (ElementNode tagName attrs children).

Fixpoint node_nested_ind (n : node) : P n :=
  match n with
  | TextNode data => P_text data
  | OtherNode => P_other
  | ElementNode tagName attrs children =>
      P_element tagName attrs children
        ((fix go (l : list node) : Forall P l :=
            match l with
            | [] => Forall_nil P
            | x :: r => Forall_cons x (node_nested_ind x) (go r)
            end) children)
  end.

End NodeInduction.

Lemma process_children_top (root : string) (l : list node) :
  forall i acc, process_top root l i acc = process_children false root l i acc.
Proof.
  induction l as [|child rest IH]; intros i acc; simpl; [reflexivity|].
  destruct (significant child); [|apply IH].
  destruct (processNode false _ child acc); [apply IH|reflexivity].
Qed.

Lemma process_children_each (path tagName : string)
      (attrs : list (string * string)) (children : list node) (acc : obj) :
  processNode false path (ElementNode tagName attrs children) acc
  = match localizable_attributes tagName with
    | None => Throw (TypeError "attributes.forEach is not a function")
    | Some names =>
        process_children
          (existsb (String.eqb tagName) UNLOCALIZABLE_TAGS) path children 0
          (fold_left
             (fun acc attr =>
                match getAttribute attr attrs with
                | Some value =>
                    if negb (value =? "") then
                      obj_set (path ++ "#" ++ attr)%string (VStr value) acc
                    else acc
                | None => acc
                end)
             names acc)
    end.
Proof.
  cbn [processNode]. destruct (localizable_attributes tagName) as [names|];
    [|reflexivity].
  generalize 0.
  generalize (fold_left
                (fun acc attr =>
                   match getAttribute attr attrs with
                   | Some value =>
                       if negb (value =? "") then
                         obj_set (path ++ "#" ++ attr)%string (VStr value) acc
                       else acc
                   | None => acc
                   end)
                names acc).
  induction children as [|child rest IH]; intros acc0 i; [reflexivity|].
  cbn [process_children]. destruct (significant child); [|apply IH].
  destruct (processNode _ _ child acc0); [apply IH|reflexivity].
Qed.

Lemma in_replace_key (k : string) (v : value) (o : obj) (kv : string * value) :
  In kv (replace_key k v o) -> In kv o \/ kv = (k, v).
Proof.
  induction o as [|[k' v'] r IH]; simpl; [tauto|].
  destruct (k' =? k)%string eqn:E; simpl.
  - apply String.eqb_eq in E. subst k'. intros [H|H]; auto.
  - intros [H|H]; auto. destruct (IH H); auto.
Qed.

Lemma in_insert_index (n : N) (k : string) (v : value) (o : obj)
      (kv : string * value) :
  In kv (insert_index n k v o) -> In kv o \/ kv = (k, v).
Proof.
  induction o as [|[k' v'] r IH]; simpl.
  - intros [H|[]]; auto.
  - destruct (array_index k') as [m|].
    + destruct (n <? m)%N; simpl.
      * intros [H|[H|H]]; auto.
      * intros [H|H]; auto. destruct (IH H); auto.
    + simpl. intros [H|[H|H]]; auto.
Qed.

Lemma in_obj_set (k : string) (v : value) (o : obj) (kv : string * value) :
  In kv (obj_set k v o) -> In kv o \/ kv = (k, v).
Proof.
  unfold obj_set. destruct (k =? "__proto__")%string; [auto|].
  destruct (has_key k o).
  - apply in_replace_key.
  - destruct (array_index k).
    + apply in_insert_index.
    + intros H. apply in_app_or in H. destruct H as [H|[H|[]]]; auto.
Qed.

Lemma significant_children_app (pre l : list node) :
  forall raw,
    significant_children (pre ++ l) raw
    = significant_children pre raw
      ++ significant_children l (raw + length pre).
Proof.
  induction pre as [|x r IH]; intros raw; simpl.
  - now rewrite Nat.add_0_r.
  - rewrite IH, Nat.add_succ_r. simpl.
    destruct (significant x); reflexivity.
Qed.

Lemma length_significant_children (l : list node) :
  forall raw,
    length (significant_children l raw) = length (filter significant l).
Proof.
  induction l as [|x r IH]; intros raw; simpl; [reflexivity|].
  destruct (significant x); simpl; now rewrite IH.
Qed.

Lemma nth_significant (pre rest : list node) (child : node) :
  significant child = true ->
  nth_error (significant_children (pre ++ child :: rest) 0)
            (length (filter significant pre))
  = Some (length pre, child).
Proof.
  intros Hchild. rewrite significant_children_app.
  rewrite nth_error_app2 by (rewrite length_significant_children; lia).
  rewrite length_significant_children, Nat.sub_diag. simpl.
  now rewrite Hchild.
Qed.

Lemma attributes_entries (path tagName : string)
      (attrs : list (string * string)) (children : list node)
      (all_names : list string) (kv : string * value) :
  localizable_attributes tagName = Some all_names ->
  forall (names : list string) (acc : obj),
    (forall a, In a names -> In a all_names) ->
    In kv (fold_left
             (fun acc attr =>
                match getAttribute attr attrs with
                | Some value =>
                    if negb (value =? "") then
                      obj_set (path ++ "#" ++ attr)%string (VStr value) acc
                    else acc
                | None => acc
                end)
             names acc) ->
    In kv acc \/ entry_of path (ElementNode tagName attrs children) kv.
Proof.
  intros Hnames names.
  induction names as [|a r IH]; intros acc Hsub; simpl; [auto|].
  intros H. apply IH in H; [|intros b Hb; apply Hsub; now right].
  destruct H as [H|H]; [|now right].
  destruct (getAttribute a attrs) as [value|] eqn:Hget; [|now left].
  destruct (value =? "")%string eqn:Hempty; simpl in H; [now left|].
  apply in_obj_set in H. destruct H as [H|H]; [now left|].
  right. simpl. exists a, value, all_names.
  repeat split; auto.
  - apply Hsub. now left.
  - now apply String.eqb_neq.
Qed.

Lemma process_children_entries (blocked : bool) (path : string)
      (children : list node) (kv : string * value) :
  forall (l pre : list node) (i : nat) (acc acc' : obj),
    children = pre ++ l ->
    i = length (filter significant pre) ->
    Forall adds_entries_below l ->
    process_children blocked path l i acc = Ok acc' ->
    In kv acc' ->
    In kv acc \/
    (blocked = false /\
     exists j raw child idxs address target,
       nth_error (significant_children children 0) j = Some (raw, child) /\
       follow child idxs = Some (address, target) /\
       entry_of (path_of (path ++ "/" ++ nat_to_string j) idxs) target kv /\
       open_path child idxs = true /\
       (idxs <> [] -> unlocalizable child = false)).
Proof.
  induction l as [|child rest IH]; intros pre i acc acc' Hsplit Hi Hall Hrun Hin.
  - simpl in Hrun. inversion Hrun. subst. now left.
  - apply Forall_cons_iff in Hall. destruct Hall as [Hchild Hrest].
    cbn [process_children] in Hrun.
    destruct (significant child) eqn:Hsig.
    + destruct (processNode blocked (path ++ "/" ++ nat_to_string i) child acc)
        as [acc1|e] eqn:Hnode; [|discriminate].
      assert (Hnext : In kv acc1 \/
                (blocked = false /\
                 exists j raw child idxs address target,
                   nth_error (significant_children children 0) j
                   = Some (raw, child) /\
                   follow child idxs = Some (address, target) /\
                   entry_of (path_of (path ++ "/" ++ nat_to_string j) idxs)
                            target kv /\
                   open_path child idxs = true /\
                   (idxs <> [] -> unlocalizable child = false))).
      { apply (IH (pre ++ [child]) (S i) acc1 acc'); auto.
        - now rewrite <- app_assoc.
        - rewrite filter_app, length_app. simpl. rewrite Hsig. simpl. lia. }
      destruct Hnext as [Hin1|Hfound]; [|now right].
      destruct (Hchild blocked _ acc acc1 kv Hnode Hin1)
        as [Hacc|(Hblocked & idxs & address & target & Hf & He & Ho & Hu)];
        [now left|].
      right. split; [exact Hblocked|].
      exists i, (length pre), child, idxs, address, target.
      repeat split; auto.
      subst children i. now apply nth_significant.
    + apply (IH (pre ++ [child]) i acc acc'); auto.
      * now rewrite <- app_assoc.
      * rewrite filter_app, length_app. simpl. rewrite Hsig. simpl. lia.
Qed.

Lemma processNode_entries (n : node) : adds_entries_below n.
Proof.
  induction n as [data| |tagName attrs children IHchildren]
    using node_nested_ind;
    intros blocked path acc acc' kv Hrun Hin.
  - (* a text node *)
    destruct blocked; simpl in Hrun.
    + inversion Hrun. subst. now left.
    + destruct (trim data =? "")%string eqn:Hblank; simpl in Hrun;
        inversion Hrun; subst; [now left|].
      apply in_obj_set in Hin. destruct Hin as [Hin|Hin]; [now left|].
      right. split; [reflexivity|].
      exists [], [], (TextNode data). simpl.
      repeat split; auto; try congruence; try (now apply String.eqb_neq).
  - (* neither an element nor a text *)
    destruct blocked; simpl in Hrun; inversion Hrun; subst; now left.
  - (* an element *)
    destruct blocked.
    + simpl in Hrun. inversion Hrun. subst. now left.
    + rewrite process_children_each in Hrun.
      destruct (localizable_attributes tagName) as [names|] eqn:Hnames;
        [|discriminate].
      destruct (process_children_entries _ path children kv children [] 0 _ acc'
                  eq_refl eq_refl IHchildren Hrun Hin)
        as [Hattr|(Hblocked & j & raw & child & idxs & address & target
                   & Hnth & Hf & He & Ho & Hu)].
      * destruct (attributes_entries path tagName attrs children names kv
                    Hnames names acc (fun a H => H) Hattr) as [Hacc|Hentry];
          [now left|].
        right. split; [reflexivity|].
        exists [], [], (ElementNode tagName attrs children).
        split; [reflexivity|]. split; [exact Hentry|].
        split; [reflexivity|]. congruence.
      * right. split; [reflexivity|].
        exists (j :: idxs), (raw :: address), target.
        cbn [follow open_path children_of]. rewrite Hnth, Hf, Ho.
        split; [reflexivity|]. split; [exact He|]. split.
        -- rewrite andb_true_r. destruct idxs as [|i' idxs']; [reflexivity|].
           rewrite Hu by discriminate. reflexivity.
        -- intros _. exact Hblocked.
Qed.

Lemma all_nodes_add_below (l : list node) : Forall adds_entries_below l.
Proof. apply Forall_forall. intros n _. apply processNode_entries. Qed.

Lemma process_top_entries (root : node) (acc acc' : obj)
      (kv : string * value) :
  process_top (node_name root) (children_of root) 0 acc = Ok acc' ->
  In kv acc' ->
  In kv acc \/
  exists idxs address target,
    idxs <> [] /\
    follow root idxs = Some (address, target) /\
    entry_of (path_of (node_name root) idxs) target kv /\
    open_path root idxs = true.
Proof.
  rewrite process_children_top. intros Hrun Hin.
  destruct (process_children_entries false (node_name root) (children_of root)
              kv (children_of root) [] 0 acc acc' eq_refl eq_refl
              (all_nodes_add_below _) Hrun Hin)
    as [Hacc|(_ & j & raw & child & idxs & address & target
              & Hnth & Hf & He & Ho & Hu)]; [now left|].
  right. exists (j :: idxs), (raw :: address), target.
  cbn [follow open_path]. rewrite Hnth, Hf, Ho.
  split; [discriminate|]. split; [reflexivity|]. split; [exact He|].
  rewrite andb_true_r. destruct idxs as [|i' idxs']; [reflexivity|].
  rewrite Hu by discriminate. reflexivity.
Qed.

(** Whatever holds of the entries added for the children of a root holds
    of the entries of the extraction, for the head or for the body. *)
Lemma extract_document_roots (Q : node -> string * value -> Prop)
      (doc : document) (extracted : obj) (kv : string * value) :
  (forall root acc acc',
      process_top (node_name root) (children_of root) 0 acc = Ok acc' ->
      In kv acc' -> In kv acc \/ Q root kv) ->
  extract_document doc = Ok extracted ->
  In kv extracted ->
  exists in_head root,
    (if in_head : bool then head doc else body doc) = Some root /\ Q root kv.
Proof.
  unfold extract_document. intros Hroot Hrun Hin.
  destruct (match head doc with
            | Some h => process_top (node_name h) (children_of h) 0 []
            | None => Ok []
            end) as [acc1|e] eqn:Hh; [|discriminate].
  assert (Hin1 : In kv acc1 \/ exists root, body doc = Some root /\ Q root kv).
  { destruct (body doc) as [b|].
    - destruct (Hroot b acc1 extracted Hrun Hin) as [H|H]; [now left|].
      right. now exists b.
    - inversion Hrun. subst. now left. }
  destruct Hin1 as [Hin1|(root & Hbody & HQ)].
  - destruct (head doc) as [h|].
    + destruct (Hroot h [] acc1 Hh Hin1) as [[]|H]. now exists true, h.
    + inversion Hh. subst. destruct Hin1.
  - now exists false, root.
Qed.

(** X26. What the structural branch extracts. Every entry of the extraction of
    a document is recorded for a node below the head or the body that is
    reached through significant children without entering a script or style
    element: a text node that is not blank, under the path of its positions and
    with its trimmed text, or an element with a non-empty localizable
    attribute, under that path followed by [#] and the name of the attribute
    and with the value of the attribute. *)
Theorem extract_document_entries
        (doc : document) (extracted : obj) (kv : string * value) :
  extract_document doc = Ok extracted ->
  In kv extracted ->
  exists in_head root idxs address target,
    (if in_head : bool then head doc else body doc) = Some root /\
    idxs <> [] /\
    follow root idxs = Some (address, target) /\
    entry_of (path_of (node_name root) idxs) target kv /\
    open_path root idxs = true.
Proof.
  intros Hextract Hin.
  destruct (extract_document_roots
              (fun root kv =>
                 exists idxs address target,
                   idxs <> [] /\
                   follow root idxs = Some (address, target) /\
                   entry_of (path_of (node_name root) idxs) target kv /\
                   open_path root idxs = true)
              doc extracted kv) as (in_head & root & Hroot & HQ).
  - intros root acc acc'. apply process_top_entries.
  - exact Hextract.
  - exact Hin.
  - destruct HQ as (idxs & address & target & HQ).
    exists in_head, root, idxs, address, target. tauto.
Qed.

Lemma extract_document_entries_witness :
  exists in_head root idxs address target,
    (if in_head : bool then head parsed_sample else body parsed_sample)
    = Some root /\
    idxs <> [] /\
    follow root idxs = Some (address, target) /\
    entry_of (path_of (node_name root) idxs) target ("body/1/1/0", VStr "data") /\
    open_path root idxs = true.
Proof.
  apply (extract_document_entries parsed_sample
           [("head/0/0", VStr "Test Page");
            ("head/1#content", VStr "Page description");
            ("body/0", VStr "standalone");
            ("body/1/1/0", VStr "data");
            ("body/1/1/1#alt", VStr "A picture")]).
  - reflexivity.
  - simpl. tauto.
Defined.

(* ================================================================== *)
(** ** HTML: writing back what was extracted *)
(* ================================================================== *)

Lemma significant_children_nth (l : list node) :
  forall (r i raw : nat) (child : node),
    nth_error (significant_children l r) i = Some (raw, child) ->
    r <= raw /\ nth_error l (raw - r) = Some child.
Proof.
  induction l as [|x rest IH]; intros r i raw child H; simpl in H.
  - destruct i; discriminate.
  - assert (Hlater : forall i',
               nth_error (significant_children rest (S r)) i' = Some (raw, child) ->
               r <= raw /\ nth_error (x :: rest) (raw - r) = Some child).
    { intros i' H'. destruct (IH (S r) i' raw child H') as [Hle Hnth].
      split; [lia|]. replace (raw - r) with (S (raw - S r)) by lia.
      exact Hnth. }
    destruct (significant x); [|now apply (Hlater i)].
    destruct i as [|i']; [|now apply (Hlater i')].
    simpl in H. inversion H. subst. rewrite Nat.sub_diag. split; [lia|reflexivity].
Qed.

Lemma follow_node_at (idxs : list nat) :
  forall (n : node) (address : list nat) (target : node),
    follow n idxs = Some (address, target) -> node_at address n = Some target.
Proof.
  induction idxs as [|i rest IH]; intros n address target H; simpl in H.
  - inversion H. reflexivity.
  - destruct (nth_error (significant_children (children_of n) 0) i)
      as [[raw child]|] eqn:Hnth; [|discriminate].
    destruct (follow child rest) as [[found target']|] eqn:Hchild;
      [|discriminate].
    simpl in H. inversion H. subst. simpl.
    destruct (significant_children_nth _ _ _ _ _ Hnth) as [_ Hraw].
    rewrite Nat.sub_0_r in Hraw. rewrite Hraw. now apply IH.
Qed.

Lemma node_at_update_at (f : node -> node) (address : list nat) :
  forall (n target : node),
    node_at address n = Some target ->
    node_at address (update_at address f n) = Some (f target).
Proof.
  induction address as [|i rest IH]; intros n target H; simpl in H.
  - inversion H. reflexivity.
  - destruct n as [data|tagName attrs children|]; simpl in H;
      try (destruct i; discriminate).
    cbn [update_at node_at children_of].
    revert i H. induction children as [|c r IHc]; intros i H.
    + destruct i; discriminate.
    + destruct i as [|i']; simpl in H.
      * simpl. now apply IH.
      * simpl. now apply IHc.
Qed.

Lemma localizable_attribute_plain (tagName : string) (names : list string)
      (attribute : string) :
  localizable_attributes tagName = Some names ->
  In attribute names ->
  attribute <> "" /\ has_char "#" attribute = false.
Proof.
  unfold localizable_attributes.
  repeat match goal with
         | |- context [if ?c then _ else _] => destruct c
         end;
    intros H; inversion H; subst; simpl;
    intros Hin; repeat (destruct Hin as [Hin|Hin]; [subst; split;
                                                    [discriminate|reflexivity]|]);
    destruct Hin.
Qed.

(** X27. What is extracted can be written back in place. In a document whose
    head and body carry their names, for every entry of the extraction, writing
    a string back under the key of the entry succeeds and changes one node, the
    one the entry was read from: the text node becomes the text node of the
    string, or the element has the attribute of the entry set to the string. *)
Theorem extracted_entry_written_back
        (doc : document) (extracted : obj) (key : string) (original : value)
        (translation : string) :
  named_roots doc ->
  extract_document doc = Ok extracted ->
  In (key, original) extracted ->
  exists in_head root address target write,
    (if in_head : bool then head doc else body doc) = Some root /\
    node_at address root = Some target /\
    inject_entry doc (key, VStr translation)
    = Ok (put_root in_head doc (update_at address write root)) /\
    node_at address (update_at address write root) = Some (write target) /\
    ((exists data,
         target = TextNode data /\ original = VStr (trim data) /\
         write target = TextNode translation) \/
     (exists tagName attrs children attribute value,
         target = ElementNode tagName attrs children /\
         getAttribute attribute attrs = Some value /\
         original = VStr value /\
         write target
         = ElementNode tagName (setAttribute attribute translation attrs)
                       children)).
Proof.
  intros [Hhead Hbody] Hextract Hin.
  destruct (extract_document_roots
              (fun root kv =>
                 exists idxs address target,
                   idxs <> [] /\
                   follow root idxs = Some (address, target) /\
                   entry_of (path_of (node_name root) idxs) target kv /\
                   open_path root idxs = true)
              doc extracted (key, original)
              (fun root acc acc' => process_top_entries root acc acc' _)
              Hextract Hin)
    as (in_head & root & Hroot & idxs & address & target & _ & Hfollow
        & Hentry & _).
  assert (Hnamed : root_of in_head doc root).
  { unfold root_of. destruct in_head; split; auto. }
  pose proof (inject_text_at_path doc in_head root idxs address target
                translation Hnamed Hfollow) as Htext.
  pose proof (follow_node_at idxs root address target Hfollow) as Hat.
  destruct target as [data|tagName attrs children|]; simpl in Hentry.
  - destruct Hentry as [Hkv _]. inversion Hkv. subst key original.
    exists in_head, root, address, (TextNode data),
      (set_textContent translation).
    split; [exact Hroot|]. split; [exact Hat|]. split; [exact Htext|].
    split; [now apply node_at_update_at|].
    left. exists data. repeat split.
  - destruct Hentry as (attribute & value & names & Hnames & Hname & Hget
                        & _ & Hkv).
    inversion Hkv. subst key original.
    destruct (localizable_attribute_plain tagName names attribute Hnames Hname)
      as [Hne Hplain].
    exists in_head, root, address, (ElementNode tagName attrs children),
      (set_node_attribute attribute translation).
    split; [exact Hroot|]. split; [exact Hat|].
    split; [exact (inject_attribute_at_path doc in_head root idxs address
                     translation attribute tagName attrs children
                     Hnamed Hfollow Hne Hplain)|].
    split; [now apply node_at_update_at|].
    right. exists tagName, attrs, children, attribute, value. repeat split.
    exact Hget.
  - destruct Hentry.
Qed.

Lemma parsed_sample_named : named_roots parsed_sample.
Proof. split; intros n H; inversion H; reflexivity. Qed.

Lemma extracted_entry_written_back_witness :
  exists in_head root address target write,
    (if in_head : bool then head parsed_sample else body parsed_sample)
    = Some root /\
    node_at address root = Some target /\
    inject_entry parsed_sample ("body/1/1/0", VStr "ES:data")
    = Ok (put_root in_head parsed_sample (update_at address write root)) /\
    node_at address (update_at address write root) = Some (write target) /\
    ((exists data,
         target = TextNode data /\ VStr "data" = VStr (trim data) /\
         write target = TextNode "ES:data") \/
     (exists tagName attrs children attribute value,
         target = ElementNode tagName attrs children /\
         getAttribute attribute attrs = Some value /\
         VStr "data" = VStr value /\
         write target
         = ElementNode tagName (setAttribute attribute "ES:data" attrs)
                       children)).
Proof.
  apply (extracted_entry_written_back parsed_sample
           [("head/0/0", VStr "Test Page");
            ("head/1#content", VStr "Page description");
            ("body/0", VStr "standalone");
            ("body/1/1/0", VStr "data");
            ("body/1/1/1#alt", VStr "A picture")]
           "body/1/1/0" (VStr "data") "ES:data").
  - exact parsed_sample_named.
  - reflexivity.
  - simpl. tauto.
Defined.
